(** * A shallow embedding of [interpreterv4.py]

    The interpreter is a tree walker over the AST produced by an external
    parser.  Python objects that are shared and mutated are modelled by
    explicit stores:

    - a [Cell] is an address into the list [cells] of the interpreter state
      (a fresh [Cell(...)] is an append, [cell.set] is an in-place update);
    - an environment stack (the Python list held in [self.env.env], or the
      list built by [capture_env_for_lambda]) is an index into [envs];
    - a heap object is a key of [heap], its field table an insertion-ordered
      dictionary from field names to cell addresses;
    - a [FunctionValue] object carries an identity number, used where the
      source compares with [is];
    - a string is held as the UTF-8 encoding of its characters, so that
      equality, concatenation and output are those of the host; [int]
      decodes it.

    [super().error(kind, msg)] aborts the run: it is the [Error] outcome.
    An exception of the host language that the source does not catch is the
    [Raise] outcome.  Recursion of the evaluator is bounded by a fuel
    argument; [OutOfFuel] is the outcome of a run that needs more. *)

From Stdlib Require Import ZArith String Ascii List Lia Bool.
From stdpp Require Import base list gmap strings pretty.

Open Scope Z_scope.
Open Scope string_scope.
Open Scope list_scope.

(* ===================================================================== *)
(** ** Host-language helpers *)
(* ===================================================================== *)

Module Py.

(** [s[-1]]: the last character, [None] where Python raises IndexError. *)
Fixpoint last_char (s : string) : option ascii :=
  match s with
  | EmptyString => None
  | String c EmptyString => Some c
  | String _ rest => last_char rest
  end.

(** [c.isupper()] for a one-character string.  Identifiers are ASCII. *)
Definition isupper (c : ascii) : bool :=
  let n := nat_of_ascii c in (Nat.leb 65 n && Nat.leb n 90)%bool.

(** [s.split('.')]: always at least one part. *)
Fixpoint split_dot_aux (cur : string) (s : string) : list string :=
  match s with
  | EmptyString => [cur]
  | String c rest =>
      if Ascii.eqb c "."%char
      then cur :: split_dot_aux EmptyString rest
      else split_dot_aux (cur ++ String c EmptyString) rest
  end.

Definition split_dot (s : string) : list string := split_dot_aux EmptyString s.

(** ["." in s] *)
Fixpoint has_dot (s : string) : bool :=
  match s with
  | EmptyString => false
  | String c rest => if Ascii.eqb c "."%char then true else has_dot rest
  end.

(** [str(n)] for an int. *)
Definition str_int (z : Z) : string := pretty z.

(** [str(b)] for a bool, and [str(b).lower()]. *)
Definition str_bool (b : bool) : string := if b then "True" else "False".
Definition str_bool_lower (b : bool) : string := if b then "true" else "false".

(** [s.lower()] on ASCII. *)
Definition lower_char (c : ascii) : ascii :=
  if isupper c then ascii_of_nat (nat_of_ascii c + 32) else c.

Fixpoint lower (s : string) : string :=
  match s with
  | EmptyString => EmptyString
  | String c rest => String (lower_char c) (lower rest)
  end.

(** The white space that [int] skips on both ends of an ASCII numeral:
    [isspace] of the C locale, the characters 9 to 13 and 32. *)
Definition is_space (c : ascii) : bool :=
  let n := nat_of_ascii c in
  (Nat.eqb n 32 || (Nat.leb 9 n && Nat.leb n 13))%bool.

Definition digit_of (c : ascii) : option Z :=
  let n := nat_of_ascii c in
  if (Nat.leb 48 n && Nat.leb n 57)%bool then Some (Z.of_nat (n - 48)) else None.

Fixpoint lstrip (s : string) : string :=
  match s with
  | String c rest => if is_space c then lstrip rest else s
  | EmptyString => EmptyString
  end.

Fixpoint rev_string_aux (acc s : string) : string :=
  match s with
  | EmptyString => acc
  | String c rest => rev_string_aux (String c acc) rest
  end.

Definition strip (s : string) : string :=
  rev_string_aux EmptyString (lstrip (rev_string_aux EmptyString (lstrip s))).

(** Digits with single underscores allowed between digits.
    [prev_digit] tells whether the previous character was a digit. *)
Fixpoint digits (acc : Z) (prev_digit : bool) (s : string) : option Z :=
  match s with
  | EmptyString => if prev_digit then Some acc else None
  | String c rest =>
      match digit_of c with
      | Some d => digits (10 * acc + d) true rest
      | None =>
          if (Ascii.eqb c "_"%char && prev_digit)%bool
          then match rest with
               | EmptyString => None
               | _ => digits acc false rest
               end
          else None
      end
  end.

(** The numeral of an ASCII string, as [int] reads it once the white space
    and the digits have been brought to ASCII: white space on both ends,
    an optional sign, digits with single underscores between them.
    [None] where Python raises ValueError. *)
Definition int_of_ascii (s : string) : option Z :=
  match strip s with
  | String "-"%char rest => option_map Z.opp (digits 0 false rest)
  | String "+"%char rest => digits 0 false rest
  | body => digits 0 false body
  end.

(** The payload of a continuation byte of UTF-8. *)
Definition continuation (b : ascii) : option N :=
  let n := N_of_ascii b in
  if ((128 <=? n) && (n <? 192))%N then Some (n - 128)%N else None.

(** The characters of a string, as code points: the decoding of its
    UTF-8 bytes.  Shortest encodings only, no surrogates, nothing beyond
    U+10FFFF; [None] on bytes that encode no string. *)
Fixpoint code_points (s : string) : option (list N) :=
  match s with
  | EmptyString => Some []
  | String b0 r0 =>
      let n0 := N_of_ascii b0 in
      if (n0 <? 128)%N then option_map (cons n0) (code_points r0)
      else if (n0 <? 192)%N then None
      else if (n0 <? 224)%N then
        match r0 with
        | String b1 r1 =>
            match continuation b1 with
            | Some c1 =>
                let cp := ((n0 - 192) * 64 + c1)%N in
                if (cp <? 128)%N then None
                else option_map (cons cp) (code_points r1)
            | None => None
            end
        | EmptyString => None
        end
      else if (n0 <? 240)%N then
        match r0 with
        | String b1 (String b2 r2) =>
            match continuation b1, continuation b2 with
            | Some c1, Some c2 =>
                let cp := ((n0 - 224) * 4096 + c1 * 64 + c2)%N in
                if ((cp <? 2048) || ((55296 <=? cp) && (cp <? 57344)))%N then None
                else option_map (cons cp) (code_points r2)
            | _, _ => None
            end
        | _ => None
        end
      else if (n0 <? 248)%N then
        match r0 with
        | String b1 (String b2 (String b3 r3)) =>
            match continuation b1, continuation b2, continuation b3 with
            | Some c1, Some c2, Some c3 =>
                let cp := ((n0 - 240) * 262144 + c1 * 4096 + c2 * 64 + c3)%N in
                if ((cp <? 65536) || (1114111 <? cp))%N then None
                else option_map (cons cp) (code_points r3)
            | _, _, _ => None
            end
        | _ => None
        end
      else None
  end.

(** The characters from U+007F on that the host counts as white space
    (Unicode 14.0, the tables of the host). *)
Definition unicode_space (cp : N) : bool :=
  ((cp =? 133) || (cp =? 160) || (cp =? 5760)
   || ((8192 <=? cp) && (cp <=? 8202))
   || (cp =? 8232) || (cp =? 8233) || (cp =? 8239) || (cp =? 8287)
   || (cp =? 12288))%N.

(** The decimal digits from U+007F on come in runs of ten consecutive
    characters, of values 0 to 9: the first character of each run
    (Unicode 14.0, the tables of the host). *)
Definition decimal_runs : list N :=
  [
   1632; 1776; 1984; 2406; 2534; 2662; 2790; 2918;
   3046; 3174; 3302; 3430; 3558; 3664; 3792; 3872;
   4160; 4240; 6112; 6160; 6470; 6608; 6784; 6800;
   6992; 7088; 7232; 7248; 42528; 43216; 43264; 43472;
   43504; 43600; 44016; 65296; 66720; 68912; 69734; 69872;
   69942; 70096; 70384; 70736; 70864; 71248; 71360; 71472;
   71904; 72016; 72784; 73040; 73120; 92768; 92864; 93008;
   120782; 120792; 120802; 120812; 120822; 123200; 123632; 125264;
   130032
  ]%N.

Definition decimal_digit (cp : N) : option N :=
  match List.find (fun b => ((b <=? cp) && (cp <? b + 10))%N) decimal_runs with
  | Some b => Some (cp - b)%N
  | None => None
  end.

(** What [int] makes of a character before it reads the numeral: a
    character below U+007F stays, white space becomes a space, a decimal
    digit its ASCII digit; any other character ends in ValueError. *)
Definition numeral_char (cp : N) : option ascii :=
  if (cp <? 127)%N then Some (ascii_of_N cp)
  else if unicode_space cp then Some " "%char
  else option_map (fun d => ascii_of_N (48 + d)) (decimal_digit cp).

Fixpoint numeral_chars (cps : list N) : option string :=
  match cps with
  | [] => Some EmptyString
  | cp :: rest =>
      match numeral_char cp with
      | Some c => option_map (String c) (numeral_chars rest)
      | None => None
      end
  end.

(** [int(s)]: [None] where Python raises ValueError. *)
Definition int_of_str (s : string) : option Z :=
  match code_points s with
  | Some cps =>
      match numeral_chars cps with
      | Some numeral => int_of_ascii numeral
      | None => None
      end
  | None => None
  end.

End Py.

(* ===================================================================== *)
(** ** Types, AST, values *)
(* ===================================================================== *)

Inductive Type_ : Set := NIL | INT | STRING | BOOL | VOID | OBJECT | FUNCTION.

Global Instance Type_eq_dec : EqDecision Type_.
Proof. solve_decision. Defined.

Inductive ErrorType : Set := NAME_ERROR | TYPE_ERROR | FAULT_ERROR.

Global Instance ErrorType_eq_dec : EqDecision ErrorType.
Proof. solve_decision. Defined.

(** The binary operator symbols of [self.bops]. *)
Inductive bop : Set :=
| OpAdd | OpSub | OpMul | OpDiv | OpEq | OpNe | OpGt | OpGe | OpLt | OpLe | OpOr | OpAnd.

Global Instance bop_eq_dec : EqDecision bop.
Proof. solve_decision. Defined.

(** A formal parameter node: its [name] and its [ref] flag. *)
Record arg_node : Set := ArgNode { arg_name : string; arg_ref : bool }.

#[local] Unset Elimination Schemes.

(** AST nodes, by element type.  A function node (top-level definition or
    anonymous function literal) carries the element type given by the
    parser and a number standing for the identity of the node object. *)
Inductive expr : Set :=
| FuncExpr (f : func_node)
| IntNode (val : Z)
| StringNode (val : string)
| BoolNode (val : bool)
| NilNode
| NewObject
| Convert (to_type : string) (e : expr)
| QualifiedName (name : string)
| FcallExpr (name : string) (args : list expr)
| BinOp (kind : bop) (op1 op2 : expr)
| Neg (op1 : expr)
| Not (op1 : expr)
with stmt : Set :=
| VarDef (name : string)
| BVarDef (name : string)
| Assign (var : string) (expression : expr)
| Fcall (name : string) (args : list expr)
| If (condition : expr) (statements : list stmt) (else_statements : option (list stmt))
| While (condition : expr) (statements : list stmt)
| Return (expression : option expr)
with func_node : Set :=
| FuncNode (is_func_elem : bool) (node_id : nat) (name : string)
           (args : list arg_node) (statements : list stmt).

#[local] Set Elimination Schemes.

(** [is_func_elem] is the truth value of [elem_type == FUNC_NODE]. *)
Definition fn_is_func_elem (f : func_node) : bool :=
  match f with FuncNode b _ _ _ _ => b end.
Definition fn_node_id (f : func_node) : nat :=
  match f with FuncNode _ i _ _ _ => i end.
Definition fn_name (f : func_node) : string :=
  match f with FuncNode _ _ n _ _ => n end.
Definition fn_args (f : func_node) : list arg_node :=
  match f with FuncNode _ _ _ a _ => a end.
Definition fn_statements (f : func_node) : list stmt :=
  match f with FuncNode _ _ _ _ s => s end.

(** [FunctionValue]: [closure_env] is the identity of the captured
    environment-stack list, when there is one. *)
Record FunctionValue : Set := mkFunctionValue {
  fv_id : nat;
  func_ast : func_node;
  param_types : list Type_;
  closure_env : option nat
}.

Inductive payload : Set :=
| PNone
| PInt (z : Z)
| PStr (s : string)
| PBool (b : bool)
| PFun (fv : FunctionValue).

(** [Value]: the pair of [t] and [v].  Object payloads are the integer ids
    handed out by [new_object]. *)
Record Value : Set := mkValue { val_t : Type_; val_v : payload }.

(** [Value()] *)
Definition Value_default : Value := mkValue NIL PNone.

Definition is_none (p : payload) : bool :=
  match p with PNone => true | _ => false end.

Definition type_in (ty : Type_) (l : list Type_) : bool :=
  bool_decide (ty ∈ l).

(* ===================================================================== *)
(** ** Insertion-ordered dictionaries with string keys *)
(* ===================================================================== *)

Module Dict.
Section Dict.
Context {V : Type}.

Fixpoint get (k : string) (d : list (string * V)) : option V :=
  match d with
  | [] => None
  | (k', x) :: rest => if String.eqb k k' then Some x else get k rest
  end.

Definition mem (k : string) (d : list (string * V)) : bool :=
  match get k d with Some _ => true | None => false end.

(** [d[k] = x] *)
Fixpoint set (k : string) (x : V) (d : list (string * V)) : list (string * V) :=
  match d with
  | [] => [(k, x)]
  | (k', y) :: rest =>
      if String.eqb k k' then (k', x) :: rest else (k', y) :: set k x rest
  end.
End Dict.
End Dict.


(* ===================================================================== *)
(** ** Interpreter state and outcomes *)
(* ===================================================================== *)

(** A block is a dictionary from identifiers to cells; a frame is the list
    of the blocks of one function activation, innermost last; an
    environment stack is the list of frames, current frame last. *)
Definition block : Set := list (string * nat).
Definition frame : Set := list block.
Definition env_stack : Set := list frame.

(** Interface table entries. *)
Record param_spec : Set := ParamSpec {
  ps_type : Type_;
  ps_interface : option string;
  ps_ref : bool
}.

Inductive field_spec : Set :=
| VarField (type : Type_) (interface : option string)
| FuncField (params : list param_spec).

(** The fields of the [Interpreter] object, the stores that stand for
    object identity, and the two channels of the host. *)
Record Interp : Type := mkInterp {
  cells : list Value;
  envs : list env_stack;
  env : nat;
  funcs : list ((string * list Type_) * func_node);
  interfaces : list (string * list (string * field_spec));
  heap : gmap Z (list (string * nat));
  next_obj_id : Z;
  current_return_type : Type_;
  current_return_interface : option string;
  next_fv_id : nat;
  output : list string;
  input : list string
}.

Definition with_cells (c : list Value) (st : Interp) : Interp :=
  mkInterp c (envs st) (env st) (funcs st) (interfaces st) (heap st) (next_obj_id st)
           (current_return_type st) (current_return_interface st) (next_fv_id st)
           (output st) (input st).
Definition with_envs (e : list env_stack) (st : Interp) : Interp :=
  mkInterp (cells st) e (env st) (funcs st) (interfaces st) (heap st) (next_obj_id st)
           (current_return_type st) (current_return_interface st) (next_fv_id st)
           (output st) (input st).
Definition with_env (i : nat) (st : Interp) : Interp :=
  mkInterp (cells st) (envs st) i (funcs st) (interfaces st) (heap st) (next_obj_id st)
           (current_return_type st) (current_return_interface st) (next_fv_id st)
           (output st) (input st).
Definition with_funcs (f : list ((string * list Type_) * func_node)) (st : Interp) : Interp :=
  mkInterp (cells st) (envs st) (env st) f (interfaces st) (heap st) (next_obj_id st)
           (current_return_type st) (current_return_interface st) (next_fv_id st)
           (output st) (input st).
Definition with_interfaces (i : list (string * list (string * field_spec))) (st : Interp) : Interp :=
  mkInterp (cells st) (envs st) (env st) (funcs st) i (heap st) (next_obj_id st)
           (current_return_type st) (current_return_interface st) (next_fv_id st)
           (output st) (input st).
Definition with_heap (h : gmap Z (list (string * nat))) (st : Interp) : Interp :=
  mkInterp (cells st) (envs st) (env st) (funcs st) (interfaces st) h (next_obj_id st)
           (current_return_type st) (current_return_interface st) (next_fv_id st)
           (output st) (input st).
Definition with_next_obj_id (n : Z) (st : Interp) : Interp :=
  mkInterp (cells st) (envs st) (env st) (funcs st) (interfaces st) (heap st) n
           (current_return_type st) (current_return_interface st) (next_fv_id st)
           (output st) (input st).
Definition with_return (ty : Type_) (i : option string) (st : Interp) : Interp :=
  mkInterp (cells st) (envs st) (env st) (funcs st) (interfaces st) (heap st) (next_obj_id st)
           ty i (next_fv_id st) (output st) (input st).
Definition with_next_fv_id (n : nat) (st : Interp) : Interp :=
  mkInterp (cells st) (envs st) (env st) (funcs st) (interfaces st) (heap st) (next_obj_id st)
           (current_return_type st) (current_return_interface st) n
           (output st) (input st).
Definition with_output (o : list string) (st : Interp) : Interp :=
  mkInterp (cells st) (envs st) (env st) (funcs st) (interfaces st) (heap st) (next_obj_id st)
           (current_return_type st) (current_return_interface st) (next_fv_id st)
           o (input st).
Definition with_input (i : list string) (st : Interp) : Interp :=
  mkInterp (cells st) (envs st) (env st) (funcs st) (interfaces st) (heap st) (next_obj_id st)
           (current_return_type st) (current_return_interface st) (next_fv_id st)
           (output st) i.

(** [Interpreter.__init__]: the environment stack is the empty list. *)
Definition Interp_init (inp : list string) : Interp :=
  mkInterp [] [[]] 0%nat [] [] ∅ 1 VOID None 0%nat [] inp.

Inductive result (A : Type) : Type :=
| Ok (a : A)
| Error (kind : ErrorType)
| Raise (exn : string)
| OutOfFuel.

Arguments Ok {A} a.
Arguments Error {A} kind.
Arguments Raise {A} exn.
Arguments OutOfFuel {A}.

Definition M (A : Type) : Type := Interp -> result (A * Interp).

Definition ret {A} (a : A) : M A := fun st => Ok (a, st).

Definition bind {A B} (m : M A) (k : A -> M B) : M B :=
  fun st =>
    match m st with
    | Ok (a, st') => k a st'
    | Error kind => Error kind
    | Raise exn => Raise exn
    | OutOfFuel => OutOfFuel
    end.

(** [super().error(kind, msg)] *)
Definition error {A} (kind : ErrorType) : M A := fun _ => Error kind.

Definition raise {A} (exn : string) : M A := fun _ => Raise exn.

Definition out_of_fuel {A} : M A := fun _ => OutOfFuel.

Definition gets {A} (f : Interp -> A) : M A := fun st => Ok (f st, st).

Definition modify (f : Interp -> Interp) : M unit := fun st => Ok (tt, f st).

Declare Scope interp_scope.
Delimit Scope interp_scope with interp.

Notation "x <- m ;; k" := (bind m (fun x => k))
  (at level 100, m at next level, right associativity) : interp_scope.
Notation "m ;; k" := (bind m (fun _ => k))
  (at level 100, right associativity) : interp_scope.

Open Scope interp_scope.

(** [if cond: super().error(kind, msg)] *)
Definition error_if (cond : bool) (kind : ErrorType) : M unit :=
  if cond then error kind else ret tt.

(** An option whose [None] is a host exception. *)
Definition or_raise {A} (o : option A) (exn : string) : M A :=
  match o with Some a => ret a | None => raise exn end.

(* ===================================================================== *)
(** ** Cells *)
(* ===================================================================== *)

(** [Cell(value)]: a fresh object. *)
Definition Cell_new (value : Value) : M nat :=
  fun st => Ok (length (cells st), with_cells (cells st ++ [value]) st).

(** [cell.get()] *)
Definition Cell_get (c : nat) : M Value :=
  fun st => match cells st !! c with
            | Some x => Ok (x, st)
            | None => Raise "dangling cell"
            end.

(** [cell.set(value)] *)
Definition Cell_set (c : nat) (value : Value) : M unit :=
  modify (fun st => with_cells (<[c := value]> (cells st)) st).

(* ===================================================================== *)
(** ** Environment *)
(* ===================================================================== *)

(** [l[-1] = f(l[-1])] for a non-empty list. *)
Fixpoint alter_last {A} (f : A -> A) (l : list A) : list A :=
  match l with
  | [] => []
  | [x] => [f x]
  | x :: rest => x :: alter_last f rest
  end.

(** [l[0] = f(l[0])] for a non-empty list. *)
Definition alter_first {A} (f : A -> A) (l : list A) : list A :=
  match l with
  | [] => []
  | x :: rest => f x :: rest
  end.

Module Environment.

(** The list [self.env] of the environment object: the stack that the
    interpreter currently runs on. *)
Definition self_env : M env_stack :=
  st <- gets (fun st => st) ;;
  or_raise (envs st !! env st) "dangling environment".

Definition set_self_env (e : env_stack) : M unit :=
  modify (fun st => with_envs (<[env st := e]> (envs st)) st).

(** [self.env[-1]] *)
Definition top_frame : M frame :=
  e <- self_env ;;
  or_raise (last e) "IndexError".

Definition enter_block : M unit :=
  e <- self_env ;;
  _ <- or_raise (last e) "IndexError" ;;
  set_self_env (alter_last (fun fr => fr ++ [[]]) e).

Definition exit_block : M unit :=
  e <- self_env ;;
  fr <- or_raise (last e) "IndexError" ;;
  _ <- or_raise (last fr) "IndexError" ;;
  set_self_env (alter_last (fun fr => removelast fr) e).

Definition enter_func : M unit :=
  e <- self_env ;;
  set_self_env (e ++ [[[]]]).

Definition exit_func : M unit :=
  e <- self_env ;;
  _ <- or_raise (last e) "IndexError" ;;
  set_self_env (removelast e).

(** [varname in self.env[-1][-1]] *)
Definition exists_in_current_block (varname : string) : M bool :=
  fr <- top_frame ;;
  b <- or_raise (last fr) "IndexError" ;;
  ret (Dict.mem varname b).

(** [varname in self.env[-1][0]] *)
Definition exists_in_function_scope (varname : string) : M bool :=
  fr <- top_frame ;;
  b <- or_raise (head fr) "IndexError" ;;
  ret (Dict.mem varname b).

Definition fdef_function (varname : string) (initial_value : Value) : M bool :=
  found <- exists_in_function_scope varname ;;
  if found then ret false
  else
    c <- Cell_new initial_value ;;
    e <- self_env ;;
    set_self_env (alter_last (alter_first (Dict.set varname c)) e) ;;
    ret true.

Definition fdef_function_cell (varname : string) (cell : nat) : M bool :=
  found <- exists_in_function_scope varname ;;
  if found then ret false
  else
    e <- self_env ;;
    set_self_env (alter_last (alter_first (Dict.set varname cell)) e) ;;
    ret true.

Definition fdef_block (varname : string) (initial_value : Value) : M bool :=
  found <- exists_in_current_block varname ;;
  if found then ret false
  else
    c <- Cell_new initial_value ;;
    e <- self_env ;;
    set_self_env (alter_last (alter_last (Dict.set varname c)) e) ;;
    ret true.

(** [for block in reversed(frame): if varname in block: return block[varname]],
    on the blocks already reversed. *)
Fixpoint scan_blocks (varname : string) (blocks : list block) : option nat :=
  match blocks with
  | [] => None
  | b :: rest =>
      match Dict.get varname b with
      | Some c => Some c
      | None => scan_blocks varname rest
      end
  end.

(** [for frame in reversed(self.env): ...], on the frames already reversed. *)
Fixpoint scan_frames (varname : string) (frames : list frame) : option nat :=
  match frames with
  | [] => None
  | fr :: rest =>
      match scan_blocks varname (rev fr) with
      | Some c => Some c
      | None => scan_frames varname rest
      end
  end.

(** The search of [get_current_cell], [exists] and [set] on a given stack. *)
Definition lookup (e : env_stack) (varname : string) : option nat :=
  scan_frames varname (rev e).

(** The search of [get] on a given stack: the blocks of [self.env[-1]] only. *)
Definition lookup_top (e : env_stack) (varname : string) : option (option nat) :=
  match last e with
  | Some top_env => Some (scan_blocks varname (rev top_env))
  | None => None
  end.

Definition get_current_cell (varname : string) : M (option nat) :=
  e <- self_env ;;
  ret (lookup e varname).

Definition exists_ (varname : string) : M bool :=
  e <- self_env ;;
  ret (match lookup e varname with Some _ => true | None => false end).

Definition get (varname : string) : M (option Value) :=
  e <- self_env ;;
  r <- or_raise (lookup_top e varname) "IndexError" ;;
  match r with
  | Some c => x <- Cell_get c ;; ret (Some x)
  | None => ret None
  end.

Definition set (varname : string) (value : Value) : M bool :=
  e <- self_env ;;
  match lookup e varname with
  | Some c => Cell_set c value ;; ret true
  | None => ret false
  end.

End Environment.

(* ===================================================================== *)
(** ** Interpreter: names, types, interfaces *)
(* ===================================================================== *)

Definition single (c : ascii) : string := String c EmptyString.

(** [new_object] *)
Definition new_object : M Value :=
  obj_id <- gets next_obj_id ;;
  modify (fun st => with_next_obj_id (next_obj_id st + 1) st) ;;
  modify (fun st => with_heap (<[obj_id := []]> (heap st)) st) ;;
  ret (mkValue OBJECT (PInt obj_id)).

(** [interface_from_suffix] *)
Definition interface_from_suffix (suffix : ascii) : option string :=
  if Py.isupper suffix then Some (single suffix) else None.

(** [interface_from_name]: [name[-1]] raises on the empty string. *)
Definition interface_from_name (name : string) : M (option string) :=
  suffix <- or_raise (Py.last_char name) "IndexError" ;;
  ret (interface_from_suffix suffix).

(** [is_nil_object], [is_nil_value] *)
Definition is_nil_object (val : Value) : bool :=
  (bool_decide (val_t val = OBJECT) && is_none (val_v val))%bool.

Definition is_nil_value (val : Value) : bool :=
  (type_in (val_t val) [OBJECT; FUNCTION] && is_none (val_v val))%bool.

(** [type_from_name] *)
Definition type_from_name (name : string) : M Type_ :=
  suffix <- or_raise (Py.last_char name) "IndexError" ;;
  if Ascii.eqb suffix "i" then ret INT
  else if Ascii.eqb suffix "s" then ret STRING
  else if Ascii.eqb suffix "b" then ret BOOL
  else if Ascii.eqb suffix "o" then ret OBJECT
  else if Ascii.eqb suffix "f" then ret FUNCTION
  else if Py.isupper suffix then ret OBJECT
  else if Ascii.eqb suffix "v" then error TYPE_ERROR
  else error TYPE_ERROR.

(** [type_from_suffix] *)
Definition type_from_suffix (suffix : ascii) (is_func : bool) : M Type_ :=
  if Ascii.eqb suffix "i" then ret INT
  else if Ascii.eqb suffix "s" then ret STRING
  else if Ascii.eqb suffix "b" then ret BOOL
  else if Ascii.eqb suffix "o" then ret OBJECT
  else if Ascii.eqb suffix "f" then ret FUNCTION
  else if (is_func && Ascii.eqb suffix "v")%bool then ret VOID
  else if Py.isupper suffix then ret OBJECT
  else error TYPE_ERROR.

(** [default_value_for_type] *)
Definition default_value_for_type (ty : Type_) : M Value :=
  match ty with
  | INT => ret (mkValue INT (PInt 0))
  | STRING => ret (mkValue STRING (PStr ""))
  | BOOL => ret (mkValue BOOL (PBool false))
  | OBJECT => ret (mkValue OBJECT PNone)
  | FUNCTION => ret (mkValue FUNCTION PNone)
  | VOID => ret (mkValue VOID PNone)
  | NIL => error TYPE_ERROR
  end.

(** The declared type and interface that the table construction (and the
    evaluation of a function literal) records on a parameter node, from
    the last character of its name.  Where the source later reads
    [formal.dict["declared_type"]] and [formal.dict["interface"]], the
    model recomputes them: the node was annotated by this same computation
    when the function value was made. *)
Definition declared_of_suffix_name (name : string) (is_func : bool)
  : M (Type_ * option string) :=
  suffix <- or_raise (Py.last_char name) "IndexError" ;;
  if Py.isupper suffix then ret (OBJECT, Some (single suffix))
  else
    ty <- type_from_suffix suffix is_func ;;
    ret (ty, None).

Definition param_declared (formal : arg_node) : M (Type_ * option string) :=
  declared_of_suffix_name (arg_name formal) false.

(** [self.heap.get(v)] for a payload [v]. *)
Definition heap_get (p : payload) : M (option (list (string * nat))) :=
  h <- gets heap ;;
  ret (match p with
       | PInt id => h !! id
       | PBool b => h !! (if b then 1 else 0)
       | _ => None
       end).

(** The inner loop of [object_satisfies_interface] over
    [zip(formal_params, required_params)]. *)
Fixpoint params_conform (formals : list arg_node) (required : list param_spec) : M bool :=
  match formals, required with
  | formal :: formals', req :: required' =>
      d <- param_declared formal ;;
      let actual_type := fst d in
      let actual_interface := snd d in
      let actual_ref := arg_ref formal in
      let required_type := ps_type req in
      let required_interface := ps_interface req in
      let required_ref := ps_ref req in
      if negb (Bool.eqb actual_ref required_ref) then ret false
      else if (bool_decide (required_type = OBJECT) && bool_decide (required_interface = None))%bool then
        if bool_decide (actual_type <> OBJECT) then ret false
        else params_conform formals' required'
      else if (bool_decide (required_type = OBJECT) && bool_decide (required_interface <> None))%bool then
        if (bool_decide (actual_type <> OBJECT)
            || bool_decide (actual_interface <> required_interface))%bool then ret false
        else params_conform formals' required'
      else
        if (bool_decide (actual_type <> required_type)
            || bool_decide (actual_interface <> required_interface))%bool then ret false
        else params_conform formals' required'
  | _, _ => ret true
  end.

(** [object_satisfies_interface].  The recursion follows interface-typed
    fields through the heap, which may be cyclic: it is bounded by [fuel]. *)
Fixpoint object_satisfies_interface (fuel : nat) (interface_name : option string)
  (val : Value) {struct fuel} : M bool :=
  match fuel with
  | O => out_of_fuel
  | S fuel' =>
      match interface_name with
      | None => ret true
      | Some iname =>
          if bool_decide (val_t val <> OBJECT) then ret false
          else if is_none (val_v val) then ret true
          else
            itab <- gets interfaces ;;
            match Dict.get iname itab with
            | None => error NAME_ERROR
            | Some fields =>
                ofs <- heap_get (val_v val) ;;
                match ofs with
                | None => error FAULT_ERROR
                | Some object_fields =>
                    (fix check_fields (fs : list (string * field_spec)) : M bool :=
                       match fs with
                       | [] => ret true
                       | (fname, spec) :: rest =>
                           match Dict.get fname object_fields with
                           | None => ret false
                           | Some c =>
                               field_val <- Cell_get c ;;
                               match spec with
                               | VarField ty finterface =>
                                   if bool_decide (val_t field_val <> ty) then ret false
                                   else
                                     match finterface with
                                     | None => check_fields rest
                                     | Some _ =>
                                         if bool_decide (val_t field_val <> OBJECT) then ret false
                                         else
                                           ok <- object_satisfies_interface fuel' finterface field_val ;;
                                           if negb ok then ret false else check_fields rest
                                     end
                               | FuncField required_params =>
                                   if (bool_decide (val_t field_val <> FUNCTION)
                                       || is_none (val_v field_val))%bool then ret false
                                   else
                                     match val_v field_val with
                                     | PFun fv =>
                                         let formal_params := fn_args (func_ast fv) in
                                         if negb (Nat.eqb (length formal_params) (length required_params))
                                         then ret false
                                         else
                                           ok <- params_conform formal_params required_params ;;
                                           if negb ok then ret false else check_fields rest
                                     | _ => raise "AttributeError"
                                     end
                               end
                           end
                       end) fields
                end
            end
      end
  end.

(* ===================================================================== *)
(** ** Interpreter: qualified names *)
(* ===================================================================== *)

(** The [for field in intermediates] loop of [get_qname_cell]. *)
Fixpoint get_qname_cell_loop (intermediates : list string) (current_val : Value)
  : M Value :=
  match intermediates with
  | [] => ret current_val
  | field :: rest =>
      error_if (bool_decide (val_t current_val <> OBJECT)) TYPE_ERROR ;;
      error_if (is_none (val_v current_val)) FAULT_ERROR ;;
      ofs <- heap_get (val_v current_val) ;;
      match ofs with
      | None => error FAULT_ERROR
      | Some obj_fields =>
          match Dict.get field obj_fields with
          | None => error NAME_ERROR
          | Some field_cell =>
              current_val' <- Cell_get field_cell ;;
              ty <- type_from_name field ;;
              error_if (bool_decide (ty <> OBJECT)) TYPE_ERROR ;;
              get_qname_cell_loop rest current_val'
          end
      end
  end.

(** The tail of [get_qname_cell] after the loop. *)
Definition get_qname_cell_final (final_field : string) (current_val : Value) : M nat :=
  error_if (bool_decide (val_t current_val <> OBJECT)) TYPE_ERROR ;;
  error_if (is_none (val_v current_val)) FAULT_ERROR ;;
  ofs <- heap_get (val_v current_val) ;;
  match ofs with
  | None => error FAULT_ERROR
  | Some obj_fields =>
      match Dict.get final_field obj_fields with
      | None => error NAME_ERROR
      | Some c => ret c
      end
  end.

(** [get_qname_cell] *)
Definition get_qname_cell (qname : string) : M nat :=
  match Py.split_dot qname with
  | [] => raise "IndexError"
  | base_name :: fields =>
      found <- Environment.exists_ base_name ;;
      error_if (negb found) NAME_ERROR ;;
      match fields with
      | [] =>
          cell <- Environment.get_current_cell base_name ;;
          match cell with
          | None => error NAME_ERROR
          | Some c => ret c
          end
      | _ :: _ =>
          ty <- type_from_name base_name ;;
          error_if (bool_decide (ty <> OBJECT)) TYPE_ERROR ;;
          base_cell <- Environment.get_current_cell base_name ;;
          match base_cell with
          | None => error NAME_ERROR
          | Some bc =>
              current_val <- Cell_get bc ;;
              let intermediates := removelast fields in
              let final_field := List.last fields "" in
              current_val' <- get_qname_cell_loop intermediates current_val ;;
              get_qname_cell_final final_field current_val'
          end
      end
  end.

(** [get_qname_value] *)
Definition get_qname_value (qname : string) : M Value :=
  cell <- get_qname_cell qname ;;
  Cell_get cell.

(** The [for field in intermediates] loop of [get_qname_cell_and_owner]:
    the type of the field name only decides whether the local
    [owner_object_value] is updated. *)
Fixpoint get_qname_cell_and_owner_loop (intermediates : list string)
  (current_val : Value) (owner_object_value : option Value) : M (Value * option Value) :=
  match intermediates with
  | [] => ret (current_val, owner_object_value)
  | field :: rest =>
      error_if (bool_decide (val_t current_val <> OBJECT)) TYPE_ERROR ;;
      error_if (is_none (val_v current_val)) FAULT_ERROR ;;
      ofs <- heap_get (val_v current_val) ;;
      match ofs with
      | None => error FAULT_ERROR
      | Some obj_fields =>
          match Dict.get field obj_fields with
          | None => error NAME_ERROR
          | Some field_cell =>
              current_val' <- Cell_get field_cell ;;
              ty <- type_from_name field ;;
              if bool_decide (ty = OBJECT)
              then get_qname_cell_and_owner_loop rest current_val' (Some current_val')
              else get_qname_cell_and_owner_loop rest current_val' owner_object_value
          end
      end
  end.

(** [get_qname_cell_and_owner]: the cell and the owner ([None] for a plain
    identifier, the terminal object otherwise). *)
Definition get_qname_cell_and_owner (qname : string) : M (nat * option Value) :=
  match Py.split_dot qname with
  | [] => raise "IndexError"
  | base_name :: fields =>
      found <- Environment.exists_ base_name ;;
      error_if (negb found) NAME_ERROR ;;
      match fields with
      | [] =>
          cell <- Environment.get_current_cell base_name ;;
          match cell with
          | None => error NAME_ERROR
          | Some c => ret (c, None)
          end
      | _ :: _ =>
          ty <- type_from_name base_name ;;
          error_if (bool_decide (ty <> OBJECT)) TYPE_ERROR ;;
          base_cell <- Environment.get_current_cell base_name ;;
          match base_cell with
          | None => error NAME_ERROR
          | Some bc =>
              current_val <- Cell_get bc ;;
              let intermediates := removelast fields in
              let final_field := List.last fields "" in
              r <- get_qname_cell_and_owner_loop intermediates current_val None ;;
              let current_val' := fst r in
              c <- get_qname_cell_final final_field current_val' ;;
              ret (c, Some current_val')
          end
      end
  end.

(** [interface_for_qname] *)
Definition interface_for_qname (qname : string) : M (option string) :=
  match Py.split_dot qname with
  | [] => raise "IndexError"
  | [part] => interface_from_name part
  | parts => interface_from_name (List.last parts "")
  end.

(** The tag check shared by the two branches of [set_qname_value]: a nil
    value takes the tag of the target, any other value must carry it. *)
Definition check_assign_type (left_type : Type_) (value : Value) : M Value :=
  if (is_none (val_v value) && type_in (val_t value) [OBJECT; FUNCTION])%bool then
    if type_in left_type [OBJECT; FUNCTION] then ret (mkValue left_type PNone)
    else error TYPE_ERROR
  else
    if bool_decide (left_type = OBJECT) then
      error_if (bool_decide (val_t value <> OBJECT)) TYPE_ERROR ;; ret value
    else if bool_decide (left_type = FUNCTION) then
      error_if (bool_decide (val_t value <> FUNCTION)) TYPE_ERROR ;; ret value
    else
      error_if (bool_decide (left_type <> val_t value)) TYPE_ERROR ;; ret value.

(** [if expected_interface is not None: if not satisfies: error] *)
Definition check_interface (fuel : nat) (expected_interface : option string)
  (value : Value) : M unit :=
  match expected_interface with
  | None => ret tt
  | Some _ =>
      ok <- object_satisfies_interface fuel expected_interface value ;;
      error_if (negb ok) TYPE_ERROR
  end.

(** [set_qname_value] *)
Definition set_qname_value (fuel : nat) (qname : string) (value : Value) : M unit :=
  match Py.split_dot qname with
  | [] => raise "IndexError"
  | base_name :: fields =>
      found <- Environment.exists_ base_name ;;
      error_if (negb found) NAME_ERROR ;;
      match fields with
      | [] =>
          left_type <- type_from_name base_name ;;
          expected_interface <- interface_from_name base_name ;;
          value' <- check_assign_type left_type value ;;
          check_interface fuel expected_interface value' ;;
          cell <- Environment.get_current_cell base_name ;;
          match cell with
          | None => error NAME_ERROR
          | Some c => Cell_set c value'
          end
      | _ :: _ =>
          ty <- type_from_name base_name ;;
          error_if (bool_decide (ty <> OBJECT)) TYPE_ERROR ;;
          base_cell <- Environment.get_current_cell base_name ;;
          match base_cell with
          | None => error NAME_ERROR
          | Some bc =>
              current_val <- Cell_get bc ;;
              let intermediates := removelast fields in
              let final_field := List.last fields "" in
              (* the loop is the one of get_qname_cell, line for line *)
              current_val' <- get_qname_cell_loop intermediates current_val ;;
              error_if (bool_decide (val_t current_val' <> OBJECT)) TYPE_ERROR ;;
              error_if (is_none (val_v current_val')) FAULT_ERROR ;;
              ofs <- heap_get (val_v current_val') ;;
              match ofs with
              | None => error FAULT_ERROR
              | Some obj_fields =>
                  final_type <- type_from_name final_field ;;
                  expected_interface <- interface_from_name final_field ;;
                  value' <- check_assign_type final_type value ;;
                  check_interface fuel expected_interface value' ;;
                  match Dict.get final_field obj_fields with
                  | Some c => Cell_set c value'
                  | None =>
                      c <- Cell_new value' ;;
                      match val_v current_val' with
                      | PInt id =>
                          modify (fun st => with_heap
                            (<[id := Dict.set final_field c obj_fields]> (heap st)) st)
                      | PBool b =>
                          modify (fun st => with_heap
                            (<[(if b then 1 else 0) := Dict.set final_field c obj_fields]> (heap st)) st)
                      | _ => raise "dangling object"
                      end
                  end
              end
          end
      end
  end.

(* ===================================================================== *)
(** ** Interpreter: operators and conversions *)
(* ===================================================================== *)

(** [a == b] of the host on payloads. *)
Definition py_eq (a b : payload) : bool :=
  match a, b with
  | PNone, PNone => true
  | PInt x, PInt y => Z.eqb x y
  | PInt x, PBool y => Z.eqb x (if y then 1 else 0)
  | PBool x, PInt y => Z.eqb (if x then 1 else 0) y
  | PBool x, PBool y => Bool.eqb x y
  | PStr x, PStr y => String.eqb x y
  | PFun f, PFun g => Nat.eqb (fv_id f) (fv_id g)
  | _, _ => false
  end.

Definition as_int (p : payload) : M Z :=
  match p with PInt z => ret z | _ => raise "TypeError" end.
Definition as_str (p : payload) : M string :=
  match p with PStr s => ret s | _ => raise "TypeError" end.
Definition as_bool (p : payload) : M bool :=
  match p with PBool b => ret b | _ => raise "TypeError" end.
Definition as_fun (p : payload) : M FunctionValue :=
  match p with PFun fv => ret fv | _ => raise "AttributeError" end.

(** [a // b] of the host: the floor quotient, ZeroDivisionError on [b = 0]. *)
Definition py_floordiv (a b : Z) : M Z :=
  if Z.eqb b 0 then raise "ZeroDivisionError" else ret (a / b).

Definition eq_type_list (l1 l2 : list Type_) : bool := bool_decide (l1 = l2).

(** Both payloads of an Int-tagged pair of operands. *)
Definition int2 (p q : payload) (k : Z -> Z -> M Value) : M Value :=
  a <- as_int p ;; b <- as_int q ;; k a b.

(** [__eval_binary_op] *)
Definition eval_binary_op (kind : bop) (vl vr : Value) : M Value :=
  let tl := val_t vl in
  let tr := val_t vr in
  let vl_val := val_v vl in
  let vr_val := val_v vr in
  let finish (eq : bool) : M Value :=
    ret (mkValue BOOL (PBool (if bool_decide (kind = OpNe) then negb eq else eq))) in
  if (bool_decide (kind = OpEq) || bool_decide (kind = OpNe))%bool then
    if (is_nil_value vl && is_nil_value vr)%bool then finish true
    else if (is_nil_value vl || is_nil_value vr)%bool then finish false
    else if (bool_decide (tl = OBJECT) && bool_decide (tr = OBJECT))%bool then
      finish (py_eq vl_val vr_val)
    else if (bool_decide (tl = FUNCTION) && bool_decide (tr = FUNCTION))%bool then
      fvl <- as_fun vl_val ;;
      fvr <- as_fun vr_val ;;
      let is_lambda_l := fn_is_func_elem (func_ast fvl) in
      let is_lambda_r := fn_is_func_elem (func_ast fvr) in
      if (is_lambda_l && is_lambda_r)%bool then
        finish (Nat.eqb (fv_id fvl) (fv_id fvr))
      else if (negb is_lambda_l && negb is_lambda_r)%bool then
        finish (Nat.eqb (fn_node_id (func_ast fvl)) (fn_node_id (func_ast fvr))
                && eq_type_list (param_types fvl) (param_types fvr))%bool
      else finish false
    else if bool_decide (tl = tr) then finish (py_eq vl_val vr_val)
    else finish false
  else
    if (bool_decide (tl = STRING) && bool_decide (tr = STRING)
        && bool_decide (kind = OpAdd))%bool then
      a <- as_str vl_val ;; b <- as_str vr_val ;;
      ret (mkValue STRING (PStr (a ++ b)))
    else if (bool_decide (tl = INT) && bool_decide (tr = INT))%bool then
      match kind with
      | OpAdd => int2 vl_val vr_val (fun a b => ret (mkValue INT (PInt (a + b))))
      | OpSub => int2 vl_val vr_val (fun a b => ret (mkValue INT (PInt (a - b))))
      | OpMul => int2 vl_val vr_val (fun a b => ret (mkValue INT (PInt (a * b))))
      | OpDiv => int2 vl_val vr_val (fun a b =>
                 q <- py_floordiv a b ;; ret (mkValue INT (PInt q)))
      | OpLt => int2 vl_val vr_val (fun a b => ret (mkValue BOOL (PBool (Z.ltb a b))))
      | OpLe => int2 vl_val vr_val (fun a b => ret (mkValue BOOL (PBool (Z.leb a b))))
      | OpGt => int2 vl_val vr_val (fun a b => ret (mkValue BOOL (PBool (Z.gtb a b))))
      | OpGe => int2 vl_val vr_val (fun a b => ret (mkValue BOOL (PBool (Z.geb a b))))
      | _ => error TYPE_ERROR
      end
    else if (bool_decide (tl = BOOL) && bool_decide (tr = BOOL))%bool then
      match kind with
      | OpAnd => a <- as_bool vl_val ;; b <- as_bool vr_val ;;
               ret (mkValue BOOL (PBool (a && b)))
      | OpOr => a <- as_bool vl_val ;; b <- as_bool vr_val ;;
              ret (mkValue BOOL (PBool (a || b)))
      | _ => error TYPE_ERROR
      end
    else error TYPE_ERROR.

(** [convert_value] *)
Definition convert_value (to_type : string) (val : Value) : M Value :=
  let ty := val_t val in
  if String.eqb to_type "int" then
    match ty with
    | INT => ret val
    | STRING =>
        match val_v val with
        | PStr s =>
            match Py.int_of_str s with
            | Some z => ret (mkValue INT (PInt z))
            | None => error TYPE_ERROR
            end
        | _ => error TYPE_ERROR
        end
    | BOOL => b <- as_bool (val_v val) ;; ret (mkValue INT (PInt (if b then 1 else 0)))
    | _ => error TYPE_ERROR
    end
  else if String.eqb to_type "str" then
    match ty with
    | STRING => ret val
    | INT => z <- as_int (val_v val) ;; ret (mkValue STRING (PStr (Py.str_int z)))
    | BOOL => b <- as_bool (val_v val) ;; ret (mkValue STRING (PStr (Py.str_bool_lower b)))
    | _ => error TYPE_ERROR
    end
  else if String.eqb to_type "bool" then
    match ty with
    | BOOL => ret val
    | INT => z <- as_int (val_v val) ;; ret (mkValue BOOL (PBool (negb (Z.eqb z 0))))
    | STRING => s <- as_str (val_v val) ;; ret (mkValue BOOL (PBool (negb (String.eqb s ""))))
    | _ => error TYPE_ERROR
    end
  else error TYPE_ERROR.

(** [str(v)] for a payload.  The host prints a function object with its
    address; the identity number stands for it. *)
Definition py_str (p : payload) : string :=
  match p with
  | PNone => "None"
  | PInt z => Py.str_int z
  | PStr s => s
  | PBool b => Py.str_bool b
  | PFun fv => "<interpreterv4.FunctionValue object at " ++ pretty (fv_id fv) ++ ">"
  end.

(* ===================================================================== *)
(** ** Interpreter: closures *)
(* ===================================================================== *)

(** [capture_env_for_lambda], innermost loop: one fresh cell per binding. *)
Fixpoint capture_block (b : block) : M block :=
  match b with
  | [] => ret []
  | (name, cell) :: rest =>
      val <- Cell_get cell ;;
      c <- (if type_in (val_t val) [INT; STRING; BOOL]
            then Cell_new (mkValue (val_t val) (val_v val))
            else Cell_new val) ;;
      rest' <- capture_block rest ;;
      ret ((name, c) :: rest')
  end.

Fixpoint capture_frame (fr : frame) : M frame :=
  match fr with
  | [] => ret []
  | b :: rest =>
      new_block <- capture_block b ;;
      rest' <- capture_frame rest ;;
      ret (new_block :: rest')
  end.

Fixpoint capture_stack (e : env_stack) : M env_stack :=
  match e with
  | [] => ret []
  | fr :: rest =>
      new_frame <- capture_frame fr ;;
      rest' <- capture_stack rest ;;
      ret (new_frame :: rest')
  end.

(** [capture_env_for_lambda]: the result is a new list object. *)
Definition capture_env_for_lambda : M nat :=
  e <- Environment.self_env ;;
  captured_stack <- capture_stack e ;;
  id <- gets (fun st => length (envs st)) ;;
  modify (fun st => with_envs (envs st ++ [captured_stack]) st) ;;
  ret id.

(** [FunctionValue(func_ast, param_types, closure_env)]: a new object. *)
Definition FunctionValue_new (f : func_node) (ptypes : list Type_)
  (cenv : option nat) : M FunctionValue :=
  id <- gets next_fv_id ;;
  modify (fun st => with_next_fv_id (S (next_fv_id st)) st) ;;
  ret (mkFunctionValue id f ptypes cenv).

(** [make_named_function_value] *)
Definition make_named_function_value (name : string) : M Value :=
  fs <- gets funcs ;;
  let potential := filter (fun kf => String.eqb (fst (fst kf)) name = true) fs in
  match potential with
  | [] => error NAME_ERROR
  | [(key, func_def)] =>
      fv <- FunctionValue_new func_def (snd key) None ;;
      ret (mkValue FUNCTION (PFun fv))
  | _ => error NAME_ERROR
  end.

(* ===================================================================== *)
(** ** Interpreter: tables *)
(* ===================================================================== *)

(** Interface declarations of the program AST. *)
Inductive field_node : Set :=
| FieldVar (name : string)
| FieldFunc (name : string) (params : list arg_node)
| FieldOther (name : string).

Definition field_node_name (f : field_node) : string :=
  match f with FieldVar n | FieldFunc n _ | FieldOther n => n end.

Record interface_node : Set := InterfaceNode {
  in_name : string;
  in_fields : list field_node
}.

Record program : Set := Program {
  prog_interfaces : list interface_node;
  prog_functions : list func_node
}.

(** The return type and interface recorded on a function node: [main] is
    Void, any other name gives them by its last character. *)
Definition return_declared (f : func_node) : M (Type_ * option string) :=
  if String.eqb (fn_name f) "main" then ret (VOID, None)
  else declared_of_suffix_name (fn_name f) true.

Fixpoint declared_param_types (args : list arg_node) : M (list Type_) :=
  match args with
  | [] => ret []
  | arg :: rest =>
      d <- param_declared arg ;;
      rest' <- declared_param_types rest ;;
      ret (fst d :: rest')
  end.

Definition key_eqb (k1 k2 : string * list Type_) : bool :=
  (String.eqb (fst k1) (fst k2) && eq_type_list (snd k1) (snd k2))%bool.

Fixpoint funcs_get (key : string * list Type_)
  (fs : list ((string * list Type_) * func_node)) : option func_node :=
  match fs with
  | [] => None
  | (k, f) :: rest => if key_eqb key k then Some f else funcs_get key rest
  end.

(** [__create_function_table], the loop body for one function. *)
Definition add_function (func : func_node) : M unit :=
  let name := fn_name func in
  let args := fn_args func in
  (if String.eqb name "main"
   then error_if (negb (Nat.eqb (length args) 0)) NAME_ERROR
   else _ <- declared_of_suffix_name name true ;; ret tt) ;;
  ptypes <- declared_param_types args ;;
  let key := (name, ptypes) in
  fs <- gets funcs ;;
  match funcs_get key fs with
  | Some _ => error NAME_ERROR
  | None => modify (fun st => with_funcs (funcs st ++ [(key, func)]) st)
  end.

Fixpoint add_functions (fs : list func_node) : M unit :=
  match fs with
  | [] => ret tt
  | f :: rest => add_function f ;; add_functions rest
  end.

Definition create_function_table (ast : program) : M unit :=
  modify (with_funcs []) ;;
  add_functions (prog_functions ast).

(** [__get_function] *)
Definition get_function (name : string) (ptypes : list Type_) : M func_node :=
  fs <- gets funcs ;;
  match funcs_get (name, ptypes) fs with
  | None => error NAME_ERROR
  | Some f => ret f
  end.

(** The [for arg in field.get("params")] loop of [create_interface_table]. *)
Fixpoint interface_params (params : list arg_node) : M (list param_spec) :=
  match params with
  | [] => ret []
  | arg :: rest =>
      let pname := arg_name arg in
      ptype <- type_from_name pname ;;
      pinterface <- interface_from_name pname ;;
      itab <- gets interfaces ;;
      error_if (match pinterface with
                | Some i => negb (Dict.mem i itab)
                | None => false
                end) NAME_ERROR ;;
      rest' <- interface_params rest ;;
      ret (ParamSpec ptype pinterface (arg_ref arg) :: rest')
  end.

(** The [for field in interface_node.get("fields")] loop. *)
Fixpoint interface_fields (fields : list field_node)
  (fields_info : list (string * field_spec)) : M (list (string * field_spec)) :=
  match fields with
  | [] => ret fields_info
  | field :: rest =>
      let fname := field_node_name field in
      error_if (Dict.mem fname fields_info) NAME_ERROR ;;
      match field with
      | FieldVar _ =>
          ftype <- type_from_name fname ;;
          finterface <- interface_from_name fname ;;
          itab <- gets interfaces ;;
          error_if (match finterface with
                    | Some i => negb (Dict.mem i itab)
                    | None => false
                    end) NAME_ERROR ;;
          interface_fields rest (Dict.set fname (VarField ftype finterface) fields_info)
      | FieldFunc _ params =>
          params_info <- interface_params params ;;
          interface_fields rest (Dict.set fname (FuncField params_info) fields_info)
      | FieldOther _ => error NAME_ERROR
      end
  end.

Definition is_interface_name (name : string) : bool :=
  match name with
  | String c EmptyString => Py.isupper c
  | _ => false
  end.

Fixpoint add_interfaces (nodes : list interface_node) : M unit :=
  match nodes with
  | [] => ret tt
  | node :: rest =>
      let name := in_name node in
      error_if (negb (is_interface_name name)) NAME_ERROR ;;
      itab <- gets interfaces ;;
      error_if (Dict.mem name itab) NAME_ERROR ;;
      fields_info <- interface_fields (in_fields node) [] ;;
      modify (fun st => with_interfaces (Dict.set name fields_info (interfaces st)) st) ;;
      add_interfaces rest
  end.

(** [create_interface_table] *)
Definition create_interface_table (ast : program) : M unit :=
  modify (with_interfaces []) ;;
  add_interfaces (prog_interfaces ast).

(* ===================================================================== *)
(** ** Interpreter: calls, statements, expressions *)
(* ===================================================================== *)

(** Modelled from the spec: the host I/O façade ([output], [get_input]) is
    not part of the repository.  [output] emits one line; [get_input]
    reads one line, and the end of the input is an exception of the host. *)
Definition host_output (line : string) : M unit :=
  modify (fun st => with_output (output st ++ [line]) st).

(** Modelled from the spec: [get_input] of the host façade. *)
Definition host_get_input : M string :=
  inp <- gets input ;;
  match inp with
  | [] => raise "EOFError"
  | line :: rest => modify (with_input rest) ;; ret line
  end.

(** An entry of the local list [bindings] of [invoke_function]. *)
Inductive binding : Set :=
| RefBinding (pname : string) (cell : nat)
| ValBinding (pname : string) (val : Value).

Definition is_builtin (fcall_name : string) : bool :=
  (String.eqb fcall_name "inputi" || String.eqb fcall_name "inputs"
   || String.eqb fcall_name "print")%bool.

(** The inner [for ptype, argval in zip(ptypes, actual_args)] loop of the
    overload resolution, with its [match] flag as the result. *)
Fixpoint overload_match (ptypes : list Type_) (actual_args : list Value) : bool :=
  match ptypes, actual_args with
  | ptype :: ptypes', argval :: actual_args' =>
      let is_nil_like :=
        (is_none (val_v argval) && type_in (val_t argval) [OBJECT; FUNCTION])%bool in
      if is_nil_like then
        if negb (type_in ptype [OBJECT; FUNCTION]) then false
        else overload_match ptypes' actual_args'
      else
        if bool_decide (ptype <> val_t argval) then false
        else overload_match ptypes' actual_args'
  | _, _ => true
  end.

(** The outer [for (fname, ptypes), func_def in self.funcs.items()] loop:
    the list [potential]. *)
Fixpoint overload_potential (fs : list ((string * list Type_) * func_node))
  (fcall_name : string) (actual_args : list Value) : list func_node :=
  match fs with
  | [] => []
  | ((fname, ptypes), func_def) :: rest =>
      if negb (String.eqb fname fcall_name) then
        overload_potential rest fcall_name actual_args
      else if negb (Nat.eqb (length ptypes) (length actual_args)) then
        overload_potential rest fcall_name actual_args
      else if overload_match ptypes actual_args then
        func_def :: overload_potential rest fcall_name actual_args
      else overload_potential rest fcall_name actual_args
  end.

(** The check [for ptype, argval in zip(param_types, actual_args)] of a
    call through a function value. *)
Fixpoint check_arg_types (ptypes : list Type_) (actual_args : list Value) : M unit :=
  match ptypes, actual_args with
  | ptype :: ptypes', argval :: actual_args' =>
      error_if (bool_decide (val_t argval <> ptype)) TYPE_ERROR ;;
      check_arg_types ptypes' actual_args'
  | _, _ => ret tt
  end.

Fixpoint has_void (actual_args : list Value) : bool :=
  match actual_args with
  | [] => false
  | arg :: rest => if bool_decide (val_t arg = VOID) then true else has_void rest
  end.

Section Evaluator.

(** Fuel for the interface checks, and the three recursive entry points. *)
Variable fuel : nat.
Variable eval_expr : expr -> M Value.
Variable run_statements : list stmt -> M (Value * bool).
Variable run_while_loop : expr -> list stmt -> Value -> M (Value * bool).

(** [[self.__eval_expr(a) for a in args]] *)
Fixpoint eval_args (args : list expr) : M (list Value) :=
  match args with
  | [] => ret []
  | a :: rest =>
      x <- eval_expr a ;;
      rest' <- eval_args rest ;;
      ret (x :: rest')
  end.

(** The loop of [__handle_print], [out] being the text so far. *)
Fixpoint handle_print_loop (args : list expr) (out : string) : M string :=
  match args with
  | [] => ret out
  | arg :: rest =>
      c_out <- eval_expr arg ;;
      if bool_decide (val_t c_out = BOOL)
      then handle_print_loop rest (out ++ Py.lower (py_str (val_v c_out)))
      else handle_print_loop rest (out ++ py_str (val_v c_out))
  end.

(** [__handle_print] *)
Definition handle_print (args : list expr) : M Value :=
  out <- handle_print_loop args "" ;;
  host_output out ;;
  ret (mkValue VOID PNone).

(** [__handle_input] *)
Definition handle_input (fcall_name : string) (args : list expr) : M Value :=
  error_if (Nat.ltb 1 (length args)) NAME_ERROR ;;
  (match args with
   | [] => ret tt
   | _ => _ <- handle_print args ;; ret tt
   end) ;;
  res <- host_get_input ;;
  if String.eqb fcall_name "inputi" then
    match Py.int_of_str res with
    | Some z => ret (mkValue INT (PInt z))
    | None => raise "ValueError"
    end
  else ret (mkValue STRING (PStr res)).

(** The body of the first loop of [invoke_function], up to [if is_ref]:
    the value to bind, after the tag and interface checks. *)
Definition argument_bind_value (declared_type : Type_)
  (expected_interface : option string) (argument_value : Value) : M Value :=
  bind_val <-
    (if (is_none (val_v argument_value)
         && type_in (val_t argument_value) [OBJECT; FUNCTION])%bool then
       if type_in declared_type [OBJECT; FUNCTION]
       then ret (mkValue declared_type PNone)
       else error TYPE_ERROR
     else
       error_if (bool_decide (val_t argument_value <> declared_type)) TYPE_ERROR ;;
       ret argument_value) ;;
  check_interface fuel expected_interface bind_val ;;
  ret bind_val.

(** The rest of the loop body: the entry appended to [bindings]. *)
Definition argument_binding (pname : string) (is_ref : bool)
  (expected_interface : option string) (argument_expression : expr)
  (bind_val : Value) : M binding :=
  if is_ref then
    match argument_expression with
    | QualifiedName actual_name =>
        (match expected_interface with
         | None => ret tt
         | Some _ =>
             arg_interface <- interface_for_qname actual_name ;;
             error_if (bool_decide (arg_interface <> None)
                       && bool_decide (arg_interface <> expected_interface))%bool
                      TYPE_ERROR
         end) ;;
        cell <- get_qname_cell actual_name ;;
        ret (RefBinding pname cell)
    | _ => error TYPE_ERROR
    end
  else ret (ValBinding pname bind_val).

(** The first loop of [invoke_function], over
    [zip(formal_params, args_expr_nodes, actual_args_values)]. *)
Fixpoint bind_arguments (formal_params : list arg_node) (args_expr_nodes : list expr)
  (actual_args_values : list Value) : M (list binding) :=
  match formal_params, args_expr_nodes, actual_args_values with
  | formal :: formals', argument_expression :: exprs', argument_value :: values' =>
      let pname := arg_name formal in
      d <- param_declared formal ;;
      let declared_type := fst d in
      let expected_interface := snd d in
      let is_ref := arg_ref formal in
      bind_val <- argument_bind_value declared_type expected_interface argument_value ;;
      b <- argument_binding pname is_ref expected_interface argument_expression bind_val ;;
      rest <- bind_arguments formals' exprs' values' ;;
      ret (b :: rest)
  | _, _, _ => ret []
  end.

(** The second loop of [invoke_function], [for kind, pname, val in bindings]. *)
Fixpoint install_bindings (bindings : list binding) : M unit :=
  match bindings with
  | [] => ret tt
  | ValBinding pname val :: rest =>
      ok <- Environment.fdef_function pname val ;;
      error_if (negb ok) NAME_ERROR ;;
      install_bindings rest
  | RefBinding pname cell :: rest =>
      ok <- Environment.fdef_function_cell pname cell ;;
      error_if (negb ok) NAME_ERROR ;;
      install_bindings rest
  end.

(** [invoke_function].  The [finally] clause only matters on the normal
    path: an error ends the run. *)
Definition invoke_function (func_def : func_node) (args_expr_nodes : list expr)
  (actual_args_values : list Value) (closure_env : option nat)
  (self_object_value : option Value) : M Value :=
  let formal_params := fn_args func_def in
  error_if (negb (Nat.eqb (length formal_params) (length actual_args_values))) TYPE_ERROR ;;
  bindings <- bind_arguments formal_params args_expr_nodes actual_args_values ;;
  previous_return_type <- gets current_return_type ;;
  previous_return_interface <- gets current_return_interface ;;
  saved_env_stack <- gets env ;;
  (match closure_env with
   | Some ce => modify (with_env ce)
   | None => ret tt
   end) ;;
  rd <- return_declared func_def ;;
  modify (with_return (fst rd) (snd rd)) ;;
  Environment.enter_func ;;
  (match self_object_value with
   | Some owner =>
       ok <- Environment.fdef_function "selfo" owner ;;
       error_if (negb ok) NAME_ERROR
   | None => ret tt
   end) ;;
  install_bindings bindings ;;
  r <- run_statements (fn_statements func_def) ;;
  Environment.exit_func ;;
  (match closure_env with
   | Some _ => modify (with_env saved_env_stack)
   | None => ret tt
   end) ;;
  modify (with_return previous_return_type previous_return_interface) ;;
  ret (fst r).

(** [__run_fcall] *)
Definition run_fcall (fcall_name : string) (args : list expr) : M Value :=
  if (String.eqb fcall_name "inputi" || String.eqb fcall_name "inputs")%bool then
    handle_input fcall_name args
  else if String.eqb fcall_name "print" then
    handle_print args
  else
    actual_args <- eval_args args ;;
    error_if (has_void actual_args) TYPE_ERROR ;;
    e <- Environment.self_env ;;
    let has_frame := Nat.ltb 0 (length e) in
    let is_dotted := Py.has_dot fcall_name in
    let is_var :=
      (has_frame && negb is_dotted
       && match Environment.lookup e fcall_name with Some _ => true | None => false end)%bool in
    if (is_dotted || is_var)%bool then
      fo <- (if is_dotted then get_qname_cell_and_owner fcall_name
             else c <- get_qname_cell fcall_name ;; ret (c, None)) ;;
      let func_cell := fst fo in
      let owner_object_value := snd fo in
      func_val <- Cell_get func_cell ;;
      error_if (bool_decide (val_t func_val <> FUNCTION)) TYPE_ERROR ;;
      error_if (is_none (val_v func_val)) FAULT_ERROR ;;
      fv <- as_fun (val_v func_val) ;;
      let func_def := func_ast fv in
      let ptypes := param_types fv in
      error_if (negb (Nat.eqb (length ptypes) (length actual_args))) TYPE_ERROR ;;
      check_arg_types ptypes actual_args ;;
      invoke_function func_def args actual_args (closure_env fv) owner_object_value
    else
      fs <- gets funcs ;;
      match overload_potential fs fcall_name actual_args with
      | [] => error NAME_ERROR
      | [func_def] => invoke_function func_def args actual_args None None
      | _ :: _ :: _ => error NAME_ERROR
      end.

(** [__run_vardef] *)
Definition run_vardef (name : string) : M unit :=
  vtype <- type_from_name name ;;
  initial <- default_value_for_type vtype ;;
  ok <- Environment.fdef_function name initial ;;
  error_if (negb ok) NAME_ERROR.

(** [__run_bvardef] *)
Definition run_bvardef (name : string) : M unit :=
  vtype <- type_from_name name ;;
  initial <- default_value_for_type vtype ;;
  ok <- Environment.fdef_block name initial ;;
  error_if (negb ok) NAME_ERROR.

(** [__run_assign] *)
Definition run_assign (qname : string) (expression : expr) : M unit :=
  right_val <- eval_expr expression ;;
  set_qname_value fuel qname right_val.

(** The truth value of a condition payload. *)
Definition truthy (p : payload) : bool :=
  match p with
  | PNone => false
  | PInt z => negb (Z.eqb z 0)
  | PStr s => negb (String.eqb s "")
  | PBool b => b
  | PFun _ => true
  end.

(** [__run_if].  Where the source leaves [res] at [None] (no branch run),
    the result carries [Value()]; the caller drops it, [ret] being false. *)
Definition run_if (condition : expr) (statements : list stmt)
  (else_statements : option (list stmt)) : M (Value * bool) :=
  cond <- eval_expr condition ;;
  error_if (bool_decide (val_t cond <> BOOL)) TYPE_ERROR ;;
  Environment.enter_block ;;
  r <- (if truthy (val_v cond) then run_statements statements
        else match else_statements with
             | Some (s :: ss) => run_statements (s :: ss)
             | _ => ret (Value_default, false)
             end) ;;
  Environment.exit_block ;;
  ret r.

(** One turn of the loop of [__run_while]; [res] is the result so far. *)
Definition run_while_step (condition : expr) (statements : list stmt) (res : Value)
  : M (Value * bool) :=
  cond <- eval_expr condition ;;
  error_if (bool_decide (val_t cond <> BOOL)) TYPE_ERROR ;;
  if negb (truthy (val_v cond)) then ret (res, false)
  else
    Environment.enter_block ;;
    r <- run_statements statements ;;
    Environment.exit_block ;;
    if snd r then ret r
    else run_while_loop condition statements (fst r).

(** [__run_while] *)
Definition run_while (condition : expr) (statements : list stmt) : M (Value * bool) :=
  run_while_step condition statements Value_default.

(** [__run_return].  The attribute that the source sets on a default
    return value is never read and is left out. *)
Definition run_return (expression : option expr) : M (Value * bool) :=
  expected <- gets current_return_type ;;
  expected_interface <- gets current_return_interface ;;
  match expression with
  | None =>
      if bool_decide (expected = VOID) then ret (mkValue VOID PNone, true)
      else
        val <- default_value_for_type expected ;;
        ret (val, true)
  | Some e =>
      value <- eval_expr e ;;
      error_if (bool_decide (expected = VOID)) TYPE_ERROR ;;
      value' <-
        (if (is_none (val_v value) && type_in (val_t value) [OBJECT; FUNCTION])%bool then
           if type_in expected [OBJECT; FUNCTION] then ret (mkValue expected PNone)
           else error TYPE_ERROR
         else
           error_if (bool_decide (val_t value <> expected)) TYPE_ERROR ;;
           ret value) ;;
      check_interface fuel expected_interface value' ;;
      ret (value', true)
  end.

(** The [for statement in statements] loop of [__run_statements]. *)
Fixpoint run_statements_loop (statements : list stmt) (res : Value) : M (Value * bool) :=
  match statements with
  | [] => ret (res, false)
  | statement :: rest =>
      match statement with
      | VarDef name => run_vardef name ;; run_statements_loop rest res
      | BVarDef name => run_bvardef name ;; run_statements_loop rest res
      | Assign var expression => run_assign var expression ;; run_statements_loop rest res
      | Fcall name args => _ <- run_fcall name args ;; run_statements_loop rest res
      | If condition stmts else_stmts =>
          r <- run_if condition stmts else_stmts ;;
          if snd r then ret (fst r, true) else run_statements_loop rest res
      | While condition stmts =>
          r <- run_while condition stmts ;;
          if snd r then ret (fst r, true) else run_statements_loop rest res
      | Return expression => run_return expression
      end
  end.

(** [__run_statements] *)
Definition run_statements_body (statements : list stmt) : M (Value * bool) :=
  crt <- gets current_return_type ;;
  res <- default_value_for_type crt ;;
  run_statements_loop statements res.

(** [__eval_expr] *)
Definition eval_expr_body (e : expr) : M Value :=
  match e with
  | FuncExpr f =>
      _ <- declared_of_suffix_name (fn_name f) true ;;
      ptypes <- declared_param_types (fn_args f) ;;
      cenv <- capture_env_for_lambda ;;
      fv <- FunctionValue_new f ptypes (Some cenv) ;;
      ret (mkValue FUNCTION (PFun fv))
  | IntNode val => ret (mkValue INT (PInt val))
  | StringNode val => ret (mkValue STRING (PStr val))
  | BoolNode val => ret (mkValue BOOL (PBool val))
  | NilNode => ret (mkValue OBJECT PNone)
  | NewObject => new_object
  | Convert target inner =>
      inner_val <- eval_expr inner ;;
      convert_value target inner_val
  | QualifiedName qname =>
      if Py.has_dot qname then get_qname_value qname
      else
        found <- Environment.exists_ qname ;;
        if found then get_qname_value qname
        else make_named_function_value qname
  | FcallExpr name args => run_fcall name args
  | BinOp kind op1 op2 =>
      l <- eval_expr op1 ;;
      r <- eval_expr op2 ;;
      eval_binary_op kind l r
  | Neg op1 =>
      o <- eval_expr op1 ;;
      if bool_decide (val_t o = INT) then
        z <- as_int (val_v o) ;; ret (mkValue INT (PInt (- z)))
      else error TYPE_ERROR
  | Not op1 =>
      o <- eval_expr op1 ;;
      if bool_decide (val_t o = BOOL) then
        b <- as_bool (val_v o) ;; ret (mkValue BOOL (PBool (negb b)))
      else error TYPE_ERROR
  end.

End Evaluator.

(** The recursive knot: every call of the evaluator into itself spends one
    unit of fuel. *)
Fixpoint eval_expr (fuel : nat) (e : expr) {struct fuel} : M Value :=
  match fuel with
  | O => out_of_fuel
  | S n => eval_expr_body n (eval_expr n) (run_statements n) e
  end
with run_statements (fuel : nat) (statements : list stmt) {struct fuel} : M (Value * bool) :=
  match fuel with
  | O => out_of_fuel
  | S n => run_statements_body n (eval_expr n) (run_statements n) (run_while_loop n) statements
  end
with run_while_loop (fuel : nat) (condition : expr) (statements : list stmt) (res : Value)
  {struct fuel} : M (Value * bool) :=
  match fuel with
  | O => out_of_fuel
  | S n => run_while_step (eval_expr n) (run_statements n) (run_while_loop n)
             condition statements res
  end.

(** [Interpreter.run], on the AST that the parser returns. *)
Definition run (fuel : nat) (ast : program) : M unit :=
  create_interface_table ast ;;
  create_function_table ast ;;
  main_def <- get_function "main" [] ;;
  rd <- return_declared main_def ;;
  modify (with_return (fst rd) (snd rd)) ;;
  _ <- run_fcall fuel (eval_expr fuel) (run_statements fuel) (fn_name main_def) [] ;;
  ret tt.

(* ===================================================================== *)
(** * Vocabulary of the statements, sample programs and states *)
(* ===================================================================== *)

Definition vint (z : Z) : Value := mkValue INT (PInt z).

(** What a run prints, or how it ends otherwise. *)
Definition run_output (fuel : nat) (ast : program) (inp : list string)
  : result (list string) :=
  match run fuel ast (Interp_init inp) with
  | Ok (_, st) => Ok (output st)
  | Error kind => Error kind
  | Raise exn => Raise exn
  | OutOfFuel => OutOfFuel
  end.

(** A top-level function definition and an anonymous function literal, as
    the parser gives them. *)
Definition top_func (id : nat) (name : string) (args : list arg_node)
  (body : list stmt) : func_node := FuncNode true id name args body.

Definition lambda (id : nat) (name : string) (args : list arg_node)
  (body : list stmt) : expr := FuncExpr (FuncNode true id name args body).

(** A program whose callee reads a variable of its caller:
    [func foov() { print(xi); }  func main() { var xi; xi = 5; foov(); }] *)
Definition prog_reads_caller_variable : program :=
  Program []
    [ top_func 0 "foov" [] [Fcall "print" [QualifiedName "xi"]];
      top_func 1 "main" []
        [VarDef "xi"; Assign "xi" (IntNode 5); Fcall "foov" []] ].

(** The text that [print] contributes for one argument value. *)
Definition print_text (val : Value) : string :=
  match val_t val with
  | BOOL => Py.lower (py_str (val_v val))
  | _ => py_str (val_v val)
  end.

Definition join (parts : list string) : string :=
  fold_right String.append "" parts.

(** A void function called as an argument of [print] and of [inputs]:
    [func foov() { }  func main() { print(foov()); print(inputs(foov())); }] *)
Definition prog_prints_void : program :=
  Program []
    [ top_func 0 "foov" [] [];
      top_func 1 "main" []
        [ Fcall "print" [FcallExpr "foov" []];
          Fcall "print" [FcallExpr "inputs" [FcallExpr "foov" []]] ] ].

(** A parameter type accepts an argument: a nil-valued Object or Function
    argument goes with any Object or Function parameter, any other
    argument with the parameter of its own tag. *)
Definition accepts (ptype : Type_) (argval : Value) : Prop :=
  if is_nil_value argval then ptype = OBJECT \/ ptype = FUNCTION
  else ptype = val_t argval.

Global Instance accepts_dec (ptype : Type_) (argval : Value) :
  Decision (accepts ptype argval).
Proof. unfold accepts. destruct (is_nil_value argval); apply _. Defined.

(** A function-table entry is a candidate for a call: equal name, equal
    arity, every parameter type accepting the argument at its position. *)
Definition candidate (fcall_name : string) (actual_args : list Value)
  (entry : (string * list Type_) * func_node) : Prop :=
  fst (fst entry) = fcall_name
  /\ length (snd (fst entry)) = length actual_args
  /\ Forall2 accepts (snd (fst entry)) actual_args.

Global Instance candidate_dec (fcall_name : string) (actual_args : list Value)
  (entry : (string * list Type_) * func_node) :
  Decision (candidate fcall_name actual_args entry).
Proof. unfold candidate. apply _. Defined.

(** Two overloads [pv(xi)] and [pv(xs)], and two overloads [qv(xo)] and
    [qv(xf)]. *)
Definition pv_int : func_node :=
  top_func 0 "pv" [ArgNode "xi" false] [Fcall "print" [StringNode "int"]].
Definition pv_str : func_node :=
  top_func 1 "pv" [ArgNode "xs" false] [Fcall "print" [StringNode "str"]].
Definition qv_obj : func_node := top_func 2 "qv" [ArgNode "xo" false] [].
Definition qv_fun : func_node := top_func 3 "qv" [ArgNode "xf" false] [].

Definition overload_state : Interp :=
  with_funcs [ (("pv", [INT]), pv_int); (("pv", [STRING]), pv_str);
               (("qv", [OBJECT]), qv_obj); (("qv", [FUNCTION]), qv_fun) ]
    (with_envs [[[[]]]] (Interp_init [])).

Definition read_only {A} (m : M A) : Prop :=
  forall st a st', m st = Ok (a, st') -> st' = st.

(** [func setv(ref pA) { pA.xi = 3; }] called on [ao], a variable without
    interface annotation that holds an object conforming to [A];
    [main] then prints [ao.xi]. *)
Definition prog_ref_without_interface : program :=
  Program [InterfaceNode "A" [FieldVar "xi"]]
    [ top_func 0 "setv" [ArgNode "pA" true] [Assign "pA.xi" (IntNode 3)];
      top_func 1 "main" []
        [ VarDef "ao"; Assign "ao" NewObject; Assign "ao.xi" (IntNode 1);
          Fcall "setv" [QualifiedName "ao"];
          Fcall "print" [QualifiedName "ao.xi"] ] ].

(** A state of a caller whose variable [ao] holds nil in cell [0]. *)
Definition ref_caller_state : Interp :=
  with_cells [mkValue OBJECT PNone] (with_envs [[[[("ao", 0%nat)]]]] (Interp_init [])).

(** [func inci(ref xi) { xi = xi + 1; }]
    [func main() { var ai; ai = 41; inci(ai); print(ai); }] *)
Definition prog_ref_increment : program :=
  Program []
    [ top_func 0 "inci" [ArgNode "xi" true]
        [Assign "xi" (BinOp OpAdd (QualifiedName "xi") (IntNode 1))];
      top_func 1 "main" []
        [ VarDef "ai"; Assign "ai" (IntNode 41);
          Fcall "inci" [QualifiedName "ai"];
          Fcall "print" [QualifiedName "ai"] ] ].

(** The same call with an argument that is not a name: [inci(41)]. *)
Definition prog_ref_literal : program :=
  Program []
    [ top_func 0 "inci" [ArgNode "xi" true]
        [Assign "xi" (BinOp OpAdd (QualifiedName "xi") (IntNode 1))];
      top_func 1 "main" [] [Fcall "inci" [IntNode 41]] ].

(** A state inside a callee: the caller's cell [0] holds 41, bound to
    [ai] in the caller's frame and to the ref formal [xi] in the callee's. *)
Definition ref_callee_state : Interp :=
  with_cells [vint 41] (with_envs [[[[("ai", 0%nat)]]; [[("xi", 0%nat)]]]] (Interp_init [])).

(** [func main() { var xi; xi = 10; var ff; ff = func() { return xi + 1; };
                   xi = 99; print(ff()); }] *)
Definition prog_closure_scalar : program :=
  Program []
    [ top_func 0 "main" []
        [ VarDef "xi"; Assign "xi" (IntNode 10); VarDef "ff";
          Assign "ff" (lambda 1 "lambdai" []
                         [Return (Some (BinOp OpAdd (QualifiedName "xi") (IntNode 1)))]);
          Assign "xi" (IntNode 99);
          Fcall "print" [FcallExpr "ff" []] ] ].

(** [func main() { var ao; ao = @; ao.xi = 1; var ff;
                   ff = func() { return ao.xi; }; ao.xi = 2; print(ff()); }] *)
Definition prog_closure_object : program :=
  Program []
    [ top_func 0 "main" []
        [ VarDef "ao"; Assign "ao" NewObject; Assign "ao.xi" (IntNode 1); VarDef "ff";
          Assign "ff" (lambda 1 "lambdai" [] [Return (Some (QualifiedName "ao.xi"))]);
          Assign "ao.xi" (IntNode 2);
          Fcall "print" [FcallExpr "ff" []] ] ].

(** [func reachedv() { print("reached"); }]
    [func setv(ref po) { po = @; po.hf = reachedv; po.xi = 3; }]
    [func main() { var ao; ao = @; ao.gf = nil; setv(ao.gf); <last> }]
    The nil of the Function-typed field [gf] is accepted for the Object
    parameter [po]; the callee then stores an object in the shared cell. *)
Definition prog_object_in_function_field (last : stmt) : program :=
  Program []
    [ top_func 0 "reachedv" [] [Fcall "print" [StringNode "reached"]];
      top_func 1 "setv" [ArgNode "po" true]
        [ Assign "po" NewObject;
          Assign "po.hf" (QualifiedName "reachedv");
          Assign "po.xi" (IntNode 3) ];
      top_func 2 "main" []
        [ VarDef "ao"; Assign "ao" NewObject; Assign "ao.gf" NilNode;
          Fcall "setv" [QualifiedName "ao.gf"];
          last ] ].

(** The part of [invoke_function] that follows the body: the frame of
    the activation is dropped, the environment stack and the return
    context of the caller (the state [caller] in which the call was made)
    are put back, and the value of the body is handed on. *)
Definition call_epilogue (closure_env : option nat) (caller : Interp)
  (r : Value * bool) : M Value :=
  Environment.exit_func ;;
  (match closure_env with
   | Some _ => modify (with_env (env caller))
   | None => ret tt
   end) ;;
  modify (with_return (current_return_type caller) (current_return_interface caller)) ;;
  ret (fst r).

(** The parameter name of a binding entry. *)
Definition binding_name (b : binding) : string :=
  match b with
  | RefBinding pname _ => pname
  | ValBinding pname _ => pname
  end.

(** Cell [c'] of the store [new] is a fresh copy of cell [c] of the store
    [old], the store as it was when the capture started. *)
Definition copy_of (old new : list Value) (c c' : nat) : Prop :=
  (length old <= c')%nat /\ (c < length old)%nat /\ new !! c' = old !! c.

Definition block_copy (old new : list Value) (b b' : block) : Prop :=
  Forall2 (fun x y => fst x = fst y /\ copy_of old new (snd x) (snd y)) b b'.

Definition frame_copy (old new : list Value) (fr fr' : frame) : Prop :=
  Forall2 (block_copy old new) fr fr'.

Definition stack_copy (old new : list Value) (e e' : env_stack) : Prop :=
  Forall2 (frame_copy old new) e e'.

Definition block_valid (old : list Value) (b : block) : Prop :=
  Forall (fun x => (snd x < length old)%nat) b.

(* --------------------------------------------------------------------- *)
(** ** Vocabulary of the further properties *)
(* --------------------------------------------------------------------- *)

Definition vbool (b : bool) : Value := mkValue BOOL (PBool b).
Definition vstr (s : string) : Value := mkValue STRING (PStr s).
Definition vobj (id : Z) : Value := mkValue OBJECT (PInt id).

(** The operand tag on which a non-equality operator is defined. *)
Definition operator_domain (kind : bop) : option Type_ :=
  match kind with
  | OpSub | OpMul | OpDiv | OpGt | OpGe | OpLt | OpLe => Some INT
  | OpOr | OpAnd => Some BOOL
  | OpAdd | OpEq | OpNe => None
  end.

(** A state whose function table holds the single function [pv(xi)]. *)
Definition single_function_state : Interp :=
  with_funcs [(("pv", [INT]), pv_int)] (with_envs [[[[]]]] (Interp_init [])).

(** A state in which [po] holds the object 1, which has no field yet. *)
Definition object_state : Interp :=
  with_heap (<[1 := []]> ∅)
    (with_envs [[[[("po", 0%nat)]]]] (with_cells [vobj 1] (Interp_init []))).

(** [object_state] after [po.xi = 7]. *)
Definition object_state_xi : Interp :=
  with_heap (<[1 := [("xi", 1%nat)]]> (heap object_state))
    (with_cells [vobj 1; vint 7] object_state).

(** A function [ff(gf)] with a Function-typed parameter, and a state in
    which the table holds it and the variable [ff] holds a value of it. *)
Definition ff_fun : func_node := top_func 5 "ff" [ArgNode "gf" false] [].

Definition function_variable_state : Interp :=
  with_funcs [(("ff", [FUNCTION]), ff_fun)]
    (with_envs [[[[("ff", 0%nat)]]]]
       (with_cells [mkValue FUNCTION (PFun (mkFunctionValue 0 ff_fun [FUNCTION] None))]
          (Interp_init []))).


(** An interface whose fields are all var fields of a primitive type (no
    interface-typed and no function field). *)
Definition flat_interface (fields : list (string * field_spec)) : Prop :=
  Forall (fun fs => exists ty, snd fs = VarField ty None) fields.

(** The object with fields [object_fields] has a field [fname] that holds
    a value of tag [ty]. *)
Definition field_has_type (st : Interp) (object_fields : list (string * nat))
  (fname : string) (ty : Type_) : Prop :=
  exists c v, Dict.get fname object_fields = Some c
              /\ cells st !! c = Some v /\ val_t v = ty.

(** Every allocated object has an identity below the allocation counter. *)
Definition heap_below_counter (st : Interp) : Prop :=
  forall id, is_Some (heap st !! id) -> id < next_obj_id st.

(** The tag that a conversion to [to_type] produces. *)
Definition conversion_target (to_type : string) : option Type_ :=
  if String.eqb to_type "int" then Some INT
  else if String.eqb to_type "str" then Some STRING
  else if String.eqb to_type "bool" then Some BOOL
  else None.

(** Every character of [s] passes the test [p]. *)
Fixpoint all_chars (p : ascii -> bool) (s : string) : bool :=
  match s with
  | EmptyString => true
  | String c rest => p c && all_chars p rest
  end.

Definition not_space (c : ascii) : bool := negb (Py.is_space c).

(** A character below U+007F, which [int] reads as it is. *)
Definition plain_char (c : ascii) : bool := (N_of_ascii c <? 127)%N.

(* ===================================================================== *)
(** * Properties *)
(* ===================================================================== *)

(** Unfolding of the monad on a concrete outcome. *)
Lemma bind_Ok {A B} (m : M A) (k : A -> M B) (st st' : Interp) (a : A) :
  m st = Ok (a, st') -> bind m k st = k a st'.
Proof. intros H. unfold bind. now rewrite H. Qed.

Lemma bind_Error {A B} (m : M A) (k : A -> M B) (st : Interp) (kind : ErrorType) :
  m st = Error kind -> bind m k st = Error kind.
Proof. intros H. unfold bind. now rewrite H. Qed.

Lemma bind_inv_Ok {A B} (m : M A) (k : A -> M B) (st st2 : Interp) (b : B) :
  bind m k st = Ok (b, st2) ->
  exists a st1, m st = Ok (a, st1) /\ k a st1 = Ok (b, st2).
Proof.
  unfold bind. destruct (m st) as [[a st1]| | |]; try discriminate.
  intros H. now exists a, st1.
Qed.

Lemma bind_ret {A B} (a : A) (k : A -> M B) (st : Interp) :
  bind (ret a) k st = k a st.
Proof. reflexivity. Qed.

Lemma self_env_Ok (st : Interp) (e : env_stack) :
  envs st !! env st = Some e -> Environment.self_env st = Ok (e, st).
Proof.
  intros He. unfold Environment.self_env, bind, gets, or_raise, ret. now rewrite He.
Qed.

Ltac monad_simpl :=
  unfold error_if, or_raise, gets, modify, ret, error, raise, out_of_fuel in *.

(* --------------------------------------------------------------------- *)
(** ** Name lookup *)
(* --------------------------------------------------------------------- *)

Section Lookup.

Variable varname : string.

Let unbound (b : block) : Prop := Dict.get varname b = None.

Lemma scan_blocks_None (blocks : list block) :
  Environment.scan_blocks varname blocks = None <-> Forall unbound blocks.
Proof.
  induction blocks as [|b rest IH]; simpl.
  - split; [constructor | reflexivity].
  - destruct (Dict.get varname b) as [c|] eqn:Hb.
    + split; [discriminate|]. intros H. inversion H; subst. unfold unbound in *. congruence.
    + rewrite IH. split.
      * intros H. constructor; assumption.
      * intros H. now inversion H.
Qed.

Lemma scan_blocks_Some (blocks : list block) (c : nat) :
  Environment.scan_blocks varname blocks = Some c <->
  exists inner b outer,
    blocks = inner ++ b :: outer /\ Forall unbound inner /\ Dict.get varname b = Some c.
Proof.
  induction blocks as [|b rest IH]; simpl.
  - split; [discriminate|]. intros (inner & b & outer & H & _). now destruct inner.
  - destruct (Dict.get varname b) as [c'|] eqn:Hb.
    + split.
      * intros [= ->]. exists [], b, rest. repeat split; [constructor | assumption].
      * intros (inner & b0 & outer & H & Hin & Hget).
        destruct inner as [|b1 inner]; simpl in H; injection H as -> ->.
        -- congruence.
        -- inversion Hin; subst. unfold unbound in *. congruence.
    + rewrite IH. split.
      * intros (inner & b0 & outer & -> & Hin & Hget).
        exists (b :: inner), b0, outer. repeat split; [constructor|]; assumption.
      * intros (inner & b0 & outer & H & Hin & Hget).
        destruct inner as [|b1 inner]; simpl in H; injection H as -> ->.
        -- congruence.
        -- inversion Hin; subst. now exists inner, b0, outer.
Qed.

Let frame_unbound (fr : frame) : Prop := Forall unbound fr.

Lemma scan_frames_None (frames : list frame) :
  Environment.scan_frames varname frames = None <-> Forall frame_unbound frames.
Proof.
  induction frames as [|fr rest IH]; simpl.
  - split; [constructor | reflexivity].
  - destruct (Environment.scan_blocks varname (rev fr)) as [c|] eqn:Hfr.
    + split; [discriminate|]. intros H. inversion H as [|? ? Hu _]; subst.
      apply Forall_rev, scan_blocks_None in Hu. congruence.
    + apply scan_blocks_None in Hfr. apply Forall_rev in Hfr. rewrite rev_involutive in Hfr.
      rewrite IH. split.
      * intros H. constructor; assumption.
      * intros H. now inversion H.
Qed.

Lemma scan_frames_Some (frames : list frame) (c : nat) :
  Environment.scan_frames varname frames = Some c <->
  exists above fr below,
    frames = above ++ fr :: below /\ Forall frame_unbound above
    /\ Environment.scan_blocks varname (rev fr) = Some c.
Proof.
  induction frames as [|fr rest IH]; simpl.
  - split; [discriminate|]. intros (above & fr & below & H & _). now destruct above.
  - destruct (Environment.scan_blocks varname (rev fr)) as [c'|] eqn:Hfr.
    + split.
      * intros [= ->]. exists [], fr, rest. repeat split; [constructor | assumption].
      * intros (above & fr0 & below & H & Hab & Hget).
        destruct above as [|f1 above]; simpl in H; injection H as -> ->.
        -- congruence.
        -- inversion Hab as [|? ? Hu _]; subst.
           apply Forall_rev, scan_blocks_None in Hu. congruence.
    + rewrite IH. split.
      * intros (above & fr0 & below & -> & Hab & Hget).
        exists (fr :: above), fr0, below. repeat split; [|assumption].
        constructor; [|assumption].
        apply scan_blocks_None in Hfr. apply Forall_rev in Hfr.
        now rewrite rev_involutive in Hfr.
      * intros (above & fr0 & below & H & Hab & Hget).
        destruct above as [|f1 above]; simpl in H; injection H as -> ->.
        -- congruence.
        -- inversion Hab; subst. now exists above, fr0, below.
Qed.

End Lookup.

(** [get_current_cell] and [exists] are the search [Environment.lookup] on
    the stack the interpreter runs on. *)
Lemma get_current_cell_lookup (st : Interp) (e : env_stack) (name : string) :
  envs st !! env st = Some e ->
  Environment.get_current_cell name st = Ok (Environment.lookup e name, st).
Proof.
  intros He. unfold Environment.get_current_cell, Environment.self_env, bind.
  monad_simpl. now rewrite He.
Qed.

Lemma exists_lookup (st : Interp) (e : env_stack) (name : string) :
  envs st !! env st = Some e ->
  Environment.exists_ name st
  = Ok (match Environment.lookup e name with Some _ => true | None => false end, st).
Proof.
  intros He. unfold Environment.exists_, Environment.self_env, bind.
  monad_simpl. now rewrite He.
Qed.

(** C1, counterexample: with [xi] bound only in the caller's frame, the
    search of the top frame alone finds nothing, yet the interpreter's
    lookup returns the caller's cell; a callee that reads [xi] prints the
    caller's value instead of stopping on a Name error. *)
Lemma lookup_finds_outer_frame_binding :
  let e : env_stack := [[[("xi", 0%nat)]]; [[]]] in
  Environment.lookup_top e "xi" = Some None
  /\ Environment.lookup e "xi" = Some 0%nat
  /\ run_output 20 prog_reads_caller_variable [] = Ok ["5"].
Proof. repeat split; vm_compute; reflexivity. Qed.

(** C1, amended: every name lookup ([get_current_cell], [exists], and with
    them the reading of an identifier, the base of a qualified name and
    the test whether a call name is a bound variable) scans all frames of
    the environment stack, from the current frame down to the oldest one,
    and in each frame the blocks from innermost to outermost.  The name is
    undefined only if no block of any frame binds it; otherwise the cell
    is the one of the innermost binding block of the most recent frame
    that binds it. *)
Theorem lookup_scans_every_frame (st : Interp) (e : env_stack) (name : string) :
  envs st !! env st = Some e ->
  Environment.get_current_cell name st = Ok (Environment.lookup e name, st)
  /\ Environment.exists_ name st
     = Ok (match Environment.lookup e name with Some _ => true | None => false end, st)
  /\ (Environment.lookup e name = None <->
      Forall (Forall (fun b => Dict.get name b = None)) e)
  /\ (forall c, Environment.lookup e name = Some c <->
      exists below fr above outer b inner,
        e = below ++ fr :: above /\ fr = outer ++ b :: inner
        /\ Dict.get name b = Some c
        /\ Forall (fun b' => Dict.get name b' = None) inner
        /\ Forall (Forall (fun b' => Dict.get name b' = None)) above).
Proof.
  intros He. split; [now apply get_current_cell_lookup|].
  split; [now apply exists_lookup|]. unfold Environment.lookup. split.
  - rewrite scan_frames_None. split; intros H.
    + apply Forall_rev in H. now rewrite rev_involutive in H.
    + now apply Forall_rev.
  - intros c. rewrite scan_frames_Some. split.
    + intros (above & fr & below & Hrev & Hab & Hfr).
      apply scan_blocks_Some in Hfr as (inner & b & outer & Hfr & Hin & Hb).
      exists (rev below), fr, (rev above), (rev outer), b, (rev inner).
      repeat split.
      * rewrite <- (rev_involutive e), Hrev, rev_app_distr. simpl.
        now rewrite <- app_assoc.
      * rewrite <- (rev_involutive fr), Hfr, rev_app_distr. simpl.
        now rewrite <- app_assoc.
      * assumption.
      * now apply Forall_rev.
      * now apply Forall_rev.
    + intros (below & fr & above & outer & b & inner & -> & -> & Hb & Hin & Hab).
      exists (rev above), (outer ++ b :: inner), (rev below). repeat split.
      * rewrite rev_app_distr. simpl. now rewrite <- app_assoc.
      * now apply Forall_rev.
      * apply scan_blocks_Some. exists (rev inner), b, (rev outer). repeat split.
        -- rewrite rev_app_distr. simpl. now rewrite <- app_assoc.
        -- now apply Forall_rev.
        -- assumption.
Qed.

(** The statement at a stack of two frames, the name bound in the older. *)
Lemma lookup_scans_every_frame_witness :
  let st := with_envs [[[[("xi", 0%nat)]]; [[]]]] (Interp_init []) in
  Environment.get_current_cell "xi" st = Ok (Some 0%nat, st).
Proof.
  intros st.
  exact (proj1 (lookup_scans_every_frame st [[[("xi", 0%nat)]]; [[]]] "xi" eq_refl)).
Defined.

(* --------------------------------------------------------------------- *)
(** ** Integer division *)
(* --------------------------------------------------------------------- *)

Lemma eval_binary_op_div (a b : Z) (st : Interp) :
  eval_binary_op OpDiv (vint a) (vint b) st
  = if Z.eqb b 0 then Raise "ZeroDivisionError" else Ok (vint (a / b), st).
Proof.
  unfold eval_binary_op, vint, int2, as_int, py_floordiv, bind, ret, raise. simpl.
  destruct (Z.eqb b 0); reflexivity.
Qed.

(** C4, counterexample: [-7 / 2] evaluates to [-4], while the quotient
    truncated toward zero is [-3]. *)
Lemma div_is_not_truncation :
  eval_binary_op OpDiv (vint (-7)) (vint 2) (Interp_init [])
  = Ok (vint (-4), Interp_init [])
  /\ Z.quot (-7) 2 = -3
  /\ eval_binary_op OpDiv (vint (-7)) (vint 2) (Interp_init [])
     <> Ok (vint (Z.quot (-7) 2), Interp_init []).
Proof.
  rewrite eval_binary_op_div. simpl. repeat split. discriminate.
Qed.

(** C4, amended: for Int operands [a] and [b] with [b] nonzero, [/] yields
    the floor quotient [q] (the remainder [a - b*q] is zero or has the sign
    of the divisor), which is the quotient truncated toward zero when both
    operands are non-negative or both are non-positive. *)
Theorem div_is_floor_quotient (a b : Z) (st : Interp) :
  b <> 0 ->
  exists q,
    eval_binary_op OpDiv (vint a) (vint b) st = Ok (vint q, st)
    /\ (0 <= a - b * q < b \/ b < a - b * q <= 0)
    /\ (0 <= a -> 0 < b -> q = Z.quot a b)
    /\ (a <= 0 -> b < 0 -> q = Z.quot a b).
Proof.
  intros Hb. exists (a / b). rewrite eval_binary_op_div.
  destruct (Z.eqb_spec b 0) as [->|_]; [contradiction|].
  split; [reflexivity|]. split; [|split].
  - destruct (Z_lt_le_dec 0 b) as [Hpos|Hneg].
    + left. pose proof (Z.mod_pos_bound a b Hpos) as Hm.
      rewrite Z.mod_eq in Hm by assumption. lia.
    + right. assert (Hlt : b < 0) by lia.
      pose proof (Z.mod_neg_bound a b Hlt) as Hm.
      rewrite Z.mod_eq in Hm by assumption. lia.
  - intros Ha Hb'. symmetry. now apply Z.quot_div_nonneg.
  - intros Ha Hb'.
    rewrite <- (Z.opp_involutive a), <- (Z.opp_involutive b).
    rewrite Z.div_opp_opp by lia. rewrite Z.quot_opp_opp by lia.
    symmetry. apply Z.quot_div_nonneg; lia.
Qed.

Lemma div_is_floor_quotient_witness :
  exists q,
    eval_binary_op OpDiv (vint (-7)) (vint 2) (Interp_init [])
    = Ok (vint q, Interp_init [])
    /\ (0 <= -7 - 2 * q < 2 \/ 2 < -7 - 2 * q <= 0)
    /\ (0 <= -7 -> 0 < 2 -> q = Z.quot (-7) 2)
    /\ (-7 <= 0 -> 2 < 0 -> q = Z.quot (-7) 2).
Proof. apply (div_is_floor_quotient (-7) 2 (Interp_init [])). lia. Defined.

(** C9: on Int operands [/] returns a result exactly when the divisor is
    nonzero.  With a zero divisor the outcome is the host's
    ZeroDivisionError, not an error of the façade; no operands at all make
    the operator end in a Name, Type or Fault error. *)
Theorem div_zero_is_host_exception (a b : Z) (st : Interp) :
  (b <> 0 -> eval_binary_op OpDiv (vint a) (vint b) st = Ok (vint (a / b), st))
  /\ (b = 0 -> eval_binary_op OpDiv (vint a) (vint b) st = Raise "ZeroDivisionError")
  /\ (forall kind, eval_binary_op OpDiv (vint a) (vint b) st <> Error kind).
Proof.
  rewrite eval_binary_op_div. destruct (Z.eqb_spec b 0) as [->|Hb].
  - split; [intros H; now contradiction H|]. split; [reflexivity | discriminate].
  - split; [reflexivity|]. split; [intros H; contradiction | discriminate].
Qed.

Lemma div_zero_is_host_exception_witness :
  eval_binary_op OpDiv (vint 7) (vint 0) (Interp_init []) = Raise "ZeroDivisionError"
  /\ eval_binary_op OpDiv (vint 7) (vint 2) (Interp_init []) = Ok (vint 3, Interp_init []).
Proof.
  split.
  - apply (proj1 (proj2 (div_zero_is_host_exception 7 0 (Interp_init [])))). reflexivity.
  - apply (proj1 (div_zero_is_host_exception 7 2 (Interp_init []))). lia.
Defined.

(* --------------------------------------------------------------------- *)
(** ** Printing *)
(* --------------------------------------------------------------------- *)

Lemma append_assoc (a b c : string) : ((a +:+ b) +:+ c = a +:+ (b +:+ c))%string.
Proof.
  induction a as [|x a IH]; [reflexivity|].
  change (String x ((a +:+ b) +:+ c) = String x (a +:+ (b +:+ c))). now f_equal.
Qed.

Lemma append_empty_r (a : string) : (a +:+ "" = a)%string.
Proof.
  induction a as [|x a IH]; [reflexivity|].
  change (String x (a +:+ "") = String x a). now f_equal.
Qed.

Lemma handle_print_loop_join (eval : expr -> M Value) (args : list expr) :
  forall (out : string) (st st' : Interp) (vals : list Value),
    eval_args eval args st = Ok (vals, st') ->
    handle_print_loop eval args out st = Ok (out +:+ join (map print_text vals), st').
Proof.
  induction args as [|arg rest IH]; intros out st st' vals H; simpl in *.
  - injection H as <- <-. simpl.
    now rewrite append_empty_r.
  - apply bind_inv_Ok in H as (x & st1 & Hx & H).
    apply bind_inv_Ok in H as (xs & st2 & Hxs & H).
    injection H as <- <-.
    rewrite (bind_Ok _ _ _ _ _ Hx). simpl.
    unfold print_text at 1.
    destruct (val_t x) eqn:Ht; simpl;
      rewrite (IH _ _ _ _ Hxs), append_assoc; reflexivity.
Qed.

(** C10: [print] evaluates its arguments in order and emits one line, the
    concatenation of their texts; the text of a nil-valued Object or
    Function is the host's rendering of its absent payload, ["None"]; a
    Bool is rendered in lower case; every other value is the plain
    stringification of its payload. *)
Theorem print_emits_one_line_of_payload_texts
  (eval : expr -> M Value) (args : list expr) (vals : list Value) (st st' : Interp) :
  eval_args eval args st = Ok (vals, st') ->
  handle_print eval args st
  = Ok (mkValue VOID PNone, with_output (output st' ++ [join (map print_text vals)]) st')
  /\ (forall v, is_nil_value v = true -> print_text v = "None")
  /\ (forall b, print_text (mkValue BOOL (PBool b)) = if b then "true" else "false")
  /\ (forall v, val_t v <> BOOL -> print_text v = py_str (val_v v)).
Proof.
  intros H. split; [|split; [|split]].
  - unfold handle_print.
    rewrite (bind_Ok _ _ _ _ _ (handle_print_loop_join eval args "" st st' vals H)).
    reflexivity.
  - intros [ty p] Hnil. unfold is_nil_value, type_in in Hnil. simpl in Hnil.
    apply andb_true_iff in Hnil as [Hty Hp].
    destruct p; try discriminate. unfold print_text. simpl.
    destruct ty; try reflexivity. now vm_compute in Hty.
  - intros []; reflexivity.
  - intros [ty p] Hty. unfold print_text. simpl in *. now destruct ty.
Qed.

(** [print(nil, true, 7)] from the initial state: one line, ["Nonetrue7"]. *)
Lemma print_emits_one_line_of_payload_texts_witness :
  handle_print (eval_expr 3) [NilNode; BoolNode true; IntNode 7] (Interp_init [])
  = Ok (mkValue VOID PNone, with_output ["Nonetrue7"] (Interp_init [])).
Proof.
  exact (proj1 (print_emits_one_line_of_payload_texts (eval_expr 3)
                  [NilNode; BoolNode true; IntNode 7]
                  [mkValue OBJECT PNone; mkValue BOOL (PBool true); vint 7]
                  (Interp_init []) (Interp_init []) eq_refl)).
Defined.

(* --------------------------------------------------------------------- *)
(** ** Calls: Void arguments *)
(* --------------------------------------------------------------------- *)

Lemma has_void_Exists (vals : list Value) :
  has_void vals = true <-> Exists (fun v => val_t v = VOID) vals.
Proof.
  induction vals as [|v rest IH]; simpl.
  - split; [discriminate | intros H; inversion H].
  - destruct (bool_decide (val_t v = VOID)) eqn:Hv.
    + apply bool_decide_eq_true in Hv. split; [now left | reflexivity].
    + apply bool_decide_eq_false in Hv. rewrite IH. split.
      * now right.
      * intros H. inversion H; [contradiction | assumption].
Qed.

Lemma is_builtin_false (name : string) :
  is_builtin name = false ->
  (String.eqb name "inputi" || String.eqb name "inputs")%bool = false
  /\ String.eqb name "print" = false.
Proof.
  unfold is_builtin. intros H. apply orb_false_iff in H as [H1 H2]. now split.
Qed.

(** C8, counterexample: a Void argument of [print], and of [inputs], is
    not rejected; its payload is printed as ["None"] and the run goes on. *)
Lemma builtins_accept_void_argument :
  run_output 20 prog_prints_void ["line"] = Ok ["None"; "None"; "line"].
Proof. vm_compute. reflexivity. Qed.

(** C8, amended: for every call other than the built-ins [print], [inputi]
    and [inputs], once the argument expressions have been evaluated, a
    Void value among them ends the call with a Type error. *)
Theorem void_argument_is_type_error
  (fuel : nat) (eval : expr -> M Value) (exec : list stmt -> M (Value * bool))
  (fcall_name : string) (args : list expr) (vals : list Value) (st st' : Interp) :
  is_builtin fcall_name = false ->
  eval_args eval args st = Ok (vals, st') ->
  Exists (fun v => val_t v = VOID) vals ->
  run_fcall fuel eval exec fcall_name args st = Error TYPE_ERROR.
Proof.
  intros Hb Hargs Hvoid. apply is_builtin_false in Hb as [Hb1 Hb2].
  unfold run_fcall. rewrite Hb1, Hb2.
  rewrite (bind_Ok _ _ _ _ _ Hargs).
  apply has_void_Exists in Hvoid. rewrite Hvoid. reflexivity.
Qed.

(** The call [fooi(barv())] where [barv] is void. *)
Lemma void_argument_is_type_error_witness :
  let st := with_funcs [(("barv", []), top_func 0 "barv" [] [])]
              (with_envs [[[[]]]] (Interp_init [])) in
  run_fcall 5 (eval_expr 5) (run_statements 5) "fooi" [FcallExpr "barv" []] st
  = Error TYPE_ERROR.
Proof.
  intros st.
  refine (void_argument_is_type_error 5 (eval_expr 5) (run_statements 5) "fooi"
            [FcallExpr "barv" []] [mkValue VOID PNone] st st eq_refl _ _).
  - vm_compute. reflexivity.
  - left. reflexivity.
Defined.

(* --------------------------------------------------------------------- *)
(** ** Calls: overload resolution *)
(* --------------------------------------------------------------------- *)

Lemma is_nil_like_is_nil_value (argval : Value) :
  (is_none (val_v argval) && type_in (val_t argval) [OBJECT; FUNCTION])%bool
  = is_nil_value argval.
Proof. unfold is_nil_value. apply andb_comm. Qed.

Lemma type_in_obj_fun (ty : Type_) :
  type_in ty [OBJECT; FUNCTION] = true <-> ty = OBJECT \/ ty = FUNCTION.
Proof. destruct ty; vm_compute; split; intros H; try discriminate; auto;
       destruct H; discriminate. Qed.

Lemma overload_match_accepts (ptypes : list Type_) :
  forall actual_args : list Value,
    length ptypes = length actual_args ->
    (overload_match ptypes actual_args = true <-> Forall2 accepts ptypes actual_args).
Proof.
  induction ptypes as [|ptype ptypes IH]; intros [|argval vals] Hlen;
    simpl in Hlen; try discriminate.
  - split; [constructor | reflexivity].
  - injection Hlen as Hlen. specialize (IH vals Hlen). simpl.
    rewrite is_nil_like_is_nil_value.
    assert (Hacc : forall P : Prop,
               (P /\ Forall2 accepts ptypes vals) <-> (P -> Forall2 accepts ptypes vals) /\ P)
      by (intros P; tauto).
    destruct (is_nil_value argval) eqn:Hnil.
    + destruct (type_in ptype [OBJECT; FUNCTION]) eqn:Hin; simpl.
      * apply type_in_obj_fun in Hin. rewrite IH. split.
        -- intros H. constructor; [|assumption]. unfold accepts. now rewrite Hnil.
        -- intros H. now inversion H.
      * split; [discriminate|]. intros H. inversion H as [|? ? ? ? Ha _]; subst.
        unfold accepts in Ha. rewrite Hnil in Ha. apply type_in_obj_fun in Ha. congruence.
    + destruct (bool_decide (ptype <> val_t argval)) eqn:Hne.
      * apply bool_decide_eq_true in Hne. split; [discriminate|].
        intros H. inversion H as [|? ? ? ? Ha _]; subst.
        unfold accepts in Ha. rewrite Hnil in Ha. contradiction.
      * apply bool_decide_eq_false in Hne. rewrite IH. split.
        -- intros H. constructor; [|assumption]. unfold accepts. rewrite Hnil.
           destruct (decide (ptype = val_t argval)); [assumption | contradiction].
        -- intros H. now inversion H.
Qed.

(** The list [potential] holds the candidates, in table order. *)
Lemma overload_potential_candidates (fs : list ((string * list Type_) * func_node))
  (fcall_name : string) (actual_args : list Value) :
  overload_potential fs fcall_name actual_args
  = map snd (filter (candidate fcall_name actual_args) fs).
Proof.
  induction fs as [|[[fname ptypes] func_def] rest IH]; [reflexivity|].
  simpl. rewrite filter_cons.
  destruct (String.eqb_spec fname fcall_name) as [Hn|Hn]; simpl.
  - destruct (Nat.eqb_spec (length ptypes) (length actual_args)) as [Hl|Hl]; simpl.
    + pose proof (overload_match_accepts ptypes actual_args Hl) as Hm.
      destruct (overload_match ptypes actual_args) eqn:Hom.
      * rewrite decide_True; [simpl; now rewrite IH|].
        unfold candidate. simpl. repeat split; try assumption. now apply Hm.
      * rewrite decide_False; [assumption|].
        unfold candidate. simpl. intros (_ & _ & H). apply Hm in H. discriminate.
    + rewrite decide_False; [assumption|].
      unfold candidate. simpl. intros (_ & H & _). contradiction.
  - rewrite decide_False; [assumption|].
    unfold candidate. simpl. intros (H & _). contradiction.
Qed.

(** C5: for a call whose name is not a built-in, not dotted and not a
    bound variable, with arguments that evaluated to non-Void values, the
    function-table entries with equal name, equal arity and accepting
    parameter types are collected; no candidate is a Name error, more than
    one candidate is a Name error, and the only candidate is invoked. *)
Theorem overload_resolution
  (fuel : nat) (eval : expr -> M Value) (exec : list stmt -> M (Value * bool))
  (fcall_name : string) (args : list expr) (vals : list Value)
  (st st' : Interp) (e : env_stack) :
  is_builtin fcall_name = false ->
  Py.has_dot fcall_name = false ->
  eval_args eval args st = Ok (vals, st') ->
  has_void vals = false ->
  envs st' !! env st' = Some e ->
  Environment.lookup e fcall_name = None ->
  run_fcall fuel eval exec fcall_name args st
  = match filter (candidate fcall_name vals) (funcs st') with
    | [] => Error NAME_ERROR
    | [entry] => invoke_function fuel exec (snd entry) args vals None None st'
    | _ :: _ :: _ => Error NAME_ERROR
    end.
Proof.
  intros Hb Hdot Hargs Hvoid He Hunbound.
  apply is_builtin_false in Hb as [Hb1 Hb2].
  unfold run_fcall. rewrite Hb1, Hb2, Hdot.
  rewrite (bind_Ok _ _ _ _ _ Hargs). rewrite Hvoid.
  unfold error_if at 1. rewrite bind_ret.
  rewrite (bind_Ok _ _ _ _ _ (self_env_Ok _ _ He)).
  rewrite Hunbound, andb_false_r. simpl.
  unfold bind at 1. unfold gets at 1.
  rewrite overload_potential_candidates.
  destruct (filter (candidate fcall_name vals) (funcs st')) as [|x [|y rest]];
    reflexivity.
Qed.

(** [pv(1)] goes to the Int overload, [pv("a")] to the String overload;
    [qv(nil)] is ambiguous and [pv(true)] has no candidate. *)
Lemma overload_resolution_witness :
  run_fcall 5 (eval_expr 5) (run_statements 5) "pv" [IntNode 1] overload_state
  = invoke_function 5 (run_statements 5) pv_int [IntNode 1] [vint 1] None None
      overload_state
  /\ run_fcall 5 (eval_expr 5) (run_statements 5) "pv" [StringNode "a"] overload_state
     = invoke_function 5 (run_statements 5) pv_str [StringNode "a"]
         [mkValue STRING (PStr "a")] None None overload_state
  /\ run_fcall 5 (eval_expr 5) (run_statements 5) "qv" [NilNode] overload_state
     = Error NAME_ERROR
  /\ run_fcall 5 (eval_expr 5) (run_statements 5) "pv" [BoolNode true] overload_state
     = Error NAME_ERROR.
Proof.
  split; [|split; [|split]].
  - exact (overload_resolution 5 (eval_expr 5) (run_statements 5) "pv" [IntNode 1]
             [vint 1] overload_state overload_state [[[]]]
             eq_refl eq_refl eq_refl eq_refl eq_refl eq_refl).
  - exact (overload_resolution 5 (eval_expr 5) (run_statements 5) "pv" [StringNode "a"]
             [mkValue STRING (PStr "a")] overload_state overload_state [[[]]]
             eq_refl eq_refl eq_refl eq_refl eq_refl eq_refl).
  - exact (overload_resolution 5 (eval_expr 5) (run_statements 5) "qv" [NilNode]
             [mkValue OBJECT PNone] overload_state overload_state [[[]]]
             eq_refl eq_refl eq_refl eq_refl eq_refl eq_refl).
  - exact (overload_resolution 5 (eval_expr 5) (run_statements 5) "pv" [BoolNode true]
             [mkValue BOOL (PBool true)] overload_state overload_state [[[]]]
             eq_refl eq_refl eq_refl eq_refl eq_refl eq_refl).
Defined.

(* --------------------------------------------------------------------- *)
(** ** Computations that only read the state *)
(* --------------------------------------------------------------------- *)

Lemma read_only_ret {A} (a : A) : read_only (ret a).
Proof. intros st a' st' [= _ <-]. reflexivity. Qed.

Lemma read_only_error {A} (kind : ErrorType) : read_only (@error A kind).
Proof. intros st a st' H. discriminate. Qed.

Lemma read_only_raise {A} (exn : string) : read_only (@raise A exn).
Proof. intros st a st' H. discriminate. Qed.

Lemma read_only_out_of_fuel {A} : read_only (@out_of_fuel A).
Proof. intros st a st' H. discriminate. Qed.

Lemma read_only_gets {A} (f : Interp -> A) : read_only (gets f).
Proof. intros st a st' [= _ <-]. reflexivity. Qed.

Lemma read_only_bind {A B} (m : M A) (k : A -> M B) :
  read_only m -> (forall a, read_only (k a)) -> read_only (bind m k).
Proof.
  intros Hm Hk st b st2 H. apply bind_inv_Ok in H as (a & st1 & H1 & H2).
  apply Hm in H1 as ->. now apply Hk in H2.
Qed.

Lemma read_only_error_if (cond : bool) (kind : ErrorType) :
  read_only (error_if cond kind).
Proof. destruct cond; [apply read_only_error | apply read_only_ret]. Qed.

Lemma read_only_or_raise {A} (o : option A) (exn : string) :
  read_only (or_raise o exn).
Proof. destruct o; [apply read_only_ret | apply read_only_raise]. Qed.

Lemma read_only_Cell_get (c : nat) : read_only (Cell_get c).
Proof.
  intros st a st'. unfold Cell_get. destruct (cells st !! c); [|discriminate].
  now intros [= _ <-].
Qed.

Create HintDb read_only.

#[local] Hint Resolve read_only_ret read_only_error read_only_raise
  read_only_out_of_fuel read_only_gets read_only_error_if read_only_or_raise
  read_only_Cell_get : read_only.

Ltac read_only_step :=
  match goal with
  | |- read_only (bind _ _) => apply read_only_bind; [|intros ?]
  | |- read_only (if ?b then _ else _) => destruct b
  | |- read_only (match ?x with _ => _ end) => destruct x
  | |- read_only _ => solve [auto with read_only]
  end.

Ltac read_only_tac := repeat read_only_step.

Lemma read_only_self_env : read_only Environment.self_env.
Proof. unfold Environment.self_env. read_only_tac. Qed.

#[local] Hint Resolve read_only_self_env : read_only.

Lemma read_only_get_current_cell (name : string) :
  read_only (Environment.get_current_cell name).
Proof. unfold Environment.get_current_cell. read_only_tac. Qed.

Lemma read_only_exists (name : string) : read_only (Environment.exists_ name).
Proof. unfold Environment.exists_. read_only_tac. Qed.

Lemma read_only_type_from_name (name : string) : read_only (type_from_name name).
Proof. unfold type_from_name. read_only_tac. Qed.

Lemma read_only_type_from_suffix (c : ascii) (is_func : bool) :
  read_only (type_from_suffix c is_func).
Proof. unfold type_from_suffix. read_only_tac. Qed.

Lemma read_only_interface_from_name (name : string) :
  read_only (interface_from_name name).
Proof. unfold interface_from_name. read_only_tac. Qed.

#[local] Hint Resolve read_only_get_current_cell read_only_exists
  read_only_type_from_name read_only_type_from_suffix
  read_only_interface_from_name : read_only.

Lemma read_only_interface_for_qname (qname : string) :
  read_only (interface_for_qname qname).
Proof. unfold interface_for_qname. read_only_tac. Qed.

Lemma read_only_heap_get (p : payload) : read_only (heap_get p).
Proof. unfold heap_get. read_only_tac. Qed.

Lemma read_only_param_declared (formal : arg_node) : read_only (param_declared formal).
Proof. unfold param_declared, declared_of_suffix_name. read_only_tac. Qed.

#[local] Hint Resolve read_only_interface_for_qname read_only_heap_get
  read_only_param_declared : read_only.

Lemma read_only_params_conform (formals : list arg_node) :
  forall required, read_only (params_conform formals required).
Proof.
  induction formals as [|formal formals IH]; intros [|req required]; simpl;
    try apply read_only_ret.
  read_only_tac.
Qed.

#[local] Hint Resolve read_only_params_conform : read_only.

Lemma read_only_object_satisfies_interface (fuel : nat) :
  forall interface_name val,
    read_only (object_satisfies_interface fuel interface_name val).
Proof.
  induction fuel as [|fuel IH]; intros iname val; simpl; [apply read_only_out_of_fuel|].
  destruct iname as [iname|]; [|apply read_only_ret].
  destruct (bool_decide (val_t val <> OBJECT)); [apply read_only_ret|].
  destruct (is_none (val_v val)); [apply read_only_ret|].
  apply read_only_bind; [auto with read_only|]. intros itab.
  destruct (Dict.get iname itab) as [fields|]; [|apply read_only_error].
  apply read_only_bind; [auto with read_only|]. intros [object_fields|];
    [|apply read_only_error].
  induction fields as [|[fname spec] rest IHf]; [apply read_only_ret|].
  destruct (Dict.get fname object_fields) as [c|]; [|apply read_only_ret].
  apply read_only_bind; [auto with read_only|]. intros field_val.
  destruct spec as [ty finterface | required_params].
  - destruct (bool_decide (val_t field_val <> ty)); [apply read_only_ret|].
    destruct finterface as [fi|]; [|exact IHf].
    destruct (bool_decide (val_t field_val <> OBJECT)); [apply read_only_ret|].
    apply read_only_bind; [apply IH|]. intros ok.
    destruct (negb ok); [apply read_only_ret | exact IHf].
  - destruct (_ || _)%bool; [apply read_only_ret|].
    destruct (val_v field_val); try apply read_only_raise.
    destruct (negb _); [apply read_only_ret|].
    apply read_only_bind; [auto with read_only|]. intros ok.
    destruct (negb ok); [apply read_only_ret | exact IHf].
Qed.

Lemma read_only_check_interface (fuel : nat) (expected : option string) (value : Value) :
  read_only (check_interface fuel expected value).
Proof.
  unfold check_interface. destruct expected; [|apply read_only_ret].
  apply read_only_bind; [apply read_only_object_satisfies_interface|].
  intros ok. apply read_only_error_if.
Qed.

Lemma read_only_check_assign_type (left_type : Type_) (value : Value) :
  read_only (check_assign_type left_type value).
Proof. unfold check_assign_type. read_only_tac. Qed.

#[local] Hint Resolve read_only_check_interface read_only_check_assign_type : read_only.

Lemma read_only_get_qname_cell_loop (intermediates : list string) :
  forall current_val, read_only (get_qname_cell_loop intermediates current_val).
Proof.
  induction intermediates as [|field rest IH]; intros current_val; simpl.
  - apply read_only_ret.
  - read_only_tac.
Qed.

Lemma read_only_get_qname_cell_final (final_field : string) (current_val : Value) :
  read_only (get_qname_cell_final final_field current_val).
Proof. unfold get_qname_cell_final. read_only_tac. Qed.

#[local] Hint Resolve read_only_get_qname_cell_loop read_only_get_qname_cell_final
  : read_only.

Lemma read_only_get_qname_cell (qname : string) : read_only (get_qname_cell qname).
Proof. unfold get_qname_cell. read_only_tac. Qed.

#[local] Hint Resolve read_only_get_qname_cell : read_only.

(* --------------------------------------------------------------------- *)
(** ** Calls: the interface of a ref argument *)
(* --------------------------------------------------------------------- *)

(** C7, counterexample: the argument name [ao] carries no interface, the
    formal [pA] carries [A]; the call is accepted and the callee's write
    shows in the caller. *)
Lemma ref_argument_without_interface_accepted :
  interface_for_qname "ao" (Interp_init []) = Ok (None, Interp_init [])
  /\ interface_for_qname "pA" (Interp_init []) = Ok (Some "A", Interp_init [])
  /\ argument_binding "pA" true (Some "A") (QualifiedName "ao") (mkValue OBJECT PNone)
       ref_caller_state
     = Ok (RefBinding "pA" 0%nat, ref_caller_state)
  /\ run_output 20 prog_ref_without_interface [] = Ok ["3"].
Proof. split; [|split; [|split]]; vm_compute; reflexivity. Qed.

(** C7, amended: for a ref formal that carries an interface and a
    qualified-name argument, an interface derived from the argument name
    that differs from the formal's is a Type error, whatever the value
    bound; an argument name that carries no interface, or the same
    interface, passes this check and the argument is resolved to its
    cell. *)
Theorem ref_interface_mismatch_is_type_error
  (pname iface actual_name : string) (bind_val : Value) (st st1 : Interp)
  (arg_interface : option string) :
  interface_for_qname actual_name st = Ok (arg_interface, st1) ->
  (forall other, arg_interface = Some other -> other <> iface ->
     argument_binding pname true (Some iface) (QualifiedName actual_name) bind_val st
     = Error TYPE_ERROR)
  /\ (arg_interface = None \/ arg_interface = Some iface ->
      argument_binding pname true (Some iface) (QualifiedName actual_name) bind_val st
      = bind (get_qname_cell actual_name) (fun cell => ret (RefBinding pname cell)) st).
Proof.
  intros Hi. pose proof (read_only_interface_for_qname _ _ _ _ Hi) as ->.
  unfold argument_binding. split.
  - intros other -> Hne. unfold bind at 1 2. rewrite Hi.
    rewrite !bool_decide_eq_true_2 by congruence. reflexivity.
  - intros Hok. unfold bind at 1 2. rewrite Hi.
    destruct Hok as [-> | ->].
    + rewrite (bool_decide_eq_false_2 (None <> None)) by congruence. reflexivity.
    + rewrite (bool_decide_eq_false_2 (Some iface <> Some iface)) by congruence.
      rewrite andb_false_r. reflexivity.
Qed.

Lemma ref_interface_mismatch_is_type_error_witness :
  argument_binding "pA" true (Some "A") (QualifiedName "aB") (mkValue OBJECT PNone)
    (Interp_init [])
  = Error TYPE_ERROR.
Proof.
  refine (proj1 (ref_interface_mismatch_is_type_error "pA" "A" "aB"
                   (mkValue OBJECT PNone) (Interp_init []) (Interp_init [])
                   (Some "B") eq_refl) "B" eq_refl _).
  discriminate.
Defined.

(* --------------------------------------------------------------------- *)
(** ** Dictionaries and the activation frame *)
(* --------------------------------------------------------------------- *)

Lemma Dict_get_set_eq {V} (k : string) (x : V) (d : list (string * V)) :
  Dict.get k (Dict.set k x d) = Some x.
Proof.
  induction d as [|[k' y] rest IH]; simpl.
  - now rewrite String.eqb_refl.
  - destruct (String.eqb k k') eqn:Hk; simpl; rewrite Hk; [reflexivity | exact IH].
Qed.

Lemma Dict_get_set_ne {V} (k k' : string) (x : V) (d : list (string * V)) :
  k <> k' -> Dict.get k' (Dict.set k x d) = Dict.get k' d.
Proof.
  intros Hne. induction d as [|[k0 y] rest IH]; simpl.
  - destruct (String.eqb_spec k' k); [congruence | reflexivity].
  - destruct (String.eqb_spec k k0) as [->|Hk]; simpl.
    + destruct (String.eqb_spec k' k0); [congruence | reflexivity].
    + destruct (String.eqb_spec k' k0); [reflexivity | exact IH].
Qed.

Lemma Dict_mem_false {V} (k : string) (d : list (string * V)) :
  Dict.mem k d = false -> Dict.get k d = None.
Proof. unfold Dict.mem. now destruct (Dict.get k d). Qed.

Lemma alter_last_snoc {A} (f : A -> A) (l : list A) (x : A) :
  alter_last f (l ++ [x]) = l ++ [f x].
Proof.
  induction l as [|y l IH]; [reflexivity|].
  simpl. rewrite IH. now destruct l.
Qed.

(** Looking a name up on a stack whose current frame has a single block. *)
Lemma lookup_single_block (below : env_stack) (blk : block) (name : string) (c : nat) :
  Dict.get name blk = Some c ->
  Environment.lookup (below ++ [[blk]]) name = Some c.
Proof.
  intros H. unfold Environment.lookup. rewrite rev_app_distr. simpl. now rewrite H.
Qed.

Lemma envs_insert_lookup (st : Interp) (e e' : env_stack) :
  envs st !! env st = Some e ->
  <[env st := e']> (envs st) !! env st = Some e'.
Proof.
  intros He. apply list_lookup_insert_eq. now apply lookup_lt_Some in He.
Qed.

Lemma fdef_function_cell_single (st : Interp) (below : env_stack) (blk : block)
  (varname : string) (cell : nat) :
  envs st !! env st = Some (below ++ [[blk]]) ->
  Environment.fdef_function_cell varname cell st
  = if Dict.mem varname blk then Ok (false, st)
    else Ok (true, with_envs (<[env st := below ++ [[Dict.set varname cell blk]]]> (envs st)) st).
Proof.
  intros He. unfold Environment.fdef_function_cell, Environment.exists_in_function_scope,
    Environment.top_frame.
  rewrite (bind_Ok _ _ st st (Dict.mem varname blk)).
  - destruct (Dict.mem varname blk); [reflexivity|].
    rewrite (bind_Ok _ _ _ _ _ (self_env_Ok _ _ He)).
    unfold Environment.set_self_env, modify, bind, ret.
    now rewrite (alter_last_snoc _ below [blk]).
  - rewrite (bind_Ok _ _ st st [blk]).
    + reflexivity.
    + rewrite (bind_Ok _ _ _ _ _ (self_env_Ok _ _ He)). now rewrite last_snoc.
Qed.

Lemma fdef_function_single (st : Interp) (below : env_stack) (blk : block)
  (varname : string) (value : Value) :
  envs st !! env st = Some (below ++ [[blk]]) ->
  Environment.fdef_function varname value st
  = if Dict.mem varname blk then Ok (false, st)
    else Ok (true,
             with_envs (<[env st := below ++ [[Dict.set varname (length (cells st)) blk]]]>
                          (envs st))
               (with_cells (cells st ++ [value]) st)).
Proof.
  intros He. unfold Environment.fdef_function, Environment.exists_in_function_scope,
    Environment.top_frame.
  rewrite (bind_Ok _ _ st st (Dict.mem varname blk)).
  - destruct (Dict.mem varname blk); [reflexivity|].
    unfold Cell_new. unfold bind at 1.
    rewrite (bind_Ok _ _ _ _ _ (self_env_Ok (with_cells (cells st ++ [value]) st) _ He)).
    unfold Environment.set_self_env, modify, bind, ret.
    now rewrite (alter_last_snoc _ below [blk]).
  - rewrite (bind_Ok _ _ st st [blk]).
    + reflexivity.
    + rewrite (bind_Ok _ _ _ _ _ (self_env_Ok _ _ He)). now rewrite last_snoc.
Qed.

Lemma enter_func_Ok (st : Interp) (e : env_stack) :
  envs st !! env st = Some e ->
  Environment.enter_func st
  = Ok (tt, with_envs (<[env st := e ++ [[[]]]]> (envs st)) st).
Proof.
  intros He. unfold Environment.enter_func.
  now rewrite (bind_Ok _ _ _ _ _ (self_env_Ok _ _ He)).
Qed.

(** The second loop of [invoke_function], run on a frame that has its
    initial block only, leaves every ref formal bound to the cell of its
    binding entry. *)
Lemma install_bindings_binds (bindings : list binding) :
  forall (st1 st2 : Interp) (below : env_stack) (blk : block),
    envs st1 !! env st1 = Some (below ++ [[blk]]) ->
    install_bindings bindings st1 = Ok (tt, st2) ->
    exists blk',
      envs st2 !! env st2 = Some (below ++ [[blk']])
      /\ (forall p c, Dict.get p blk = Some c -> Dict.get p blk' = Some c)
      /\ (forall p c, In (RefBinding p c) bindings -> Dict.get p blk' = Some c).
Proof.
  induction bindings as [|b rest IH]; intros st1 st2 below blk He H; simpl in H.
  - injection H as <-. exists blk. repeat split; [assumption | auto | intros p c []].
  - destruct b as [pname cell | pname val].
    + apply bind_inv_Ok in H as (ok & sta & Hdef & H).
      rewrite (fdef_function_cell_single _ _ _ _ _ He) in Hdef.
      destruct (Dict.mem pname blk) eqn:Hmem; injection Hdef as <- <-; [discriminate|].
      unfold error_if in H; cbn [negb] in H; rewrite bind_ret in H.
      apply IH with (below := below) (blk := Dict.set pname cell blk) in H.
      * destruct H as (blk' & He' & Hold & Hnew). exists blk'.
        split; [assumption|]. split.
        -- intros p c Hp. apply Hold. rewrite Dict_get_set_ne; [assumption|].
           intros ->. apply Dict_mem_false in Hmem. congruence.
        -- intros p c [[= -> ->] | Hin]; [|now apply Hnew].
           apply Hold, Dict_get_set_eq.
      * simpl. now apply envs_insert_lookup with (e := below ++ [[blk]]).
    + apply bind_inv_Ok in H as (ok & sta & Hdef & H).
      rewrite (fdef_function_single _ _ _ _ _ He) in Hdef.
      destruct (Dict.mem pname blk) eqn:Hmem; injection Hdef as <- <-; [discriminate|].
      unfold error_if in H; cbn [negb] in H; rewrite bind_ret in H.
      apply IH with (below := below) (blk := Dict.set pname (length (cells st1)) blk) in H.
      * destruct H as (blk' & He' & Hold & Hnew). exists blk'.
        split; [assumption|]. split.
        -- intros p c Hp. apply Hold. rewrite Dict_get_set_ne; [assumption|].
           intros ->. apply Dict_mem_false in Hmem. congruence.
        -- intros p c [[=] | Hin]. now apply Hnew.
      * simpl. now apply envs_insert_lookup with (e := below ++ [[blk]]).
Qed.

(* --------------------------------------------------------------------- *)
(** ** Assignment to a plain identifier *)
(* --------------------------------------------------------------------- *)

Lemma split_dot_aux_no_dot (s : string) :
  forall cur, Py.has_dot s = false -> Py.split_dot_aux cur s = [(cur +:+ s)%string].
Proof.
  induction s as [|c rest IH]; intros cur H; simpl in *.
  - now rewrite append_empty_r.
  - destruct (Ascii.eqb c "."); [discriminate|].
    rewrite (IH _ H). now rewrite append_assoc.
Qed.

Lemma split_dot_no_dot (s : string) :
  Py.has_dot s = false -> Py.split_dot s = [s].
Proof. intros H. unfold Py.split_dot. now rewrite split_dot_aux_no_dot. Qed.

Lemma check_assign_type_payload (left_type : Type_) (value value' : Value)
  (st st' : Interp) :
  check_assign_type left_type value st = Ok (value', st') ->
  val_v value' = val_v value /\ (is_nil_value value = false -> value' = value).
Proof.
  unfold check_assign_type. rewrite is_nil_like_is_nil_value.
  destruct (is_nil_value value) eqn:Hnil.
  - destruct (type_in left_type [OBJECT; FUNCTION]); [|discriminate].
    intros [= <- _]. split; [|discriminate]. simpl.
    unfold is_nil_value in Hnil. apply andb_true_iff in Hnil as [_ Hn].
    now destruct (val_v value).
  - assert (Hk : forall cond, bind (error_if cond TYPE_ERROR) (fun _ => ret value) st
                              = Ok (value', st') -> value' = value).
    { intros []; [discriminate | now intros [= <- _]]. }
    intros H. enough (value' = value) by (subst; auto).
    repeat match type of H with
           | context [if ?b then _ else _] => destruct b
           end; now apply Hk in H.
Qed.

(** An assignment to a plain identifier stores the checked value in the
    cell that the lookup of the identifier returns. *)
Lemma set_qname_value_plain (fuel : nat) (name : string) (value : Value)
  (st st' : Interp) (e : env_stack) (cell : nat) :
  Py.has_dot name = false ->
  envs st !! env st = Some e ->
  Environment.lookup e name = Some cell ->
  set_qname_value fuel name value st = Ok (tt, st') ->
  exists left_type value',
    check_assign_type left_type value st = Ok (value', st)
    /\ st' = with_cells (<[cell := value']> (cells st)) st.
Proof.
  intros Hdot He Hcell H. unfold set_qname_value in H.
  rewrite (split_dot_no_dot _ Hdot) in H.
  rewrite (bind_Ok _ _ _ _ _ (exists_lookup _ _ name He)) in H.
  rewrite Hcell in H. unfold error_if at 1 in H. cbn [negb] in H. rewrite bind_ret in H.
  apply bind_inv_Ok in H as (left_type & st1 & Hty & H).
  pose proof (read_only_type_from_name _ _ _ _ Hty) as ->.
  apply bind_inv_Ok in H as (iface & st1 & Hif & H).
  pose proof (read_only_interface_from_name _ _ _ _ Hif) as ->.
  apply bind_inv_Ok in H as (value' & st1 & Hchk & H).
  pose proof (read_only_check_assign_type _ _ _ _ _ Hchk) as ->.
  apply bind_inv_Ok in H as ([] & st1 & Hci & H).
  pose proof (read_only_check_interface _ _ _ _ _ _ Hci) as ->.
  rewrite (bind_Ok _ _ _ _ _ (get_current_cell_lookup _ _ name He)) in H.
  rewrite Hcell in H. unfold Cell_set, modify in H. injection H as <-.
  now exists left_type, value'.
Qed.

(* --------------------------------------------------------------------- *)
(** ** Calls: ref parameters *)
(* --------------------------------------------------------------------- *)

Example ref_increment_runs :
  run_output 20 prog_ref_increment [] = Ok ["42"]
  /\ run_output 20 prog_ref_literal [] = Error TYPE_ERROR.
Proof. split; vm_compute; reflexivity. Qed.


(* --------------------------------------------------------------------- *)
(** ** Closure capture *)
(* --------------------------------------------------------------------- *)

Section Capture.

(** [old] is the cell store when the capture starts. *)
Variable old : list Value.

Lemma copy_of_grow (new more : list Value) (c c' : nat) :
  copy_of old new c c' -> copy_of old (new ++ more) c c'.
Proof.
  intros (Hfresh & Hvalid & Hsame). repeat split; try assumption.
  destruct (lookup_lt_is_Some_2 old c Hvalid) as [x Hx].
  rewrite Hx in *. now apply lookup_app_l_Some.
Qed.

Lemma block_copy_grow (new more : list Value) (b b' : block) :
  block_copy old new b b' -> block_copy old (new ++ more) b b'.
Proof.
  unfold block_copy. intros H. eapply Forall2_impl; [exact H|].
  intros x y [Hn Hc]. split; [assumption | now apply copy_of_grow].
Qed.

Lemma frame_copy_grow (new more : list Value) (fr fr' : frame) :
  frame_copy old new fr fr' -> frame_copy old (new ++ more) fr fr'.
Proof.
  unfold frame_copy. intros H. eapply Forall2_impl; [exact H|].
  intros x y Hb. now apply block_copy_grow.
Qed.

Lemma mkValue_eta (val : Value) : mkValue (val_t val) (val_v val) = val.
Proof. now destruct val. Qed.

Lemma capture_block_copy (b : block) :
  forall (st : Interp) (pre : list Value),
    cells st = old ++ pre ->
    block_valid old b ->
    exists b' news,
      capture_block b st = Ok (b', with_cells (cells st ++ news) st)
      /\ block_copy old (cells st ++ news) b b'.
Proof.
  induction b as [|[name c] rest IH]; intros st pre Hst Hvalid; simpl.
  - exists [], []. split; [|constructor].
    unfold ret. rewrite app_nil_r. now destruct st.
  - inversion Hvalid as [|? ? Hc Hrest]; subst. simpl in Hc.
    destruct (lookup_lt_is_Some_2 old c Hc) as [val Hval].
    assert (Hget : Cell_get c st = Ok (val, st)).
    { unfold Cell_get. rewrite Hst. now rewrite (lookup_app_l_Some _ _ _ _ Hval). }
    rewrite (bind_Ok _ _ _ _ _ Hget).
    set (st1 := with_cells (cells st ++ [val]) st).
    assert (Hnew : (if type_in (val_t val) [INT; STRING; BOOL]
                    then Cell_new (mkValue (val_t val) (val_v val))
                    else Cell_new val) st = Ok (length (cells st), st1)).
    { rewrite mkValue_eta. now destruct (type_in _ _). }
    rewrite (bind_Ok _ _ _ _ _ Hnew).
    destruct (IH st1 (pre ++ [val])) as (rest' & news & Hrun & Hcopy).
    { simpl. rewrite Hst. now rewrite app_assoc. }
    { assumption. }
    rewrite (bind_Ok _ _ _ _ _ Hrun). unfold ret.
    exists ((name, length (cells st)) :: rest'), (val :: news).
    simpl in *. rewrite <- app_assoc in *. simpl in *.
    split; [reflexivity|]. constructor; [|assumption].
    split; [reflexivity|]. simpl. repeat split.
    + rewrite Hst, length_app. lia.
    + assumption.
    + rewrite Hval. now apply list_lookup_middle.
Qed.

Lemma capture_frame_copy (fr : frame) :
  forall (st : Interp) (pre : list Value),
    cells st = old ++ pre ->
    Forall (block_valid old) fr ->
    exists fr' news,
      capture_frame fr st = Ok (fr', with_cells (cells st ++ news) st)
      /\ frame_copy old (cells st ++ news) fr fr'.
Proof.
  induction fr as [|b rest IH]; intros st pre Hst Hvalid; simpl.
  - exists [], []. split; [|constructor].
    unfold ret. rewrite app_nil_r. now destruct st.
  - inversion Hvalid as [|? ? Hb Hrest]; subst.
    destruct (capture_block_copy b st pre Hst Hb) as (b' & news1 & Hrun1 & Hcopy1).
    rewrite (bind_Ok _ _ _ _ _ Hrun1).
    destruct (IH (with_cells (cells st ++ news1) st) (pre ++ news1))
      as (rest' & news2 & Hrun2 & Hcopy2).
    { simpl. rewrite Hst. now rewrite app_assoc. }
    { assumption. }
    rewrite (bind_Ok _ _ _ _ _ Hrun2). unfold ret.
    exists (b' :: rest'), (news1 ++ news2).
    simpl in *. rewrite app_assoc.
    split; [reflexivity|]. constructor; [|assumption].
    now apply block_copy_grow.
Qed.

Lemma capture_stack_copy (e : env_stack) :
  forall (st : Interp) (pre : list Value),
    cells st = old ++ pre ->
    Forall (Forall (block_valid old)) e ->
    exists e' news,
      capture_stack e st = Ok (e', with_cells (cells st ++ news) st)
      /\ stack_copy old (cells st ++ news) e e'.
Proof.
  induction e as [|fr rest IH]; intros st pre Hst Hvalid; simpl.
  - exists [], []. split; [|constructor].
    unfold ret. rewrite app_nil_r. now destruct st.
  - inversion Hvalid as [|? ? Hfr Hrest]; subst.
    destruct (capture_frame_copy fr st pre Hst Hfr) as (fr' & news1 & Hrun1 & Hcopy1).
    rewrite (bind_Ok _ _ _ _ _ Hrun1).
    destruct (IH (with_cells (cells st ++ news1) st) (pre ++ news1))
      as (rest' & news2 & Hrun2 & Hcopy2).
    { simpl. rewrite Hst. now rewrite app_assoc. }
    { assumption. }
    rewrite (bind_Ok _ _ _ _ _ Hrun2). unfold ret.
    exists (fr' :: rest'), (news1 ++ news2).
    simpl in *. rewrite app_assoc.
    split; [reflexivity|]. constructor; [|assumption].
    now apply frame_copy_grow.
Qed.

(** Lookups on a stack and on its copy agree, up to the copy relation. *)
Lemma Forall2_rev_rev {A B} (R : A -> B -> Prop) (l : list A) (k : list B) :
  Forall2 R l k -> Forall2 R (rev l) (rev k).
Proof.
  induction 1 as [|x y l k Hxy Hlk IH]; simpl; [constructor|].
  apply Forall2_app; [assumption | now repeat constructor].
Qed.

Lemma Dict_get_copy (new : list Value) (name : string) (b b' : block) :
  block_copy old new b b' ->
  option_Forall2 (copy_of old new) (Dict.get name b) (Dict.get name b').
Proof.
  induction 1 as [|[k c] [k' c'] b b' [Hk Hc] Hrest IH]; simpl in *; [constructor|].
  subst k'. destruct (String.eqb name k); [now constructor | exact IH].
Qed.

Lemma scan_blocks_copy (new : list Value) (name : string) (bs bs' : list block) :
  Forall2 (block_copy old new) bs bs' ->
  option_Forall2 (copy_of old new)
    (Environment.scan_blocks name bs) (Environment.scan_blocks name bs').
Proof.
  induction 1 as [|b b' bs bs' Hb Hrest IH]; simpl; [constructor|].
  destruct (Dict_get_copy new name b b' Hb); [now constructor | exact IH].
Qed.

Lemma scan_frames_copy (new : list Value) (name : string) (frs frs' : list frame) :
  Forall2 (frame_copy old new) frs frs' ->
  option_Forall2 (copy_of old new)
    (Environment.scan_frames name frs) (Environment.scan_frames name frs').
Proof.
  induction 1 as [|fr fr' frs frs' Hfr Hrest IH]; simpl; [constructor|].
  destruct (scan_blocks_copy new name (rev fr) (rev fr'));
    [now apply Forall2_rev_rev | now constructor | exact IH].
Qed.

Lemma lookup_copy (new : list Value) (name : string) (e e' : env_stack) :
  stack_copy old new e e' ->
  option_Forall2 (copy_of old new) (Environment.lookup e name) (Environment.lookup e' name).
Proof. intros H. apply scan_frames_copy. now apply Forall2_rev_rev. Qed.

End Capture.

(** The closure keeps the scalar it captured and sees the object's new
    field value. *)
Example closure_runs :
  run_output 20 prog_closure_scalar [] = Ok ["11"]
  /\ run_output 20 prog_closure_object [] = Ok ["2"].
Proof. split; vm_compute; reflexivity. Qed.


(* --------------------------------------------------------------------- *)
(** ** Dotted names: the checks on an intermediate segment *)
(* --------------------------------------------------------------------- *)

Lemma heap_get_object (id : Z) (st : Interp) :
  heap_get (PInt id) st = Ok (heap st !! id, st).
Proof. reflexivity. Qed.

(** Reading and writing a dotted name: at an intermediate segment the
    current value must be an Object (Type error), not nil (Fault error),
    the field must exist (Name error) and the field name must be
    Object-typed (Type error).  [set_qname_value] runs this same loop. *)
Lemma get_qname_cell_loop_checks (field : string) (rest : list string)
  (current_val : Value) (st : Interp) :
  (val_t current_val <> OBJECT ->
   get_qname_cell_loop (field :: rest) current_val st = Error TYPE_ERROR)
  /\ (val_t current_val = OBJECT -> val_v current_val = PNone ->
      get_qname_cell_loop (field :: rest) current_val st = Error FAULT_ERROR)
  /\ (forall id obj_fields,
        val_t current_val = OBJECT -> val_v current_val = PInt id ->
        heap st !! id = Some obj_fields ->
        (Dict.get field obj_fields = None ->
         get_qname_cell_loop (field :: rest) current_val st = Error NAME_ERROR)
        /\ (forall c val ty,
              Dict.get field obj_fields = Some c -> cells st !! c = Some val ->
              type_from_name field st = Ok (ty, st) ->
              get_qname_cell_loop (field :: rest) current_val st
              = if bool_decide (ty <> OBJECT) then Error TYPE_ERROR
                else get_qname_cell_loop rest val st)).
Proof.
  destruct current_val as [ty p]. simpl. split; [|split].
  - intros Hty. unfold bind at 1.
    now rewrite bool_decide_eq_true_2 by assumption.
  - intros -> ->. reflexivity.
  - intros id obj_fields -> -> Hheap.
    assert (Hstep : forall k : option (list (string * nat)) -> M Value,
               bind (error_if (bool_decide (OBJECT <> OBJECT)) TYPE_ERROR)
                 (fun _ => bind (error_if (is_none (PInt id)) FAULT_ERROR)
                    (fun _ => bind (heap_get (PInt id)) k)) st
               = k (Some obj_fields) st).
    { intros k. rewrite bool_decide_eq_false_2 by congruence.
      unfold error_if, is_none. rewrite !bind_ret.
      rewrite (bind_Ok _ _ _ _ _ (heap_get_object id st)). now rewrite Hheap. }
    rewrite Hstep. split.
    + now intros ->.
    + intros c val ty' -> Hc Hty'.
      assert (Hget : Cell_get c st = Ok (val, st)) by (unfold Cell_get; now rewrite Hc).
      rewrite (bind_Ok _ _ _ _ _ Hget), (bind_Ok _ _ _ _ _ Hty').
      now destruct (bool_decide (ty' <> OBJECT)).
Qed.

(** The loop of a dotted call, at a field whose name is not Object-typed:
    no error is raised for it, the walk goes on with the field's value. *)
Lemma get_qname_cell_and_owner_loop_no_name_check (field : string) (rest : list string)
  (id : Z) (obj_fields : list (string * nat)) (c : nat) (val : Value) (ty : Type_)
  (owner : option Value) (st : Interp) :
  heap st !! id = Some obj_fields ->
  Dict.get field obj_fields = Some c ->
  cells st !! c = Some val ->
  type_from_name field st = Ok (ty, st) ->
  ty <> OBJECT ->
  get_qname_cell_and_owner_loop (field :: rest) (mkValue OBJECT (PInt id)) owner st
  = get_qname_cell_and_owner_loop rest val owner st.
Proof.
  intros Hheap Hfield Hc Hty Hne. simpl. rewrite !bind_ret.
  rewrite (bind_Ok _ _ _ _ _ (heap_get_object id st)). rewrite Hheap, Hfield.
  assert (Hget : Cell_get c st = Ok (val, st)) by (unfold Cell_get; now rewrite Hc).
  rewrite (bind_Ok _ _ _ _ _ Hget), (bind_Ok _ _ _ _ _ Hty).
  now rewrite bool_decide_eq_false_2 by assumption.
Qed.

(** C6, at the failing input: the intermediate segment [gf] is
    Function-typed by its name.  Reading [ao.gf.xi] and writing [ao.gf.xi]
    stop with a Type error; the dotted call [ao.gf.hf()] resolves and runs
    the method. *)
Theorem dotted_call_skips_field_name_check :
  run_output 30 (prog_object_in_function_field
                   (Fcall "print" [QualifiedName "ao.gf.xi"])) []
  = Error TYPE_ERROR
  /\ run_output 30 (prog_object_in_function_field
                      (Assign "ao.gf.xi" (IntNode 1))) []
     = Error TYPE_ERROR
  /\ run_output 30 (prog_object_in_function_field (Fcall "ao.gf.hf" [])) []
     = Ok ["reached"].
Proof. split; [|split]; vm_compute; reflexivity. Qed.

(* ===================================================================== *)
(** * Further properties of the interpreter *)
(* ===================================================================== *)

(* --------------------------------------------------------------------- *)
(** ** Binary operators *)
(* --------------------------------------------------------------------- *)

Lemma py_eq_sym (a b : payload) : py_eq a b = py_eq b a.
Proof.
  destruct a, b; simpl; try reflexivity.
  - apply Z.eqb_sym.
  - apply Z.eqb_sym.
  - apply String.eqb_sym.
  - apply Z.eqb_sym.
  - now destruct b, b0.
  - apply Nat.eqb_sym.
Qed.

(** X1: [!=] is the negation of [==].  On any two values both operators
    end the same way: either both return a Bool, one the negation of the
    other, without touching the state, or both stop on the host's
    AttributeError (a Function tag on a payload that is no function
    object).  Neither ever signals a Name, Type or Fault error. *)
Theorem ne_is_negated_eq (vl vr : Value) (st : Interp) :
  (exists b, eval_binary_op OpEq vl vr st = Ok (vbool b, st)
             /\ eval_binary_op OpNe vl vr st = Ok (vbool (negb b), st))
  \/ (eval_binary_op OpEq vl vr st = Raise "AttributeError"
      /\ eval_binary_op OpNe vl vr st = Raise "AttributeError").
Proof.
  unfold eval_binary_op. simpl.
  destruct (is_nil_value vl && is_nil_value vr)%bool; [left; now eexists|].
  destruct (is_nil_value vl || is_nil_value vr)%bool; [left; now eexists|].
  destruct (bool_decide (val_t vl = OBJECT) && bool_decide (val_t vr = OBJECT))%bool;
    [left; now eexists|].
  destruct (bool_decide (val_t vl = FUNCTION) && bool_decide (val_t vr = FUNCTION))%bool.
  - destruct (val_v vl) as [| | | |fvl]; try (right; split; reflexivity).
    destruct (val_v vr) as [| | | |fvr]; try (right; split; reflexivity).
    left. unfold as_fun. rewrite !bind_ret.
    destruct (fn_is_func_elem (func_ast fvl) && fn_is_func_elem (func_ast fvr))%bool;
      [now eexists|].
    destruct (negb (fn_is_func_elem (func_ast fvl))
              && negb (fn_is_func_elem (func_ast fvr)))%bool; now eexists.
  - destruct (bool_decide (val_t vl = val_t vr)); left; now eexists.
Qed.

(** X2: [==] is symmetric: swapping the operands gives the same outcome. *)
Theorem eq_is_symmetric (vl vr : Value) (st : Interp) :
  eval_binary_op OpEq vl vr st = eval_binary_op OpEq vr vl st.
Proof.
  unfold eval_binary_op. simpl.
  rewrite (andb_comm (is_nil_value vr)), (orb_comm (is_nil_value vr)).
  destruct (is_nil_value vl && is_nil_value vr)%bool; [reflexivity|].
  destruct (is_nil_value vl || is_nil_value vr)%bool; [reflexivity|].
  rewrite (andb_comm (bool_decide (val_t vr = OBJECT))).
  destruct (bool_decide (val_t vl = OBJECT) && bool_decide (val_t vr = OBJECT))%bool.
  { now rewrite py_eq_sym. }
  rewrite (andb_comm (bool_decide (val_t vr = FUNCTION))).
  destruct (bool_decide (val_t vl = FUNCTION) && bool_decide (val_t vr = FUNCTION))%bool.
  - destruct (val_v vl) as [| | | |fvl], (val_v vr) as [| | | |fvr]; try reflexivity.
    unfold as_fun. rewrite !bind_ret.
    rewrite (andb_comm (fn_is_func_elem (func_ast fvr))).
    rewrite (andb_comm (negb (fn_is_func_elem (func_ast fvr)))).
    rewrite (Nat.eqb_sym (fv_id fvr)), (Nat.eqb_sym (fn_node_id (func_ast fvr))).
    unfold eq_type_list.
    rewrite (bool_decide_ext (param_types fvr = param_types fvl)
               (param_types fvl = param_types fvr)) by (split; congruence).
    reflexivity.
  - rewrite (bool_decide_ext (val_t vr = val_t vl) (val_t vl = val_t vr))
      by (split; congruence).
    now rewrite py_eq_sym.
Qed.

(** X3: operands of different tags.  Every arithmetic, ordering and
    logical operator ends in a Type error; [==] is not an error but
    false, unless both operands are nil (a nil Object equals a nil
    Function). *)
Theorem mixed_tag_operands (kind : bop) (vl vr : Value) (st : Interp) :
  val_t vl <> val_t vr ->
  (kind <> OpEq -> kind <> OpNe -> eval_binary_op kind vl vr st = Error TYPE_ERROR)
  /\ eval_binary_op OpEq vl vr st
     = Ok (vbool (is_nil_value vl && is_nil_value vr), st).
Proof.
  intros Hne. split.
  - intros H1 H2. unfold eval_binary_op.
    rewrite (bool_decide_eq_false_2 (kind = OpEq)), (bool_decide_eq_false_2 (kind = OpNe))
      by assumption. simpl.
    destruct (val_t vl), (val_t vr); try contradiction; simpl; try reflexivity;
      destruct kind; reflexivity.
  - unfold eval_binary_op. simpl.
    destruct (is_nil_value vl) eqn:Hl, (is_nil_value vr) eqn:Hr; simpl; try reflexivity.
    rewrite (bool_decide_eq_false_2 (val_t vl = val_t vr)) by assumption.
    destruct (val_t vl), (val_t vr); try contradiction; reflexivity.
Qed.

Lemma mixed_tag_operands_witness :
  eval_binary_op OpAdd (vint 1) (vstr "a") (Interp_init []) = Error TYPE_ERROR
  /\ eval_binary_op OpEq (vint 1) (vstr "1") (Interp_init [])
     = Ok (vbool false, Interp_init [])
  /\ eval_binary_op OpEq (mkValue OBJECT PNone) (mkValue FUNCTION PNone) (Interp_init [])
     = Ok (vbool true, Interp_init []).
Proof.
  split; [|split].
  - apply (mixed_tag_operands OpAdd (vint 1) (vstr "a") (Interp_init []));
      discriminate.
  - apply (mixed_tag_operands OpAdd (vint 1) (vstr "1") (Interp_init [])).
    discriminate.
  - apply (mixed_tag_operands OpAdd (mkValue OBJECT PNone) (mkValue FUNCTION PNone)
             (Interp_init [])).
    discriminate.
Defined.

(** X4: the domain of the operators.  [-], [*], [/] and the four
    orderings are defined on Int only, [&&] and [||] on Bool only, [+] on
    Int and on String only: with a left operand of any other tag the
    operator ends in a Type error, whatever the right operand.  In
    particular strings cannot be ordered and objects, functions and Void
    values support equality only. *)
Theorem operator_outside_domain (kind : bop) (vl vr : Value) (st : Interp) :
  (forall ty, operator_domain kind = Some ty -> val_t vl <> ty ->
     eval_binary_op kind vl vr st = Error TYPE_ERROR)
  /\ (kind = OpAdd -> val_t vl <> INT -> val_t vl <> STRING ->
      eval_binary_op kind vl vr st = Error TYPE_ERROR).
Proof.
  split.
  - intros ty Hdom Hty. unfold eval_binary_op.
    destruct kind; try discriminate; injection Hdom as <-; simpl;
      destruct (val_t vl), (val_t vr); try contradiction; reflexivity.
  - intros -> H1 H2. unfold eval_binary_op. simpl.
    destruct (val_t vl), (val_t vr); try contradiction; reflexivity.
Qed.

Lemma operator_outside_domain_witness :
  eval_binary_op OpLt (vstr "a") (vstr "b") (Interp_init []) = Error TYPE_ERROR
  /\ eval_binary_op OpAdd (vbool true) (vbool true) (Interp_init []) = Error TYPE_ERROR.
Proof.
  split.
  - apply (proj1 (operator_outside_domain OpLt (vstr "a") (vstr "b") (Interp_init []))
             INT eq_refl).
    discriminate.
  - apply (proj2 (operator_outside_domain OpAdd (vbool true) (vbool true) (Interp_init []))
             eq_refl); discriminate.
Defined.

Lemma new_object_Ok (st : Interp) :
  new_object st
  = Ok (vobj (next_obj_id st),
        with_heap (<[next_obj_id st := []]> (heap st))
          (with_next_obj_id (next_obj_id st + 1) st)).
Proof. reflexivity. Qed.

(** X5: object references compare by identity.  Two objects made by
    successive [new_object] calls are different, each is equal to itself,
    two non-nil Object values are equal exactly when their heap ids are,
    and a nil value differs from every non-nil value. *)
Theorem object_equality_is_identity (st : Interp) :
  (exists o1 st1 o2 st2,
     new_object st = Ok (o1, st1) /\ new_object st1 = Ok (o2, st2)
     /\ eval_binary_op OpEq o1 o2 st2 = Ok (vbool false, st2)
     /\ eval_binary_op OpEq o1 o1 st2 = Ok (vbool true, st2)
     /\ eval_binary_op OpEq o2 o2 st2 = Ok (vbool true, st2))
  /\ (forall id1 id2,
        eval_binary_op OpEq (vobj id1) (vobj id2) st = Ok (vbool (Z.eqb id1 id2), st))
  /\ (forall vl vr,
        is_nil_value vl = true -> is_nil_value vr = false ->
        eval_binary_op OpEq vl vr st = Ok (vbool false, st)
        /\ eval_binary_op OpEq vr vl st = Ok (vbool false, st)).
Proof.
  split; [|split].
  - do 4 eexists. split; [apply new_object_Ok|]. split; [apply new_object_Ok|].
    unfold eval_binary_op, vobj. simpl. rewrite !Z.eqb_refl.
    replace (Z.eqb (next_obj_id st) (next_obj_id st + 1)) with false
      by (symmetry; apply Z.eqb_neq; lia).
    repeat split.
  - intros id1 id2. reflexivity.
  - intros vl vr Hl Hr. unfold eval_binary_op. simpl. rewrite Hl, Hr. now split.
Qed.

Lemma object_equality_is_identity_witness :
  eval_binary_op OpEq (mkValue OBJECT PNone) (vobj 1) (Interp_init [])
  = Ok (vbool false, Interp_init []).
Proof.
  apply (proj2 (proj2 (object_equality_is_identity (Interp_init [])))
           (mkValue OBJECT PNone) (vobj 1)); reflexivity.
Defined.

(** X6: [&&] and [||] are strict.  The right operand of a binary operator
    is evaluated whatever the left operand is: when its evaluation ends in
    an error, so does the whole expression, also for [false && e] and
    [true || e]. *)
Theorem binary_operators_are_strict
  (fuel : nat) (eval : expr -> M Value) (exec : list stmt -> M (Value * bool))
  (kind : bop) (op1 op2 : expr) (l : Value) (st st1 : Interp) (err : ErrorType) :
  eval op1 st = Ok (l, st1) ->
  eval op2 st1 = Error err ->
  eval_expr_body fuel eval exec (BinOp kind op1 op2) st = Error err.
Proof.
  intros H1 H2. simpl. rewrite (bind_Ok _ _ _ _ _ H1). now apply bind_Error.
Qed.

Lemma binary_operators_are_strict_witness :
  eval_expr_body 3 (eval_expr 3) (run_statements 3)
    (BinOp OpAnd (BoolNode false) (Neg (StringNode "a"))) (Interp_init [])
  = Error TYPE_ERROR.
Proof.
  apply (binary_operators_are_strict 3 (eval_expr 3) (run_statements 3) OpAnd
           (BoolNode false) (Neg (StringNode "a")) (vbool false)
           (Interp_init []) (Interp_init []) TYPE_ERROR); reflexivity.
Defined.

(* --------------------------------------------------------------------- *)
(** ** Function values *)
(* --------------------------------------------------------------------- *)

Lemma make_named_function_value_inv (name : string) (st st' : Interp) (val : Value) :
  make_named_function_value name st = Ok (val, st') ->
  exists key func_def,
    filter (fun kf => String.eqb (fst (fst kf)) name = true) (funcs st)
    = [(key, func_def)]
    /\ val = mkValue FUNCTION
               (PFun (mkFunctionValue (next_fv_id st) func_def (snd key) None))
    /\ st' = with_next_fv_id (S (next_fv_id st)) st.
Proof.
  unfold make_named_function_value. unfold bind at 1. unfold gets at 1.
  destruct (filter _ (funcs st)) as [|[key func_def] [|]]; try discriminate.
  intros [= <- <-]. now exists key, func_def.
Qed.

(** X7: a bare reference to a top-level function builds a new function
    object each time.  Two references to the same function are therefore
    equal under [==] only if the parser does not give function
    definitions the element type of function literals: when it does, the
    comparison is by object identity and [f == f] is false for a named
    function [f], while each reference is still equal to itself. *)
Theorem named_function_references (name : string) (st st1 st2 : Interp) (v1 v2 : Value) :
  make_named_function_value name st = Ok (v1, st1) ->
  make_named_function_value name st1 = Ok (v2, st2) ->
  exists fv1 fv2,
    v1 = mkValue FUNCTION (PFun fv1) /\ v2 = mkValue FUNCTION (PFun fv2)
    /\ func_ast fv1 = func_ast fv2
    /\ closure_env fv1 = None /\ closure_env fv2 = None
    /\ fv_id fv2 = S (fv_id fv1)
    /\ eval_binary_op OpEq v1 v2 st2
       = Ok (vbool (negb (fn_is_func_elem (func_ast fv1))), st2)
    /\ eval_binary_op OpEq v1 v1 st2 = Ok (vbool true, st2).
Proof.
  intros H1 H2.
  apply make_named_function_value_inv in H1 as (k1 & f1 & Hf1 & -> & ->).
  apply make_named_function_value_inv in H2 as (k2 & f2 & Hf2 & -> & ->).
  simpl in Hf2. rewrite Hf1 in Hf2. injection Hf2 as <- <-.
  do 2 eexists. repeat (split; [reflexivity|]). simpl.
  unfold eval_binary_op. simpl. unfold eq_type_list. rewrite !bind_ret. simpl.
  rewrite !Nat.eqb_refl, (bool_decide_eq_true_2 (snd k1 = snd k1)) by reflexivity.
  replace (Nat.eqb (next_fv_id st) (S (next_fv_id st))) with false
    by (symmetry; apply Nat.eqb_neq; lia).
  split; now destruct (fn_is_func_elem f1).
Qed.

Lemma named_function_references_witness :
  exists fv1 fv2,
    mkValue FUNCTION (PFun (mkFunctionValue 0 pv_int [INT] None))
    = mkValue FUNCTION (PFun fv1)
    /\ mkValue FUNCTION (PFun (mkFunctionValue 1 pv_int [INT] None))
       = mkValue FUNCTION (PFun fv2)
    /\ func_ast fv1 = func_ast fv2
    /\ closure_env fv1 = None /\ closure_env fv2 = None
    /\ fv_id fv2 = S (fv_id fv1)
    /\ eval_binary_op OpEq (mkValue FUNCTION (PFun (mkFunctionValue 0 pv_int [INT] None)))
         (mkValue FUNCTION (PFun (mkFunctionValue 1 pv_int [INT] None)))
         (with_next_fv_id 2 single_function_state)
       = Ok (vbool (negb (fn_is_func_elem (func_ast fv1))),
             with_next_fv_id 2 single_function_state)
    /\ eval_binary_op OpEq (mkValue FUNCTION (PFun (mkFunctionValue 0 pv_int [INT] None)))
         (mkValue FUNCTION (PFun (mkFunctionValue 0 pv_int [INT] None)))
         (with_next_fv_id 2 single_function_state)
       = Ok (vbool true, with_next_fv_id 2 single_function_state).
Proof.
  apply (named_function_references "pv" single_function_state
           (with_next_fv_id 1 single_function_state)
           (with_next_fv_id 2 single_function_state)); reflexivity.
Defined.

(** X8: a bare name that is not bound in the environment denotes a
    top-level function only when exactly one function has that name: with
    no function of the name, and with two or more overloads of it, the
    reference is a Name error. *)
Theorem bare_function_name_must_be_unique
  (fuel : nat) (eval : expr -> M Value) (exec : list stmt -> M (Value * bool))
  (name : string) (st : Interp) (e : env_stack) :
  Py.has_dot name = false ->
  envs st !! env st = Some e ->
  Environment.lookup e name = None ->
  length (filter (fun kf => fst (fst kf) = name) (funcs st)) <> 1%nat ->
  eval_expr_body fuel eval exec (QualifiedName name) st = Error NAME_ERROR.
Proof.
  intros Hdot He Hun Hlen. simpl. rewrite Hdot.
  rewrite (bind_Ok _ _ _ _ _ (exists_lookup _ _ name He)), Hun.
  unfold make_named_function_value. unfold bind at 1. unfold gets at 1.
  rewrite (list_filter_iff (fun kf => String.eqb (fst (fst kf)) name = true)
             (fun kf => fst (fst kf) = name)) by (intros kf; apply String.eqb_eq).
  destruct (filter _ (funcs st)) as [|[key func_def] [|]]; try reflexivity.
  now contradiction Hlen.
Qed.

Lemma bare_function_name_must_be_unique_witness :
  eval_expr_body 3 (eval_expr 3) (run_statements 3) (QualifiedName "pv") overload_state
  = Error NAME_ERROR.
Proof.
  apply (bare_function_name_must_be_unique 3 (eval_expr 3) (run_statements 3) "pv"
           overload_state [[[]]]); try reflexivity.
  vm_compute. discriminate.
Defined.

(* --------------------------------------------------------------------- *)
(** ** Types from names *)
(* --------------------------------------------------------------------- *)

Lemma last_char_app (pre name : string) :
  name <> "" -> Py.last_char (pre +:+ name) = Py.last_char name.
Proof.
  intros Hne. induction pre as [|c pre IH]; [reflexivity|].
  change (String c pre +:+ name) with (String c (pre +:+ name)).
  simpl. rewrite IH.
  destruct (pre +:+ name) eqn:Happ; [|reflexivity].
  destruct pre as [|a pre'];
    [change (name = "") in Happ; congruence
    |change (String a (pre' +:+ name) = "") in Happ; discriminate].
Qed.

(** X9: the declared type of a variable, parameter or field is decided by
    the last character of its name alone.  It is one of Int, String, Bool,
    Object and Function, never Void or Nil; a name that carries an
    interface is Object-typed; a name ending in [v] is a Type error as a
    variable although the same suffix gives Void as a function's return
    type, and the empty name raises the host's IndexError. *)
Theorem declared_type_by_last_character (name : string) (st : Interp) :
  (forall ty st', type_from_name name st = Ok (ty, st') ->
     st' = st
     /\ ty ∈ [INT; STRING; BOOL; OBJECT; FUNCTION]
     /\ (forall pre, type_from_name (pre +:+ name) st = Ok (ty, st))
     /\ (forall i st1, interface_from_name name st = Ok (Some i, st1) -> ty = OBJECT))
  /\ type_from_name (name +:+ "v") st = Error TYPE_ERROR
  /\ declared_of_suffix_name (name +:+ "v") true st = Ok ((VOID, None), st)
  /\ type_from_name "" st = Raise "IndexError".
Proof.
  split; [|split; [|split]].
  - intros ty st' H.
    assert (Hne : name <> "") by (intros ->; discriminate).
    unfold type_from_name in *. unfold interface_from_name.
    destruct (Py.last_char name) as [c|] eqn:Hc; [|discriminate].
    simpl in H. rewrite bind_ret in H.
    assert (Hpre : forall pre, Py.last_char (pre +:+ name) = Some c)
      by (intros pre; now rewrite last_char_app).
    repeat match type of H with
           | (if ?b then _ else _) st = _ => destruct b eqn:?
           end; try discriminate; injection H as <- <-;
      (split; [reflexivity|]); (split; [set_solver|]);
      (split; [intros pre; rewrite Hpre; simpl; rewrite bind_ret;
               repeat match goal with H : _ = _ |- _ => rewrite H end; reflexivity|]);
      intros i st1; simpl; rewrite bind_ret; unfold interface_from_suffix;
      intros Hi; try reflexivity;
      match goal with
      | Hu : Py.isupper c = false |- _ => rewrite Hu in Hi; discriminate
      | Hu : Ascii.eqb c _ = true |- _ =>
          apply Ascii.eqb_eq in Hu; subst c; discriminate
      end.
  - unfold type_from_name. rewrite (last_char_app name "v") by discriminate. reflexivity.
  - unfold declared_of_suffix_name.
    rewrite (last_char_app name "v") by discriminate. reflexivity.
  - reflexivity.
Qed.

Lemma declared_type_by_last_character_witness :
  type_from_name ("count" +:+ "xi") (Interp_init []) = Ok (INT, Interp_init []).
Proof.
  apply (proj1 (declared_type_by_last_character "xi" (Interp_init []))
           INT (Interp_init []) eq_refl).
Defined.

(* --------------------------------------------------------------------- *)
(** ** Variable definitions and block scopes *)
(* --------------------------------------------------------------------- *)

Lemma set_self_env_lookup (st : Interp) (e e' : env_stack) :
  envs st !! env st = Some e ->
  exists st', Environment.set_self_env e' st = Ok (tt, st')
              /\ envs st' !! env st' = Some e'
              /\ cells st' = cells st /\ heap st' = heap st
              /\ funcs st' = funcs st /\ output st' = output st.
Proof.
  intros He. eexists. split; [reflexivity|]. simpl.
  split; [now apply envs_insert_lookup with (e := e) | repeat split].
Qed.

Lemma enter_block_spec (st : Interp) (below : env_stack) (fr : frame) :
  envs st !! env st = Some (below ++ [fr]) ->
  exists st', Environment.enter_block st = Ok (tt, st')
              /\ envs st' !! env st' = Some (below ++ [fr ++ [[]]])
              /\ cells st' = cells st.
Proof.
  intros He. unfold Environment.enter_block.
  rewrite (bind_Ok _ _ _ _ _ (self_env_Ok _ _ He)), last_snoc. simpl.
  rewrite bind_ret, alter_last_snoc.
  destruct (set_self_env_lookup st _ (below ++ [fr ++ [[]]]) He)
    as (st' & Hset & He' & Hc & _).
  now exists st'.
Qed.

Lemma exit_block_spec (st : Interp) (below : env_stack) (fr : frame) (b : block) :
  envs st !! env st = Some (below ++ [fr ++ [b]]) ->
  exists st', Environment.exit_block st = Ok (tt, st')
              /\ envs st' !! env st' = Some (below ++ [fr])
              /\ cells st' = cells st.
Proof.
  intros He. unfold Environment.exit_block.
  rewrite (bind_Ok _ _ _ _ _ (self_env_Ok _ _ He)), last_snoc. simpl.
  rewrite bind_ret, last_snoc. simpl. rewrite bind_ret, alter_last_snoc.
  rewrite removelast_last.
  destruct (set_self_env_lookup st _ (below ++ [fr]) He) as (st' & Hset & He' & Hc & _).
  now exists st'.
Qed.

Lemma fdef_function_spec (st : Interp) (below : env_stack) (blk0 : block)
  (inner : list block) (varname : string) (value : Value) :
  envs st !! env st = Some (below ++ [blk0 :: inner]) ->
  Dict.mem varname blk0 = false ->
  exists st', Environment.fdef_function varname value st = Ok (true, st')
              /\ envs st' !! env st'
                 = Some (below ++ [Dict.set varname (length (cells st)) blk0 :: inner])
              /\ cells st' = cells st ++ [value].
Proof.
  intros He Hmem. unfold Environment.fdef_function, Environment.exists_in_function_scope,
    Environment.top_frame.
  rewrite (bind_Ok _ _ st st false).
  - unfold Cell_new. unfold bind at 1.
    assert (He1 : envs (with_cells (cells st ++ [value]) st)
                  !! env (with_cells (cells st ++ [value]) st)
                  = Some (below ++ [blk0 :: inner])) by exact He.
    rewrite (bind_Ok _ _ _ _ _ (self_env_Ok _ _ He1)).
    rewrite alter_last_snoc. simpl alter_first.
    destruct (set_self_env_lookup _ _
                (below ++ [Dict.set varname (length (cells st)) blk0 :: inner]) He1)
      as (st' & Hset & He' & Hc & _).
    exists st'. rewrite (bind_Ok _ _ _ _ _ Hset). now repeat split.
  - rewrite (bind_Ok _ _ st st (blk0 :: inner)).
    + simpl. rewrite bind_ret. now rewrite Hmem.
    + rewrite (bind_Ok _ _ _ _ _ (self_env_Ok _ _ He)). now rewrite last_snoc.
Qed.

Lemma fdef_function_defined (st : Interp) (below : env_stack) (blk0 : block)
  (inner : list block) (varname : string) (value : Value) :
  envs st !! env st = Some (below ++ [blk0 :: inner]) ->
  Dict.mem varname blk0 = true ->
  Environment.fdef_function varname value st = Ok (false, st).
Proof.
  intros He Hmem. unfold Environment.fdef_function, Environment.exists_in_function_scope,
    Environment.top_frame.
  rewrite (bind_Ok _ _ st st true); [reflexivity|].
  rewrite (bind_Ok _ _ st st (blk0 :: inner)).
  - simpl. rewrite bind_ret. now rewrite Hmem.
  - rewrite (bind_Ok _ _ _ _ _ (self_env_Ok _ _ He)). now rewrite last_snoc.
Qed.

Lemma fdef_block_spec (st : Interp) (below : env_stack) (outer : list block)
  (blk : block) (varname : string) (value : Value) :
  envs st !! env st = Some (below ++ [outer ++ [blk]]) ->
  Dict.mem varname blk = false ->
  exists st', Environment.fdef_block varname value st = Ok (true, st')
              /\ envs st' !! env st'
                 = Some (below ++ [outer ++ [Dict.set varname (length (cells st)) blk]])
              /\ cells st' = cells st ++ [value].
Proof.
  intros He Hmem. unfold Environment.fdef_block, Environment.exists_in_current_block,
    Environment.top_frame.
  rewrite (bind_Ok _ _ st st false).
  - unfold Cell_new. unfold bind at 1.
    assert (He1 : envs (with_cells (cells st ++ [value]) st)
                  !! env (with_cells (cells st ++ [value]) st)
                  = Some (below ++ [outer ++ [blk]])) by exact He.
    rewrite (bind_Ok _ _ _ _ _ (self_env_Ok _ _ He1)).
    rewrite !alter_last_snoc.
    destruct (set_self_env_lookup _ _
                (below ++ [outer ++ [Dict.set varname (length (cells st)) blk]]) He1)
      as (st' & Hset & He' & Hc & _).
    exists st'. rewrite (bind_Ok _ _ _ _ _ Hset). now repeat split.
  - rewrite (bind_Ok _ _ st st (outer ++ [blk])).
    + rewrite last_snoc. simpl. rewrite bind_ret. now rewrite Hmem.
    + rewrite (bind_Ok _ _ _ _ _ (self_env_Ok _ _ He)). now rewrite last_snoc.
Qed.

Lemma fdef_block_defined (st : Interp) (below : env_stack) (outer : list block)
  (blk : block) (varname : string) (value : Value) :
  envs st !! env st = Some (below ++ [outer ++ [blk]]) ->
  Dict.mem varname blk = true ->
  Environment.fdef_block varname value st = Ok (false, st).
Proof.
  intros He Hmem. unfold Environment.fdef_block, Environment.exists_in_current_block,
    Environment.top_frame.
  rewrite (bind_Ok _ _ st st true); [reflexivity|].
  rewrite (bind_Ok _ _ st st (outer ++ [blk])).
  - rewrite last_snoc. simpl. rewrite bind_ret. now rewrite Hmem.
  - rewrite (bind_Ok _ _ _ _ _ (self_env_Ok _ _ He)). now rewrite last_snoc.
Qed.

Lemma default_value_has_type (ty : Type_) (st st' : Interp) (dv : Value) :
  default_value_for_type ty st = Ok (dv, st') ->
  st' = st /\ val_t dv = ty
  /\ (ty = OBJECT \/ ty = FUNCTION -> val_v dv = PNone).
Proof.
  destruct ty; simpl; try discriminate; intros H; injection H as <- <-;
    (split; [reflexivity|]); (split; [reflexivity|]);
    intros [Hty|Hty]; discriminate Hty || reflexivity.
Qed.

Lemma default_value_defined (ty : Type_) (st : Interp) :
  ty ∈ [INT; STRING; BOOL; OBJECT; FUNCTION] ->
  exists dv, default_value_for_type ty st = Ok (dv, st).
Proof.
  destruct ty; intros H; try (eexists; reflexivity);
    repeat (apply elem_of_cons in H as [H|H]; [discriminate|]);
    now apply elem_of_nil in H.
Qed.

Lemma Dict_mem_set {V} (k : string) (x : V) (d : list (string * V)) :
  Dict.mem k (Dict.set k x d) = true.
Proof. unfold Dict.mem. now rewrite Dict_get_set_eq. Qed.

(** Reading a plain identifier is the lookup of its cell. *)
Lemma get_qname_cell_plain (name : string) (st : Interp) (e : env_stack) :
  Py.has_dot name = false ->
  envs st !! env st = Some e ->
  get_qname_cell name st
  = match Environment.lookup e name with
    | Some c => Ok (c, st)
    | None => Error NAME_ERROR
    end.
Proof.
  intros Hdot He. unfold get_qname_cell. rewrite (split_dot_no_dot _ Hdot).
  rewrite (bind_Ok _ _ _ _ _ (exists_lookup _ _ name He)).
  destruct (Environment.lookup e name) as [c|] eqn:Hl; [|reflexivity].
  unfold error_if. simpl negb. cbv iota. rewrite bind_ret.
  rewrite (bind_Ok _ _ _ _ _ (get_current_cell_lookup _ _ name He)). now rewrite Hl.
Qed.

Lemma type_from_name_range (name : string) (st st' : Interp) (ty : Type_) :
  type_from_name name st = Ok (ty, st') ->
  st' = st /\ ty ∈ [INT; STRING; BOOL; OBJECT; FUNCTION].
Proof.
  intros H. split; [exact (read_only_type_from_name _ _ _ _ H)|].
  unfold type_from_name in H.
  destruct (Py.last_char name) as [c|]; [|discriminate].
  simpl in H. rewrite bind_ret in H.
  repeat match type of H with
         | (if ?b then _ else _) st = _ => destruct b
         end; try discriminate; injection H as <- _;
    repeat first [apply list_elem_of_here | apply list_elem_of_further].
Qed.

Lemma scan_blocks_app_unbound (name : string) (inner : list block) (b : block) :
  Forall (fun b' => Dict.get name b' = None) inner ->
  Environment.scan_blocks name (inner ++ [b]) = Dict.get name b.
Proof.
  induction 1 as [|b' inner Hb' _ IH]; simpl.
  - now destruct (Dict.get name b).
  - now rewrite Hb'.
Qed.

Lemma lookup_top_frame (below : env_stack) (fr : frame) (name : string) (c : nat) :
  Environment.scan_blocks name (rev fr) = Some c ->
  Environment.lookup (below ++ [fr]) name = Some c.
Proof.
  intros H. unfold Environment.lookup. rewrite rev_app_distr. simpl. now rewrite H.
Qed.

Lemma get_qname_value_plain (name : string) (st : Interp) (e : env_stack)
  (c : nat) (val : Value) :
  Py.has_dot name = false ->
  envs st !! env st = Some e ->
  Environment.lookup e name = Some c ->
  cells st !! c = Some val ->
  get_qname_value name st = Ok (val, st).
Proof.
  intros Hdot He Hl Hc. unfold get_qname_value.
  rewrite (bind_Ok _ _ st st c).
  - unfold Cell_get. now rewrite Hc.
  - rewrite (get_qname_cell_plain _ _ _ Hdot He). now rewrite Hl.
Qed.

(** X10: [var] defines in the function scope.  Whatever block the
    statement runs in, the variable goes to the first block of the current
    frame with a fresh cell holding the default value of its type: a name
    already in that block is a Name error, and unless an inner block
    shadows the name, reading it right away gives the default value. *)
Theorem vardef_defines_in_function_scope (name : string) (st : Interp)
  (below : env_stack) (blk0 : block) (inner : list block) (ty : Type_) :
  envs st !! env st = Some (below ++ [blk0 :: inner]) ->
  type_from_name name st = Ok (ty, st) ->
  (Dict.mem name blk0 = true -> run_vardef name st = Error NAME_ERROR)
  /\ (Dict.mem name blk0 = false ->
      exists st' dv,
        run_vardef name st = Ok (tt, st')
        /\ default_value_for_type ty st = Ok (dv, st)
        /\ val_t dv = ty
        /\ cells st' = cells st ++ [dv]
        /\ envs st' !! env st'
           = Some (below ++ [Dict.set name (length (cells st)) blk0 :: inner])
        /\ (Py.has_dot name = false ->
            Forall (fun b => Dict.get name b = None) inner ->
            get_qname_value name st' = Ok (dv, st'))).
Proof.
  intros He Hty.
  destruct (type_from_name_range _ _ _ _ Hty) as [_ Hrange].
  destruct (default_value_defined ty st Hrange) as (dv & Hdv).
  unfold run_vardef. rewrite (bind_Ok _ _ _ _ _ Hty), (bind_Ok _ _ _ _ _ Hdv). split.
  - intros Hmem. now rewrite (bind_Ok _ _ _ _ _ (fdef_function_defined _ _ _ _ _ dv He Hmem)).
  - intros Hmem.
    destruct (fdef_function_spec _ _ _ _ _ dv He Hmem) as (st' & Hdef & He' & Hc).
    exists st', dv. rewrite (bind_Ok _ _ _ _ _ Hdef).
    split; [reflexivity|]. split; [exact Hdv|].
    split; [apply (default_value_has_type _ _ _ _ Hdv)|].
    split; [assumption|]. split; [assumption|].
    intros Hdot Hinner.
    apply (get_qname_value_plain name st' _ (length (cells st)) dv Hdot He').
    + apply lookup_top_frame. simpl.
      rewrite scan_blocks_app_unbound by now apply Forall_rev.
      apply Dict_get_set_eq.
    + rewrite Hc. now apply list_lookup_middle.
Qed.

Lemma vardef_defines_in_function_scope_witness :
  let st := with_envs [[[[]; [("yi", 0%nat)]]]] (with_cells [vint 3] (Interp_init [])) in
  exists st' dv,
    run_vardef "xs" st = Ok (tt, st')
    /\ default_value_for_type STRING st = Ok (dv, st)
    /\ val_t dv = STRING
    /\ cells st' = cells st ++ [dv]
    /\ envs st' !! env st' = Some ([] ++ [Dict.set "xs" 1%nat [] :: [[("yi", 0%nat)]]])
    /\ (Py.has_dot "xs" = false ->
        Forall (fun b => Dict.get "xs" b = None) [[("yi", 0%nat)]] ->
        get_qname_value "xs" st' = Ok (dv, st')).
Proof.
  intros st.
  apply (proj2 (vardef_defines_in_function_scope "xs" st [] [] [[("yi", 0%nat)]] STRING
                  eq_refl eq_refl)).
  reflexivity.
Defined.

(** X11: the block-local definition defines in the innermost block.  Only
    a name already in that very block is a Name error; a name bound in an
    enclosing block or frame is shadowed: reading it right after the
    definition gives the default value of the new variable. *)
Theorem bvardef_defines_in_current_block (name : string) (st : Interp)
  (below : env_stack) (outer : list block) (blk : block) (ty : Type_) :
  envs st !! env st = Some (below ++ [outer ++ [blk]]) ->
  type_from_name name st = Ok (ty, st) ->
  (Dict.mem name blk = true -> run_bvardef name st = Error NAME_ERROR)
  /\ (Dict.mem name blk = false ->
      exists st' dv,
        run_bvardef name st = Ok (tt, st')
        /\ default_value_for_type ty st = Ok (dv, st)
        /\ val_t dv = ty
        /\ cells st' = cells st ++ [dv]
        /\ envs st' !! env st'
           = Some (below ++ [outer ++ [Dict.set name (length (cells st)) blk]])
        /\ (Py.has_dot name = false -> get_qname_value name st' = Ok (dv, st'))).
Proof.
  intros He Hty.
  destruct (type_from_name_range _ _ _ _ Hty) as [_ Hrange].
  destruct (default_value_defined ty st Hrange) as (dv & Hdv).
  unfold run_bvardef. rewrite (bind_Ok _ _ _ _ _ Hty), (bind_Ok _ _ _ _ _ Hdv). split.
  - intros Hmem. now rewrite (bind_Ok _ _ _ _ _ (fdef_block_defined _ _ _ _ _ dv He Hmem)).
  - intros Hmem.
    destruct (fdef_block_spec _ _ _ _ _ dv He Hmem) as (st' & Hdef & He' & Hc).
    exists st', dv. rewrite (bind_Ok _ _ _ _ _ Hdef).
    split; [reflexivity|]. split; [exact Hdv|].
    split; [apply (default_value_has_type _ _ _ _ Hdv)|].
    split; [assumption|]. split; [assumption|].
    intros Hdot.
    apply (get_qname_value_plain name st' _ (length (cells st)) dv Hdot He').
    + apply lookup_top_frame. rewrite rev_app_distr. simpl.
      now rewrite Dict_get_set_eq.
    + rewrite Hc. now apply list_lookup_middle.
Qed.

Lemma bvardef_defines_in_current_block_witness :
  let st := with_envs [[[[("xi", 0%nat)]; []]]] (with_cells [vint 3] (Interp_init [])) in
  exists st' dv,
    run_bvardef "xi" st = Ok (tt, st')
    /\ default_value_for_type INT st = Ok (dv, st)
    /\ val_t dv = INT
    /\ cells st' = cells st ++ [dv]
    /\ envs st' !! env st' = Some ([] ++ [[[("xi", 0%nat)]] ++ [Dict.set "xi" 1%nat []]])
    /\ (Py.has_dot "xi" = false -> get_qname_value "xi" st' = Ok (dv, st')).
Proof.
  intros st.
  apply (proj2 (bvardef_defines_in_current_block "xi" st [] [[("xi", 0%nat)]] [] INT
                  eq_refl eq_refl)).
  reflexivity.
Defined.

Lemma type_from_name_any_state (name : string) (st st1 : Interp) (ty : Type_) :
  type_from_name name st = Ok (ty, st) -> type_from_name name st1 = Ok (ty, st1).
Proof.
  unfold type_from_name. destruct (Py.last_char name) as [c|]; [|discriminate].
  simpl. rewrite !bind_ret.
  repeat match goal with
         | |- context [if ?b then _ else _] => destruct b
         end; try discriminate; intros H; injection H as <-; reflexivity.
Qed.

Lemma run_vardef_effect (name : string) (st : Interp)
  (below : env_stack) (blk0 : block) (inner : list block) (ty : Type_) :
  envs st !! env st = Some (below ++ [blk0 :: inner]) ->
  type_from_name name st = Ok (ty, st) ->
  Dict.mem name blk0 = false ->
  exists st' dv,
    run_vardef name st = Ok (tt, st')
    /\ val_t dv = ty
    /\ cells st' = cells st ++ [dv]
    /\ envs st' !! env st'
       = Some (below ++ [Dict.set name (length (cells st)) blk0 :: inner]).
Proof.
  intros He Hty Hmem.
  destruct (type_from_name_range _ _ _ _ Hty) as [_ Hrange].
  destruct (default_value_defined ty st Hrange) as (dv & Hdv).
  destruct (fdef_function_spec _ _ _ _ _ dv He Hmem) as (st' & Hdef & He' & Hc).
  exists st', dv. unfold run_vardef.
  rewrite (bind_Ok _ _ _ _ _ Hty), (bind_Ok _ _ _ _ _ Hdv), (bind_Ok _ _ _ _ _ Hdef).
  split; [reflexivity|]. split; [apply (default_value_has_type _ _ _ _ Hdv)|].
  now split.
Qed.

Lemma run_bvardef_effect (name : string) (st : Interp)
  (below : env_stack) (outer : list block) (blk : block) (ty : Type_) :
  envs st !! env st = Some (below ++ [outer ++ [blk]]) ->
  type_from_name name st = Ok (ty, st) ->
  Dict.mem name blk = false ->
  exists st' dv,
    run_bvardef name st = Ok (tt, st')
    /\ val_t dv = ty
    /\ cells st' = cells st ++ [dv]
    /\ envs st' !! env st'
       = Some (below ++ [outer ++ [Dict.set name (length (cells st)) blk]]).
Proof.
  intros He Hty Hmem.
  destruct (type_from_name_range _ _ _ _ Hty) as [_ Hrange].
  destruct (default_value_defined ty st Hrange) as (dv & Hdv).
  destruct (fdef_block_spec _ _ _ _ _ dv He Hmem) as (st' & Hdef & He' & Hc).
  exists st', dv. unfold run_bvardef.
  rewrite (bind_Ok _ _ _ _ _ Hty), (bind_Ok _ _ _ _ _ Hdv), (bind_Ok _ _ _ _ _ Hdef).
  split; [reflexivity|]. split; [apply (default_value_has_type _ _ _ _ Hdv)|].
  now split.
Qed.

(** X12: what a block leaves behind.  A block-local definition made in a
    fresh block never collides with an existing name, and at block exit
    the environment stack is exactly what it was before the block was
    entered (the cell stays allocated).  A [var] definition made inside
    the block survives the exit: it sits in the function scope. *)
Theorem block_exit_drops_block_locals (name : string) (st : Interp)
  (below : env_stack) (blk0 : block) (inner : list block) (ty : Type_) :
  envs st !! env st = Some (below ++ [blk0 :: inner]) ->
  type_from_name name st = Ok (ty, st) ->
  (exists st' dv,
     bind Environment.enter_block (fun _ =>
       bind (run_bvardef name) (fun _ => Environment.exit_block)) st = Ok (tt, st')
     /\ envs st' !! env st' = Some (below ++ [blk0 :: inner])
     /\ cells st' = cells st ++ [dv] /\ val_t dv = ty)
  /\ (Dict.mem name blk0 = false ->
      exists st' dv,
        bind Environment.enter_block (fun _ =>
          bind (run_vardef name) (fun _ => Environment.exit_block)) st = Ok (tt, st')
        /\ envs st' !! env st'
           = Some (below ++ [Dict.set name (length (cells st)) blk0 :: inner])
        /\ cells st' = cells st ++ [dv] /\ val_t dv = ty).
Proof.
  intros He Hty.
  destruct (enter_block_spec _ _ _ He) as (st1 & Henter & He1 & Hc1).
  pose proof (type_from_name_any_state _ _ st1 _ Hty) as Hty1. split.
  - rewrite (bind_Ok _ _ _ _ _ Henter).
    destruct (run_bvardef_effect name st1 below (blk0 :: inner) [] ty He1 Hty1 eq_refl)
      as (st2 & dv & Hrun & Hdv & Hc2 & He2).
    destruct (exit_block_spec _ _ _ _ He2) as (st3 & Hexit & He3 & Hc3).
    exists st3, dv. rewrite (bind_Ok _ _ _ _ _ Hrun).
    split; [assumption|]. split; [assumption|]. split; [congruence | assumption].
  - intros Hmem. rewrite (bind_Ok _ _ _ _ _ Henter).
    destruct (run_vardef_effect name st1 below blk0 (inner ++ [[]]) ty He1 Hty1 Hmem)
      as (st2 & dv & Hrun & Hdv & Hc2 & He2).
    rewrite Hc1 in He2.
    change (Dict.set name (length (cells st)) blk0 :: inner ++ [[]])
      with ((Dict.set name (length (cells st)) blk0 :: inner) ++ [[]]) in He2.
    destruct (exit_block_spec _ _ _ _ He2) as (st3 & Hexit & He3 & Hc3).
    exists st3, dv. rewrite (bind_Ok _ _ _ _ _ Hrun).
    split; [assumption|]. split; [assumption|]. split; [congruence | assumption].
Qed.

Lemma block_exit_drops_block_locals_witness :
  let st := with_envs [[[[("xi", 0%nat)]]]] (with_cells [vint 3] (Interp_init [])) in
  exists st' dv,
    bind Environment.enter_block (fun _ =>
      bind (run_bvardef "xi") (fun _ => Environment.exit_block)) st = Ok (tt, st')
    /\ envs st' !! env st' = Some ([] ++ [[("xi", 0%nat)] :: []])
    /\ cells st' = cells st ++ [dv] /\ val_t dv = INT.
Proof.
  intros st.
  apply (proj1 (block_exit_drops_block_locals "xi" st [] [("xi", 0%nat)] [] INT
                  eq_refl eq_refl)).
Defined.

(* --------------------------------------------------------------------- *)
(** ** Qualified names *)
(* --------------------------------------------------------------------- *)

Lemma split_dot_aux_dotted (base rest : string) :
  forall cur, Py.has_dot base = false ->
    Py.split_dot_aux cur (base +:+ "." +:+ rest)
    = (cur +:+ base)%string :: Py.split_dot rest.
Proof.
  induction base as [|c base IH]; intros cur H.
  - change ("" +:+ "." +:+ rest) with (String "." rest). simpl.
    now rewrite append_empty_r.
  - change (String c base +:+ "." +:+ rest) with (String c (base +:+ "." +:+ rest)).
    simpl in *. destruct (Ascii.eqb c "."); [discriminate|].
    rewrite (IH _ H). now rewrite append_assoc.
Qed.

Lemma split_dot_dotted (base rest : string) :
  Py.has_dot base = false ->
  Py.split_dot (base +:+ "." +:+ rest) = base :: Py.split_dot rest.
Proof. intros H. unfold Py.split_dot at 1. now rewrite split_dot_aux_dotted. Qed.

Lemma split_dot_aux_nonempty (s : string) : forall cur, Py.split_dot_aux cur s <> [].
Proof.
  induction s as [|c s IH]; intros cur; simpl; [discriminate|].
  destruct (Ascii.eqb c "."); [discriminate | apply IH].
Qed.

Lemma split_dot_cons (s : string) : exists part parts, Py.split_dot s = part :: parts.
Proof.
  unfold Py.split_dot. destruct (Py.split_dot_aux "" s) eqn:H.
  - now apply split_dot_aux_nonempty in H.
  - eauto.
Qed.

(** X13: the base of a dotted name is checked before anything else.  For
    a name [base.rest], read, dotted call and assignment alike stop with a
    Name error when [base] is not bound, and with a Type error when [base]
    is bound but its name is not Object-typed, whatever the variable
    holds and whatever follows the dot. *)
Theorem dotted_name_base_checks (fuel : nat) (base rest : string) (value : Value)
  (st : Interp) (e : env_stack) :
  Py.has_dot base = false ->
  envs st !! env st = Some e ->
  (Environment.lookup e base = None ->
   get_qname_cell (base +:+ "." +:+ rest) st = Error NAME_ERROR
   /\ get_qname_cell_and_owner (base +:+ "." +:+ rest) st = Error NAME_ERROR
   /\ set_qname_value fuel (base +:+ "." +:+ rest) value st = Error NAME_ERROR)
  /\ (forall c ty,
        Environment.lookup e base = Some c ->
        type_from_name base st = Ok (ty, st) -> ty <> OBJECT ->
        get_qname_cell (base +:+ "." +:+ rest) st = Error TYPE_ERROR
        /\ get_qname_cell_and_owner (base +:+ "." +:+ rest) st = Error TYPE_ERROR
        /\ set_qname_value fuel (base +:+ "." +:+ rest) value st = Error TYPE_ERROR).
Proof.
  intros Hdot He.
  destruct (split_dot_cons rest) as (field & fields & Hrest).
  unfold get_qname_cell, get_qname_cell_and_owner, set_qname_value.
  rewrite (split_dot_dotted _ rest Hdot), Hrest.
  rewrite !(bind_Ok _ _ _ _ _ (exists_lookup _ _ base He)). split.
  - intros ->. now repeat split.
  - intros c ty -> Hty Hne. unfold error_if at 1 3 5. simpl negb. cbv iota.
    rewrite !bind_ret, !(bind_Ok _ _ _ _ _ Hty).
    rewrite (bool_decide_eq_true_2 (ty <> OBJECT)) by assumption.
    now repeat split.
Qed.

Lemma dotted_name_base_checks_witness :
  let st := with_envs [[[[("xi", 0%nat)]]]] (with_cells [vint 3] (Interp_init [])) in
  get_qname_cell ("xi" +:+ "." +:+ "fo") st = Error TYPE_ERROR
  /\ get_qname_cell_and_owner ("xi" +:+ "." +:+ "fo") st = Error TYPE_ERROR
  /\ set_qname_value 1 ("xi" +:+ "." +:+ "fo") (vint 1) st = Error TYPE_ERROR.
Proof.
  intros st.
  apply (proj2 (dotted_name_base_checks 1 "xi" "fo" (vint 1) st [[[("xi", 0%nat)]]]
                  eq_refl eq_refl) 0%nat INT eq_refl eq_refl).
  discriminate.
Defined.

Lemma error_if_Ok_inv (cond : bool) (kind : ErrorType) (st st' : Interp) (u : unit) :
  error_if cond kind st = Ok (u, st') -> cond = false /\ st' = st.
Proof. destruct cond; [discriminate|]. now intros [= <-]. Qed.

(** The effect of an assignment to [base.field] when [base] holds a live
    object: the checked value goes to the field's cell, or to a new cell
    entered in the object's field table. *)
Lemma set_field_effect (fuel : nat) (base field : string) (value : Value)
  (st st' : Interp) (e : env_stack) (bc : nat) (id : Z)
  (obj_fields : list (string * nat)) :
  Py.has_dot base = false ->
  Py.has_dot field = false ->
  envs st !! env st = Some e ->
  Environment.lookup e base = Some bc ->
  cells st !! bc = Some (vobj id) ->
  heap st !! id = Some obj_fields ->
  set_qname_value fuel (base +:+ "." +:+ field) value st = Ok (tt, st') ->
  exists final_type value',
    type_from_name base st = Ok (OBJECT, st)
    /\ type_from_name field st = Ok (final_type, st)
    /\ check_assign_type final_type value st = Ok (value', st)
    /\ st' = match Dict.get field obj_fields with
             | Some fc => with_cells (<[fc := value']> (cells st)) st
             | None =>
                 with_heap (<[id := Dict.set field (length (cells st)) obj_fields]> (heap st))
                   (with_cells (cells st ++ [value']) st)
             end.
Proof.
  intros Hdb Hdf He Hl Hbc Hheap H. unfold set_qname_value in H.
  rewrite (split_dot_dotted _ field Hdb), (split_dot_no_dot _ Hdf) in H.
  rewrite (bind_Ok _ _ _ _ _ (exists_lookup _ _ base He)), Hl in H.
  unfold error_if at 1 in H. simpl negb in H. cbv iota in H. rewrite bind_ret in H.
  apply bind_inv_Ok in H as (ty & st1 & Hty & H).
  pose proof (read_only_type_from_name _ _ _ _ Hty) as ->.
  apply bind_inv_Ok in H as ([] & st1 & Hobj & H).
  apply error_if_Ok_inv in Hobj as [Hobj ->].
  apply bool_decide_eq_false in Hobj.
  assert (ty = OBJECT) as -> by (destruct (decide (ty = OBJECT)); [assumption | contradiction]).
  rewrite (bind_Ok _ _ _ _ _ (get_current_cell_lookup _ _ base He)), Hl in H.
  assert (Hget : Cell_get bc st = Ok (vobj id, st)) by (unfold Cell_get; now rewrite Hbc).
  rewrite (bind_Ok _ _ _ _ _ Hget) in H. simpl in H. rewrite !bind_ret in H.
  unfold vobj in H. cbn [val_t val_v is_none] in H.
  rewrite (bool_decide_eq_false_2 (OBJECT <> OBJECT)) in H by congruence.
  unfold error_if at 1 2 in H. rewrite !bind_ret in H.
  rewrite (bind_Ok _ _ _ _ _ (heap_get_object id st)), Hheap in H.
  apply bind_inv_Ok in H as (final_type & st1 & Hft & H).
  pose proof (read_only_type_from_name _ _ _ _ Hft) as ->.
  apply bind_inv_Ok in H as (iface & st1 & Hif & H).
  pose proof (read_only_interface_from_name _ _ _ _ Hif) as ->.
  apply bind_inv_Ok in H as (value' & st1 & Hchk & H).
  pose proof (read_only_check_assign_type _ _ _ _ _ Hchk) as ->.
  apply bind_inv_Ok in H as ([] & st1 & Hci & H).
  pose proof (read_only_check_interface _ _ _ _ _ _ Hci) as ->.
  exists final_type, value'. repeat (split; [assumption|]).
  destruct (Dict.get field obj_fields) as [fc|].
  - unfold Cell_set, modify in H. now injection H as <-.
  - unfold Cell_new in H. unfold bind at 1 in H. unfold modify in H.
    now injection H as <-.
Qed.

(** X14: writing a field and reading it back.  After a successful
    assignment to [base.field], where [base] holds a live object, reading
    [base.field] returns the value assigned (a nil with the tag of the
    field name).  A field that was absent is created by the assignment.
    The field's cell must not be the cell of [base] itself, which a ref
    parameter bound to a field of a self-referring object can bring
    about. *)
Theorem field_write_then_read (fuel : nat) (base field : string) (value : Value)
  (st st' : Interp) (e : env_stack) (bc : nat) (id : Z)
  (obj_fields : list (string * nat)) :
  Py.has_dot base = false ->
  Py.has_dot field = false ->
  envs st !! env st = Some e ->
  Environment.lookup e base = Some bc ->
  cells st !! bc = Some (vobj id) ->
  heap st !! id = Some obj_fields ->
  (forall fc, Dict.get field obj_fields = Some fc ->
     (fc < length (cells st))%nat /\ fc <> bc) ->
  set_qname_value fuel (base +:+ "." +:+ field) value st = Ok (tt, st') ->
  exists value',
    get_qname_value (base +:+ "." +:+ field) st' = Ok (value', st')
    /\ val_v value' = val_v value
    /\ (is_nil_value value = false -> value' = value)
    /\ (Dict.get field obj_fields = None ->
        heap st' !! id = Some (Dict.set field (length (cells st)) obj_fields)).
Proof.
  intros Hdb Hdf He Hl Hbc Hheap Hfc Hset.
  destruct (set_field_effect _ _ _ _ _ _ _ _ _ _ Hdb Hdf He Hl Hbc Hheap Hset)
    as (final_type & value' & Htb & Htf & Hchk & Hst').
  exists value'.
  destruct (check_assign_type_payload _ _ _ _ _ Hchk) as [Hpay Hsame].
  assert (Henv : envs st' !! env st' = Some e)
    by (subst st'; destruct (Dict.get field obj_fields); exact He).
  assert (Hbase : Cell_get bc st' = Ok (vobj id, st')).
  { unfold Cell_get. subst st'. destruct (Dict.get field obj_fields) as [fc|] eqn:Hf; simpl.
    - destruct (Hfc fc eq_refl) as [_ Hne].
      rewrite list_lookup_insert_ne by congruence. now rewrite Hbc.
    - now rewrite (lookup_app_l_Some _ _ _ _ Hbc). }
  assert (Hread : exists c, (heap st' !! id
                             = Some (match Dict.get field obj_fields with
                                     | Some _ => obj_fields
                                     | None => Dict.set field (length (cells st)) obj_fields
                                     end))
                            /\ Dict.get field
                                 (match Dict.get field obj_fields with
                                  | Some _ => obj_fields
                                  | None => Dict.set field (length (cells st)) obj_fields
                                  end) = Some c
                            /\ cells st' !! c = Some value').
  { subst st'. destruct (Dict.get field obj_fields) as [fc|] eqn:Hf; simpl.
    - exists fc. split; [assumption|]. split; [assumption|].
      apply list_lookup_insert_eq. now apply Hfc.
    - exists (length (cells st)). split; [apply lookup_insert_eq|].
      split; [apply Dict_get_set_eq | now apply list_lookup_middle]. }
  destruct Hread as (c & Hh & Hd & Hc).
  split; [|split; [assumption|split; [assumption|]]].
  - assert (Hcell : get_qname_cell (base +:+ "." +:+ field) st' = Ok (c, st')).
    { unfold get_qname_cell.
      rewrite (split_dot_dotted _ field Hdb), (split_dot_no_dot _ Hdf).
      rewrite (bind_Ok _ _ _ _ _ (exists_lookup _ _ base Henv)), Hl.
      unfold error_if at 1. simpl negb. cbv iota. rewrite !bind_ret.
      rewrite (bind_Ok _ _ _ _ _ (type_from_name_any_state _ _ st' _ Htb)).
      rewrite (bool_decide_eq_false_2 (OBJECT <> OBJECT)) by congruence.
      unfold error_if at 1. rewrite !bind_ret.
      rewrite (bind_Ok _ _ _ _ _ (get_current_cell_lookup _ _ base Henv)), Hl.
      rewrite (bind_Ok _ _ _ _ _ Hbase). simpl. rewrite !bind_ret.
      unfold get_qname_cell_final, vobj. cbn [val_t val_v is_none].
      rewrite (bool_decide_eq_false_2 (OBJECT <> OBJECT)) by congruence.
      unfold error_if at 1 2. rewrite !bind_ret.
      rewrite (bind_Ok _ _ _ _ _ (heap_get_object id st')), Hh, Hd. reflexivity. }
    unfold get_qname_value. rewrite (bind_Ok _ _ _ _ _ Hcell).
    unfold Cell_get. now rewrite Hc.
  - intros Hnone. rewrite Hnone in Hh. exact Hh.
Qed.

Lemma field_write_then_read_witness :
  exists value',
    get_qname_value ("po" +:+ "." +:+ "xi") object_state_xi = Ok (value', object_state_xi)
    /\ val_v value' = PInt 7
    /\ (is_nil_value (vint 7) = false -> value' = vint 7)
    /\ (Dict.get "xi" (@nil (string * nat)) = None ->
        heap object_state_xi !! 1 = Some (Dict.set "xi" 1%nat [])).
Proof.
  apply (field_write_then_read 1 "po" "xi" (vint 7) object_state object_state_xi
           [[[("po", 0%nat)]]] 0%nat 1 []); try reflexivity.
  intros fc H. discriminate H.
Defined.

(* --------------------------------------------------------------------- *)
(** ** Assignment *)
(* --------------------------------------------------------------------- *)

Lemma check_assign_type_tag (left_type : Type_) (value value' : Value) (st st' : Interp) :
  check_assign_type left_type value st = Ok (value', st') ->
  val_t value' = left_type.
Proof.
  unfold check_assign_type.
  destruct (is_none (val_v value) && type_in (val_t value) [OBJECT; FUNCTION])%bool.
  - destruct (type_in left_type [OBJECT; FUNCTION]); [|discriminate].
    now intros [= <- _].
  - destruct (bool_decide (left_type = OBJECT)) eqn:Ho;
      [|destruct (bool_decide (left_type = FUNCTION)) eqn:Hf];
      intros H; apply bind_inv_Ok in H as ([] & st1 & Hc & H);
      apply error_if_Ok_inv in Hc as [Hc _]; apply bool_decide_eq_false in Hc;
      injection H as <- _.
    + apply bool_decide_eq_true in Ho. subst.
      destruct (decide (val_t value = OBJECT)); [assumption | contradiction].
    + apply bool_decide_eq_true in Hf. subst.
      destruct (decide (val_t value = FUNCTION)); [assumption | contradiction].
    + destruct (decide (left_type = val_t value)); [congruence | contradiction].
Qed.

Lemma check_assign_type_mismatch (left_type : Type_) (value : Value) (st : Interp) :
  is_nil_value value = false -> val_t value <> left_type ->
  check_assign_type left_type value st = Error TYPE_ERROR.
Proof.
  intros Hnil Hne. unfold check_assign_type.
  rewrite is_nil_like_is_nil_value, Hnil.
  destruct (bool_decide (left_type = OBJECT)) eqn:Ho;
    [|destruct (bool_decide (left_type = FUNCTION)) eqn:Hf].
  - apply bool_decide_eq_true in Ho. subst.
    now rewrite (bool_decide_eq_true_2 (val_t value <> OBJECT)).
  - apply bool_decide_eq_true in Hf. subst.
    now rewrite (bool_decide_eq_true_2 (val_t value <> FUNCTION)).
  - now rewrite (bool_decide_eq_true_2 (left_type <> val_t value)) by congruence.
Qed.

Lemma interface_of_typed_name (name : string) (st : Interp) (ty : Type_) :
  type_from_name name st = Ok (ty, st) ->
  exists iface, interface_from_name name st = Ok (iface, st)
                /\ (iface <> None -> ty = OBJECT).
Proof.
  unfold type_from_name, interface_from_name, interface_from_suffix.
  destruct (Py.last_char name) as [c|]; [|discriminate].
  simpl. rewrite !bind_ret. intros H.
  destruct (Py.isupper c) eqn:Hup.
  - eexists. split; [reflexivity|]. intros _.
    repeat match type of H with
           | (if ?b then _ else _) st = _ => destruct b eqn:?
           end; try discriminate; injection H as <-; try reflexivity;
      match goal with
      | Hu : Ascii.eqb c _ = true |- _ =>
          apply Ascii.eqb_eq in Hu; subst c; discriminate
      end.
  - eexists. split; [reflexivity|]. congruence.
Qed.

(** An assignment to a bound plain identifier, step by step. *)
Lemma set_qname_value_plain_steps (fuel : nat) (name : string) (value : Value)
  (st : Interp) (e : env_stack) (c : nat) (ty : Type_) (iface : option string) :
  Py.has_dot name = false ->
  envs st !! env st = Some e ->
  Environment.lookup e name = Some c ->
  type_from_name name st = Ok (ty, st) ->
  interface_from_name name st = Ok (iface, st) ->
  set_qname_value fuel name value st
  = bind (check_assign_type ty value) (fun value' =>
      bind (check_interface fuel iface value') (fun _ =>
        bind (Environment.get_current_cell name) (fun cell =>
          match cell with
          | None => error NAME_ERROR
          | Some c => Cell_set c value'
          end))) st.
Proof.
  intros Hdot He Hl Hty Hif. unfold set_qname_value.
  rewrite (split_dot_no_dot _ Hdot).
  rewrite (bind_Ok _ _ _ _ _ (exists_lookup _ _ name He)), Hl.
  unfold error_if at 1. simpl negb. cbv iota. rewrite bind_ret.
  now rewrite (bind_Ok _ _ _ _ _ Hty), (bind_Ok _ _ _ _ _ Hif).
Qed.

(** X15: the type discipline of assignment to a variable.  A non-nil
    value whose tag differs from the type given by the variable's name is
    a Type error; nil is refused by Int, String and Bool variables and
    accepted by every Object or Function variable, also one whose name
    carries an interface (declared or not), and is stored with the tag of
    the variable; after any successful assignment the cell holds a value
    of the variable's type. *)
Theorem assignment_type_discipline (fuel : nat) (name : string) (value : Value)
  (st : Interp) (e : env_stack) (c : nat) (ty : Type_) :
  Py.has_dot name = false ->
  envs st !! env st = Some e ->
  Environment.lookup e name = Some c ->
  type_from_name name st = Ok (ty, st) ->
  (is_nil_value value = false -> val_t value <> ty ->
   set_qname_value fuel name value st = Error TYPE_ERROR)
  /\ (is_nil_value value = true -> ty <> OBJECT -> ty <> FUNCTION ->
      set_qname_value fuel name value st = Error TYPE_ERROR)
  /\ (is_nil_value value = true -> ty = OBJECT \/ ty = FUNCTION ->
      set_qname_value (S fuel) name value st
      = Ok (tt, with_cells (<[c := mkValue ty PNone]> (cells st)) st))
  /\ (forall st', set_qname_value fuel name value st = Ok (tt, st') ->
        exists value', st' = with_cells (<[c := value']> (cells st)) st
                       /\ val_t value' = ty).
Proof.
  intros Hdot He Hl Hty.
  destruct (interface_of_typed_name _ _ _ Hty) as (iface & Hif & Hobj).
  split; [|split; [|split]].
  - intros Hnil Hne.
    rewrite (set_qname_value_plain_steps _ _ _ _ _ _ _ _ Hdot He Hl Hty Hif).
    apply bind_Error. now apply check_assign_type_mismatch.
  - intros Hnil Ho Hf.
    rewrite (set_qname_value_plain_steps _ _ _ _ _ _ _ _ Hdot He Hl Hty Hif).
    apply bind_Error. unfold check_assign_type.
    rewrite is_nil_like_is_nil_value, Hnil.
    destruct (type_in ty [OBJECT; FUNCTION]) eqn:Hin; [|reflexivity].
    apply type_in_obj_fun in Hin as [|]; contradiction.
  - intros Hnil Hty'.
    rewrite (set_qname_value_plain_steps _ _ _ _ _ _ _ _ Hdot He Hl Hty Hif).
    assert (Hchk : check_assign_type ty value st = Ok (mkValue ty PNone, st)).
    { unfold check_assign_type. rewrite is_nil_like_is_nil_value, Hnil.
      apply type_in_obj_fun in Hty'. now rewrite Hty'. }
    rewrite (bind_Ok _ _ _ _ _ Hchk).
    assert (Hci : check_interface (S fuel) iface (mkValue ty PNone) st = Ok (tt, st)).
    { destruct iface as [i|]; [|reflexivity].
      rewrite (Hobj ltac:(discriminate)). reflexivity. }
    rewrite (bind_Ok _ _ _ _ _ Hci).
    rewrite (bind_Ok _ _ _ _ _ (get_current_cell_lookup _ _ name He)), Hl.
    reflexivity.
  - intros st' H.
    rewrite (set_qname_value_plain_steps _ _ _ _ _ _ _ _ Hdot He Hl Hty Hif) in H.
    apply bind_inv_Ok in H as (value' & st1 & Hchk & H).
    pose proof (read_only_check_assign_type _ _ _ _ _ Hchk) as ->.
    apply bind_inv_Ok in H as ([] & st1 & Hci & H).
    pose proof (read_only_check_interface _ _ _ _ _ _ Hci) as ->.
    rewrite (bind_Ok _ _ _ _ _ (get_current_cell_lookup _ _ name He)), Hl in H.
    unfold Cell_set, modify in H. injection H as <-.
    exists value'. split; [reflexivity|]. now apply check_assign_type_tag in Hchk.
Qed.

Lemma assignment_type_discipline_witness :
  let st := with_envs [[[[("pZ", 0%nat)]]]] (with_cells [vobj 1] (Interp_init [])) in
  set_qname_value 1 "pZ" (mkValue FUNCTION PNone) st
  = Ok (tt, with_cells (<[0%nat := mkValue OBJECT PNone]> (cells st)) st)
  /\ set_qname_value 0 "pZ" (vint 1) st = Error TYPE_ERROR.
Proof.
  intros st.
  pose proof (assignment_type_discipline 0 "pZ" (mkValue FUNCTION PNone) st
                [[[("pZ", 0%nat)]]] 0%nat OBJECT eq_refl eq_refl eq_refl eq_refl)
    as (_ & _ & Hnil & _).
  pose proof (assignment_type_discipline 0 "pZ" (vint 1) st
                [[[("pZ", 0%nat)]]] 0%nat OBJECT eq_refl eq_refl eq_refl eq_refl)
    as (Hmis & _).
  split.
  - apply Hnil; [reflexivity | now left].
  - apply Hmis; [reflexivity | discriminate].
Defined.

(* --------------------------------------------------------------------- *)
(** ** Calls through a variable *)
(* --------------------------------------------------------------------- *)

Lemma check_arg_types_Forall2 (ptypes : list Type_) :
  forall (vals : list Value) (st : Interp),
    length ptypes = length vals ->
    (Forall2 (fun ptype argval => val_t argval = ptype) ptypes vals ->
     check_arg_types ptypes vals st = Ok (tt, st))
    /\ (~ Forall2 (fun ptype argval => val_t argval = ptype) ptypes vals ->
        check_arg_types ptypes vals st = Error TYPE_ERROR).
Proof.
  induction ptypes as [|ptype ptypes IH]; intros [|argval vals] st Hlen;
    simpl in Hlen; try discriminate.
  - split; [reflexivity|]. intros H. contradiction H. constructor.
  - injection Hlen as Hlen. destruct (IH vals st Hlen) as [IHok IHerr]. simpl.
    destruct (decide (val_t argval = ptype)) as [Heq|Hne].
    + rewrite (bool_decide_eq_false_2 (val_t argval <> ptype)) by tauto.
      unfold error_if. rewrite bind_ret. split.
      * intros H. inversion H; subst. now apply IHok.
      * intros H. apply IHerr. intros H'. apply H. now constructor.
    + rewrite (bool_decide_eq_true_2 (val_t argval <> ptype)) by assumption.
      split; [|reflexivity]. intros H. inversion H; subst. contradiction.
Qed.

Lemma lookup_nonempty (e : env_stack) (name : string) (c : nat) :
  Environment.lookup e name = Some c -> Nat.ltb 0 (length e) = true.
Proof. destruct e; [discriminate | reflexivity]. Qed.

(** The call of a name that is a bound variable, up to the invocation. *)
Lemma run_fcall_variable (fuel : nat) (eval : expr -> M Value)
  (exec : list stmt -> M (Value * bool)) (fcall_name : string) (args : list expr)
  (vals : list Value) (st st' : Interp) (e : env_stack) (c : nat) (func_val : Value) :
  is_builtin fcall_name = false ->
  Py.has_dot fcall_name = false ->
  eval_args eval args st = Ok (vals, st') ->
  has_void vals = false ->
  envs st' !! env st' = Some e ->
  Environment.lookup e fcall_name = Some c ->
  cells st' !! c = Some func_val ->
  run_fcall fuel eval exec fcall_name args st
  = bind (error_if (bool_decide (val_t func_val <> FUNCTION)) TYPE_ERROR) (fun _ =>
      bind (error_if (is_none (val_v func_val)) FAULT_ERROR) (fun _ =>
        bind (as_fun (val_v func_val)) (fun fv =>
          bind (error_if (negb (Nat.eqb (length (param_types fv)) (length vals)))
                  TYPE_ERROR) (fun _ =>
            bind (check_arg_types (param_types fv) vals) (fun _ =>
              invoke_function fuel exec (func_ast fv) args vals (closure_env fv)
                None))))) st'.
Proof.
  intros Hb Hdot Hargs Hvoid He Hl Hc.
  apply is_builtin_false in Hb as [Hb1 Hb2].
  unfold run_fcall. rewrite Hb1, Hb2, Hdot.
  rewrite (bind_Ok _ _ _ _ _ Hargs), Hvoid.
  unfold error_if at 1. rewrite bind_ret.
  rewrite (bind_Ok _ _ _ _ _ (self_env_Ok _ _ He)).
  rewrite Hl, (lookup_nonempty _ _ _ Hl). simpl.
  rewrite (bind_Ok _ _ st' st' (c, None)).
  - simpl. assert (Hget : Cell_get c st' = Ok (func_val, st'))
      by (unfold Cell_get; now rewrite Hc).
    now rewrite (bind_Ok _ _ _ _ _ Hget).
  - rewrite (bind_Ok _ _ st' st' c); [reflexivity|].
    rewrite (get_qname_cell_plain _ _ _ Hdot He). now rewrite Hl.
Qed.

(** X16: a call whose name is a bound variable goes through the variable,
    also when a top-level function has that name.  A value that is no
    function is a Type error, a nil function a Fault error, a wrong number
    of arguments a Type error; every argument tag must equal the parameter
    type exactly, so a nil argument is refused for a Function-typed
    parameter, which a call by function name accepts.  Otherwise the
    function value is invoked with its own closure. *)
Theorem call_through_variable (fuel : nat) (eval : expr -> M Value)
  (exec : list stmt -> M (Value * bool)) (fcall_name : string) (args : list expr)
  (vals : list Value) (st st' : Interp) (e : env_stack) (c : nat) (func_val : Value) :
  is_builtin fcall_name = false ->
  Py.has_dot fcall_name = false ->
  eval_args eval args st = Ok (vals, st') ->
  has_void vals = false ->
  envs st' !! env st' = Some e ->
  Environment.lookup e fcall_name = Some c ->
  cells st' !! c = Some func_val ->
  (val_t func_val <> FUNCTION ->
   run_fcall fuel eval exec fcall_name args st = Error TYPE_ERROR)
  /\ (val_t func_val = FUNCTION -> val_v func_val = PNone ->
      run_fcall fuel eval exec fcall_name args st = Error FAULT_ERROR)
  /\ (forall fv, func_val = mkValue FUNCTION (PFun fv) ->
        (length (param_types fv) <> length vals ->
         run_fcall fuel eval exec fcall_name args st = Error TYPE_ERROR)
        /\ (length (param_types fv) = length vals ->
            ~ Forall2 (fun ptype argval => val_t argval = ptype) (param_types fv) vals ->
            run_fcall fuel eval exec fcall_name args st = Error TYPE_ERROR)
        /\ (Forall2 (fun ptype argval => val_t argval = ptype) (param_types fv) vals ->
            run_fcall fuel eval exec fcall_name args st
            = invoke_function fuel exec (func_ast fv) args vals (closure_env fv) None st')).
Proof.
  intros Hb Hdot Hargs Hvoid He Hl Hc.
  rewrite (run_fcall_variable _ _ _ _ _ _ _ _ _ _ _ Hb Hdot Hargs Hvoid He Hl Hc).
  split; [|split].
  - intros Hne. now rewrite (bool_decide_eq_true_2 (val_t func_val <> FUNCTION)).
  - intros -> ->. reflexivity.
  - intros fv ->. simpl. rewrite !bind_ret. split; [|split].
    + intros Hlen. apply Nat.eqb_neq in Hlen. now rewrite Hlen.
    + intros Hlen Hmis. rewrite (proj2 (Nat.eqb_eq _ _) Hlen).
      unfold error_if at 1. simpl negb. cbv iota. rewrite bind_ret.
      apply bind_Error. now apply check_arg_types_Forall2.
    + intros Hall. pose proof (Forall2_length _ _ _ Hall) as Hlen.
      rewrite (proj2 (Nat.eqb_eq _ _) Hlen).
      unfold error_if at 1. simpl negb. cbv iota. rewrite bind_ret.
      now rewrite (bind_Ok _ _ _ _ _
                     (proj1 (check_arg_types_Forall2 _ _ st' Hlen) Hall)).
Qed.

(** [ff(nil)] where the variable [ff] holds a function with a
    Function-typed parameter: the nil argument carries the Object tag. *)
Lemma call_through_variable_witness :
  run_fcall 3 (eval_expr 3) (run_statements 3) "ff" [NilNode] function_variable_state
  = Error TYPE_ERROR.
Proof.
  pose proof (call_through_variable 3 (eval_expr 3) (run_statements 3) "ff" [NilNode]
                [mkValue OBJECT PNone] function_variable_state function_variable_state
                [[[("ff", 0%nat)]]] 0%nat
                (mkValue FUNCTION (PFun (mkFunctionValue 0 ff_fun [FUNCTION] None)))
                eq_refl eq_refl eq_refl eq_refl eq_refl eq_refl eq_refl)
    as (_ & _ & Hfv).
  apply (Hfv _ eq_refl); [reflexivity|].
  intros H. inversion H as [|? ? ? ? Htag _]. discriminate Htag.
Defined.

(* --------------------------------------------------------------------- *)
(** ** Parameter binding *)
(* --------------------------------------------------------------------- *)

Lemma install_bindings_effect (bindings : list binding) :
  forall (st1 st2 : Interp) (below : env_stack) (blk : block),
    envs st1 !! env st1 = Some (below ++ [[blk]]) ->
    install_bindings bindings st1 = Ok (tt, st2) ->
    exists blk' news,
      envs st2 !! env st2 = Some (below ++ [[blk']])
      /\ cells st2 = cells st1 ++ news
      /\ (forall p c, Dict.get p blk = Some c -> Dict.get p blk' = Some c)
      /\ (forall p v, In (ValBinding p v) bindings ->
            exists c, Dict.get p blk' = Some c /\ (length (cells st1) <= c)%nat
                      /\ (cells st1 ++ news) !! c = Some v)
      /\ NoDup (map binding_name bindings)
      /\ (forall p, In p (map binding_name bindings) -> Dict.get p blk = None).
Proof.
  induction bindings as [|b rest IH]; intros st1 st2 below blk He H; simpl in H.
  - injection H as <-. exists blk, []. rewrite app_nil_r.
    repeat split; try assumption; auto; try (intros ? ? []); try (intros ? []).
    constructor.
  - assert (Hstep : exists c st1',
               Dict.mem (binding_name b) blk = false
               /\ envs st1' !! env st1' = Some (below ++ [[Dict.set (binding_name b) c blk]])
               /\ install_bindings rest st1' = Ok (tt, st2)
               /\ match b with
                  | RefBinding _ _ => cells st1' = cells st1
                  | ValBinding _ v => cells st1' = cells st1 ++ [v] /\ c = length (cells st1)
                  end).
    { destruct b as [pname cell | pname val]; simpl;
        apply bind_inv_Ok in H as (ok & sta & Hdef & H).
      - rewrite (fdef_function_cell_single _ _ _ _ _ He) in Hdef.
        destruct (Dict.mem pname blk) eqn:Hmem; injection Hdef as <- <-; [discriminate|].
        unfold error_if in H; cbn [negb] in H; rewrite bind_ret in H.
        eexists cell, _. split; [reflexivity|]. split; [|split; [exact H | reflexivity]].
        simpl. now apply envs_insert_lookup with (e := below ++ [[blk]]).
      - rewrite (fdef_function_single _ _ _ _ _ He) in Hdef.
        destruct (Dict.mem pname blk) eqn:Hmem; injection Hdef as <- <-; [discriminate|].
        unfold error_if in H; cbn [negb] in H; rewrite bind_ret in H.
        eexists (length (cells st1)), _. split; [reflexivity|].
        split; [|split; [exact H | split; reflexivity]].
        simpl. now apply envs_insert_lookup with (e := below ++ [[blk]]). }
    destruct Hstep as (c & st1' & Hmem & He1 & Hrest & Hcells).
    destruct (IH _ _ _ _ He1 Hrest) as (blk' & news & He' & Hc' & Hold & Hval & Hnd & Hfree).
    apply Dict_mem_false in Hmem.
    assert (Hhead : Dict.get (binding_name b) blk' = Some c)
      by apply Hold, Dict_get_set_eq.
    assert (Hnotin : ~ In (binding_name b) (map binding_name rest)).
    { intros Hin. apply Hfree in Hin. rewrite Dict_get_set_eq in Hin. discriminate. }
    assert (Hkeep : forall p c0, Dict.get p blk = Some c0 -> Dict.get p blk' = Some c0).
    { intros p c0 Hp. apply Hold. rewrite Dict_get_set_ne; [assumption|].
      intros <-. congruence. }
    assert (Hfree' : forall p, In p (map binding_name (b :: rest)) -> Dict.get p blk = None).
    { intros p [<- | Hin]; [assumption|].
      specialize (Hfree p Hin). rewrite Dict_get_set_ne in Hfree; [assumption|].
      intros <-. contradiction. }
    destruct b as [pname cell | pname val]; simpl in Hcells.
    + exists blk', news. rewrite Hcells in *.
      split; [assumption|]. split; [assumption|]. split; [assumption|].
      split; [|split; [|assumption]].
      2:{ simpl. apply NoDup_cons. split; [now rewrite list_elem_of_In | assumption]. }
      intros p v [Hin | Hin]; [discriminate | now apply Hval].
    + destruct Hcells as [Hcells ->]. exists blk', (val :: news).
      rewrite Hcells in *. rewrite <- app_assoc in *. simpl in *.
      split; [assumption|]. split; [assumption|]. split; [assumption|].
      split; [|split; [|assumption]].
      2:{ apply NoDup_cons. split; [now rewrite list_elem_of_In | assumption]. }
      intros p v [[= -> ->] | Hin].
      * exists (length (cells st1)). split; [assumption|]. split; [lia|].
        now apply list_lookup_middle.
      * destruct (Hval p v Hin) as (c0 & Hg & Hle & Hlk).
        exists c0. split; [assumption|]. split; [|assumption].
        rewrite length_app in Hle. simpl in Hle. lia.
Qed.

(** X17: parameters passed by value.  When the bindings are installed in
    the new frame, every value formal gets a cell that did not exist
    before the call and holds the bound value; no cell of the caller is
    changed; and the installation succeeds only if the parameter names
    are pairwise different and none is already in the frame (a repeated
    name, or a parameter named like the receiver, is a Name error). *)
Theorem value_parameters_get_fresh_cells (bindings : list binding)
  (st1 st2 : Interp) (below : env_stack) (blk : block) :
  envs st1 !! env st1 = Some (below ++ [[blk]]) ->
  install_bindings bindings st1 = Ok (tt, st2) ->
  (forall a, (a < length (cells st1))%nat -> cells st2 !! a = cells st1 !! a)
  /\ (forall p v, In (ValBinding p v) bindings ->
        exists e2 c, envs st2 !! env st2 = Some e2
                     /\ Environment.lookup e2 p = Some c
                     /\ (length (cells st1) <= c)%nat
                     /\ cells st2 !! c = Some v)
  /\ NoDup (map binding_name bindings)
  /\ (forall p, In p (map binding_name bindings) -> Dict.get p blk = None).
Proof.
  intros He H.
  destruct (install_bindings_effect _ _ _ _ _ He H)
    as (blk' & news & He' & Hc' & _ & Hval & Hnd & Hfree).
  split; [|split; [|split; assumption]].
  - intros a Ha. rewrite Hc'. now apply lookup_app_l.
  - intros p v Hin. destruct (Hval p v Hin) as (c & Hg & Hle & Hlk).
    exists (below ++ [[blk']]), c. split; [assumption|].
    split; [now apply lookup_single_block|]. split; [assumption | congruence].
Qed.

Lemma value_parameters_get_fresh_cells_witness :
  let st1 := with_envs [[[[("ai", 0%nat)]]; [[]]]] (with_cells [vint 41] (Interp_init [])) in
  let st2 := with_envs [[[[("ai", 0%nat)]]; [[("xi", 1%nat)]]]]
               (with_cells [vint 41; vint 41] (Interp_init [])) in
  (forall a, (a < length (cells st1))%nat -> cells st2 !! a = cells st1 !! a)
  /\ (forall p v, In (ValBinding p v) [ValBinding "xi" (vint 41)] ->
        exists e2 c, envs st2 !! env st2 = Some e2
                     /\ Environment.lookup e2 p = Some c
                     /\ (length (cells st1) <= c)%nat
                     /\ cells st2 !! c = Some v)
  /\ NoDup (map binding_name [ValBinding "xi" (vint 41)])
  /\ (forall p, In p (map binding_name [ValBinding "xi" (vint 41)]) ->
        Dict.get p (@nil (string * nat)) = None).
Proof.
  intros st1 st2.
  apply (value_parameters_get_fresh_cells [ValBinding "xi" (vint 41)] st1 st2
           [[[("ai", 0%nat)]]] []); reflexivity.
Defined.

(* --------------------------------------------------------------------- *)
(** ** Statements *)
(* --------------------------------------------------------------------- *)

Lemma bind_ext {A B} (m : M A) (k1 k2 : A -> M B) (st : Interp) :
  (forall a st', k1 a st' = k2 a st') -> bind m k1 st = bind m k2 st.
Proof.
  intros H. unfold bind. destruct (m st) as [[a st']| | |]; [apply H | | |]; reflexivity.
Qed.

(** X18: [return] ends the statement list.  Whatever follows a [return]
    statement in a list of statements is never run: the list behaves as if
    it stopped at the [return]. *)
Theorem statements_after_return_are_dead
  (fuel : nat) (eval : expr -> M Value) (exec : list stmt -> M (Value * bool))
  (loop : expr -> list stmt -> Value -> M (Value * bool))
  (pre post : list stmt) (expression : option expr) (res : Value) (st : Interp) :
  run_statements_loop fuel eval exec loop (pre ++ Return expression :: post) res st
  = run_statements_loop fuel eval exec loop (pre ++ [Return expression]) res st.
Proof.
  revert st. induction pre as [|s pre IH]; intros st; [reflexivity|].
  simpl. destruct s; try (apply bind_ext; intros; apply IH); try reflexivity;
    apply bind_ext; intros r st'; (destruct (snd r); [reflexivity | apply IH]).
Qed.

(** X19: what [return] gives back.  With an expression, a function whose
    return type is Void ends in a Type error once the expression has been
    evaluated, even if its value is Void; otherwise a successful [return]
    hands back a value whose tag is the declared return type and whose
    payload is that of the expression, with the returned flag set.
    Without an expression the value is the default of the declared return
    type. *)
Theorem return_value_has_declared_type
  (fuel : nat) (eval : expr -> M Value) (e : expr) (val : Value) (st st1 : Interp) :
  eval e st = Ok (val, st1) ->
  (current_return_type st = VOID ->
   run_return fuel eval (Some e) st = Error TYPE_ERROR)
  /\ (forall r st2, run_return fuel eval (Some e) st = Ok (r, st2) ->
        snd r = true /\ st2 = st1
        /\ val_t (fst r) = current_return_type st
        /\ val_v (fst r) = val_v val)
  /\ (current_return_type st <> NIL ->
      exists dv, run_return fuel eval None st = Ok ((dv, true), st)
                 /\ default_value_for_type (current_return_type st) st = Ok (dv, st)
                 /\ val_t dv = current_return_type st).
Proof.
  intros He. split; [|split].
  - intros Hvoid. unfold run_return. unfold bind at 1. unfold gets at 1.
    unfold bind at 1. unfold gets at 1. rewrite (bind_Ok _ _ _ _ _ He), Hvoid.
    reflexivity.
  - intros r st2 H. unfold run_return in H. unfold bind at 1 in H. unfold gets at 1 in H.
    unfold bind at 1 in H. unfold gets at 1 in H. rewrite (bind_Ok _ _ _ _ _ He) in H.
    apply bind_inv_Ok in H as ([] & sta & Hv & H).
    apply error_if_Ok_inv in Hv as [_ ->].
    apply bind_inv_Ok in H as (value' & sta & Hchk & H).
    apply bind_inv_Ok in H as ([] & stb & Hci & H).
    pose proof (read_only_check_interface _ _ _ _ _ _ Hci) as ->.
    injection H as <- <-. simpl. split; [reflexivity|].
    destruct (is_none (val_v val) && type_in (val_t val) [OBJECT; FUNCTION])%bool eqn:Hnil.
    + destruct (type_in (current_return_type st) [OBJECT; FUNCTION]); [|discriminate].
      injection Hchk as <- <-. repeat split.
      apply andb_true_iff in Hnil as [Hn _]. now destruct (val_v val).
    + apply bind_inv_Ok in Hchk as ([] & stc & Hc & Hchk).
      apply error_if_Ok_inv in Hc as [Hc ->]. apply bool_decide_eq_false in Hc.
      injection Hchk as <- <-. repeat split.
      destruct (decide (val_t val = current_return_type st)); [assumption | contradiction].
  - intros Hnil. unfold run_return. unfold bind at 1. unfold gets at 1.
    unfold bind at 1. unfold gets at 1.
    destruct (current_return_type st) eqn:Hty; try contradiction;
      eexists; (split; [reflexivity|]); split; reflexivity.
Qed.

Lemma return_value_has_declared_type_witness :
  run_return 1 (eval_expr 2) (Some (IntNode 1)) (Interp_init []) = Error TYPE_ERROR.
Proof.
  apply (proj1 (return_value_has_declared_type 1 (eval_expr 2) (IntNode 1) (vint 1)
                  (Interp_init []) (Interp_init []) eq_refl)).
  reflexivity.
Defined.

(** X20: conditions.  A condition of [if] or [while] whose value is not
    a Bool is a Type error; a [while] whose condition is false does not
    run its body; and an [if] whose condition is false and that has no
    [else] leaves the environment stack as it was. *)
Theorem conditions_must_be_bool
  (eval : expr -> M Value) (exec : list stmt -> M (Value * bool))
  (loop : expr -> list stmt -> Value -> M (Value * bool))
  (condition : expr) (statements : list stmt) (cond : Value) (st st1 : Interp) :
  eval condition st = Ok (cond, st1) ->
  (val_t cond <> BOOL ->
   forall else_statements res,
     run_if eval exec condition statements else_statements st = Error TYPE_ERROR
     /\ run_while_step eval exec loop condition statements res st = Error TYPE_ERROR)
  /\ (cond = vbool false ->
      (forall res, run_while_step eval exec loop condition statements res st
                   = Ok ((res, false), st1))
      /\ (forall below fr,
            envs st1 !! env st1 = Some (below ++ [fr]) ->
            exists st2, run_if eval exec condition statements None st
                        = Ok ((Value_default, false), st2)
                        /\ envs st2 !! env st2 = Some (below ++ [fr])
                        /\ cells st2 = cells st1)).
Proof.
  intros Hc. split.
  - intros Hne els res. unfold run_if, run_while_step.
    rewrite !(bind_Ok _ _ _ _ _ Hc).
    rewrite (bool_decide_eq_true_2 (val_t cond <> BOOL)) by assumption. now split.
  - intros ->. split.
    + intros res. unfold run_while_step. now rewrite (bind_Ok _ _ _ _ _ Hc).
    + intros below fr He. unfold run_if. rewrite (bind_Ok _ _ _ _ _ Hc). simpl.
      rewrite bind_ret.
      destruct (enter_block_spec _ _ _ He) as (sta & Henter & Hea & Hca).
      rewrite (bind_Ok _ _ _ _ _ Henter), bind_ret.
      destruct (exit_block_spec _ _ _ _ Hea) as (stb & Hexit & Heb & Hcb).
      rewrite (bind_Ok _ _ _ _ _ Hexit).
      exists stb. split; [reflexivity|]. split; [assumption | congruence].
Qed.

Lemma conditions_must_be_bool_witness :
  run_if (eval_expr 2) (run_statements 2) (IntNode 1) [] None (Interp_init [])
  = Error TYPE_ERROR.
Proof.
  apply (proj1 (conditions_must_be_bool (eval_expr 2) (run_statements 2)
                  (run_while_loop 2) (IntNode 1) [] (vint 1)
                  (Interp_init []) (Interp_init []) eq_refl)
           ltac:(discriminate) None Value_default).
Defined.

(* --------------------------------------------------------------------- *)
(** ** The function table *)
(* --------------------------------------------------------------------- *)

Lemma key_eqb_eq (k1 k2 : string * list Type_) : key_eqb k1 k2 = true <-> k1 = k2.
Proof.
  unfold key_eqb, eq_type_list. destruct k1 as [n1 p1], k2 as [n2 p2]. simpl.
  rewrite andb_true_iff, String.eqb_eq, bool_decide_eq_true. split.
  - now intros [-> ->].
  - now intros [= -> ->].
Qed.

Lemma funcs_get_None (key : string * list Type_)
  (fs : list ((string * list Type_) * func_node)) :
  funcs_get key fs = None <-> ~ In key (map fst fs).
Proof.
  induction fs as [|[k f] rest IH]; simpl; [tauto|].
  destruct (key_eqb key k) eqn:Hk.
  - apply key_eqb_eq in Hk. subst. split; [discriminate | tauto].
  - rewrite IH. split; [|tauto]. intros Hn [-> | Hin]; [|tauto].
    rewrite (proj2 (key_eqb_eq key key) eq_refl) in Hk. discriminate.
Qed.

Lemma funcs_get_Some_In (key : string * list Type_) (f : func_node)
  (fs : list ((string * list Type_) * func_node)) :
  funcs_get key fs = Some f -> In (key, f) fs.
Proof.
  induction fs as [|[k g] rest IH]; simpl; [discriminate|].
  destruct (key_eqb key k) eqn:Hk.
  - apply key_eqb_eq in Hk. subst. intros [= ->]. now left.
  - intros H. right. now apply IH.
Qed.

Lemma funcs_get_In (key : string * list Type_) (f : func_node)
  (fs : list ((string * list Type_) * func_node)) :
  NoDup (map fst fs) -> In (key, f) fs -> funcs_get key fs = Some f.
Proof.
  induction fs as [|[k g] rest IH]; simpl; [tauto|].
  intros Hnd Hin. apply NoDup_cons in Hnd as [Hk Hnd].
  destruct Hin as [[= -> ->] | Hin].
  - now rewrite (proj2 (key_eqb_eq key key) eq_refl).
  - destruct (key_eqb key k) eqn:Hke; [|now apply IH].
    apply key_eqb_eq in Hke. subst. contradiction Hk.
    apply list_elem_of_In. change k with (fst (k, f)). now apply in_map.
Qed.

Lemma declared_of_suffix_name_any_state (name : string) (is_func : bool)
  (st st' st1 : Interp) (d : Type_ * option string) :
  declared_of_suffix_name name is_func st = Ok (d, st') ->
  declared_of_suffix_name name is_func st1 = Ok (d, st1).
Proof.
  unfold declared_of_suffix_name, type_from_suffix.
  destruct (Py.last_char name) as [c|]; [|discriminate].
  simpl. rewrite !bind_ret.
  repeat match goal with
         | |- context [if ?b then _ else _] => destruct b
         end; try discriminate; intros H; injection H as <- _; reflexivity.
Qed.

Lemma declared_param_types_any_state (args : list arg_node) :
  forall (st st' st1 : Interp) (ptypes : list Type_),
    declared_param_types args st = Ok (ptypes, st') ->
    declared_param_types args st1 = Ok (ptypes, st1).
Proof.
  induction args as [|arg rest IH]; intros st st' st1 ptypes H; simpl in *.
  - now injection H as <- _.
  - apply bind_inv_Ok in H as (d & sta & Hd & H).
    apply bind_inv_Ok in H as (rest' & stb & Hr & H). injection H as <- _.
    unfold param_declared in *.
    rewrite (bind_Ok _ _ _ _ _ (declared_of_suffix_name_any_state _ _ _ _ st1 _ Hd)).
    now rewrite (bind_Ok _ _ _ _ _ (IH _ _ st1 _ Hr)).
Qed.

Lemma with_funcs_with_funcs (f g : list ((string * list Type_) * func_node))
  (st : Interp) :
  with_funcs f (with_funcs g st) = with_funcs f st.
Proof. reflexivity. Qed.

Lemma add_function_effect (func : func_node) (st st' : Interp) :
  add_function func st = Ok (tt, st') ->
  exists ptypes,
    declared_param_types (fn_args func) st = Ok (ptypes, st)
    /\ funcs_get (fn_name func, ptypes) (funcs st) = None
    /\ st' = with_funcs (funcs st ++ [((fn_name func, ptypes), func)]) st
    /\ (fn_name func = "main" -> fn_args func = []).
Proof.
  unfold add_function. intros H.
  apply bind_inv_Ok in H as ([] & sta & Hhead & H).
  assert (sta = st /\ (fn_name func = "main" -> fn_args func = [])) as [-> Hmain].
  { destruct (String.eqb_spec (fn_name func) "main") as [Hn|Hn].
    - apply error_if_Ok_inv in Hhead as [Hlen ->]. split; [reflexivity|]. intros _.
      apply negb_false_iff, Nat.eqb_eq in Hlen. now destruct (fn_args func).
    - apply bind_inv_Ok in Hhead as (d & stb & Hd & Hhead). injection Hhead as <-.
      split; [|congruence].
      unfold declared_of_suffix_name in Hd.
      revert Hd. apply read_only_bind; [apply read_only_or_raise|].
      intros c. destruct (Py.isupper c); [apply read_only_ret|].
      apply read_only_bind; [apply read_only_type_from_suffix|].
      intros ?. apply read_only_ret. }
  apply bind_inv_Ok in H as (ptypes & sta & Hp & H).
  pose proof (declared_param_types_any_state _ _ _ st _ Hp) as Hp'.
  rewrite Hp' in Hp. injection Hp as <-.
  unfold bind at 1 in H. unfold gets at 1 in H.
  destruct (funcs_get (fn_name func, ptypes) (funcs st)) eqn:Hget; [discriminate|].
  unfold modify in H. injection H as <-. now exists ptypes.
Qed.

Lemma add_functions_effect (fs : list func_node) :
  forall (st st' : Interp),
    add_functions fs st = Ok (tt, st') ->
    exists added,
      funcs st' = funcs st ++ added
      /\ st' = with_funcs (funcs st') st
      /\ map snd added = fs
      /\ Forall (fun entry =>
                   fst (fst entry) = fn_name (snd entry)
                   /\ declared_param_types (fn_args (snd entry)) st
                      = Ok (snd (fst entry), st)
                   /\ (fn_name (snd entry) = "main" -> fn_args (snd entry) = []))
           added
      /\ (NoDup (map fst (funcs st)) -> NoDup (map fst (funcs st')))
      /\ (fs = [] -> st' = st).
Proof.
  induction fs as [|f rest IH]; intros st st' H; simpl in H.
  - injection H as <-. exists []. rewrite app_nil_r.
    repeat split; auto. now destruct st.
  - apply bind_inv_Ok in H as ([] & st1 & Hadd & H).
    apply add_function_effect in Hadd as (ptypes & Hp & Hfree & -> & Hmain).
    apply IH in H as (added & Hfs & Hst' & Hmap & Hall & Hnd & _).
    simpl in Hfs, Hst'. rewrite <- app_assoc in Hfs. simpl in Hfs.
    exists (((fn_name f, ptypes), f) :: added).
    split; [assumption|]. split; [assumption|]. split; [simpl; now f_equal|].
    split; [|split; [|discriminate]].
    + constructor; [simpl; repeat split; assumption|].
      eapply Forall_impl; [exact Hall|]. intros [k g] (Hn & Hd & Hm). simpl in *.
      repeat split; try assumption.
      now apply (declared_param_types_any_state _ _ _ st _ Hd).
    + intros Hnd0. apply Hnd. simpl. rewrite map_app. simpl.
      apply NoDup_app. split; [assumption|]. split; [|apply NoDup_singleton].
      intros k Hk Hk'. apply list_elem_of_singleton in Hk'. subst k.
      apply funcs_get_None in Hfree. apply Hfree. now apply list_elem_of_In.
Qed.

Lemma create_function_table_effect (ast : program) (st st' : Interp) :
  create_function_table ast st = Ok (tt, st') ->
  st' = with_funcs (funcs st') st
  /\ map snd (funcs st') = prog_functions ast
  /\ NoDup (map fst (funcs st'))
  /\ Forall (fun entry =>
               fst (fst entry) = fn_name (snd entry)
               /\ declared_param_types (fn_args (snd entry)) st
                  = Ok (snd (fst entry), st)
               /\ (fn_name (snd entry) = "main" -> fn_args (snd entry) = []))
       (funcs st').
Proof.
  unfold create_function_table. intros H. unfold bind at 1 in H. unfold modify at 1 in H.
  apply add_functions_effect in H as (added & Hfs & Hst' & Hmap & Hall & Hnd & _).
  simpl in Hfs, Hst', Hnd. rewrite Hfs.
  split; [now rewrite <- Hfs|]. split; [assumption|].
  split; [rewrite <- Hfs; apply Hnd; constructor|].
  eapply Forall_impl; [exact Hall|]. intros [k g] (Hn & Hd & Hm). simpl in *.
  repeat split; try assumption.
  now apply (declared_param_types_any_state _ _ _ st _ Hd).
Qed.

(** X21: the function table.  After a successful construction the table
    lists the functions of the program in source order, each under the key
    made of its name and the declared types of its parameters; no key
    occurs twice (two functions may share a name only with different
    parameter types); and looking a key up gives back the function stored
    under it. *)
Theorem function_table_keys (ast : program) (st st' : Interp) :
  create_function_table ast st = Ok (tt, st') ->
  st' = with_funcs (funcs st') st
  /\ map snd (funcs st') = prog_functions ast
  /\ NoDup (map fst (funcs st'))
  /\ (forall key f, In (key, f) (funcs st') ->
        fst key = fn_name f
        /\ declared_param_types (fn_args f) st = Ok (snd key, st)
        /\ get_function (fst key) (snd key) st' = Ok (f, st')).
Proof.
  intros H. apply create_function_table_effect in H as (Hst' & Hmap & Hnd & Hall).
  split; [assumption|]. split; [assumption|]. split; [assumption|].
  intros key f Hin. rewrite Forall_forall in Hall.
  destruct (Hall (key, f) (proj2 (list_elem_of_In _ _) Hin)) as (Hn & Hd & _). simpl in *.
  split; [assumption|]. split; [assumption|].
  unfold get_function. unfold bind at 1. unfold gets at 1.
  destruct key as [n p]. simpl. now rewrite (funcs_get_In _ _ _ Hnd Hin).
Qed.

Lemma function_table_keys_witness :
  let st' := with_funcs [(("pv", [INT]), pv_int); (("pv", [STRING]), pv_str)]
               (Interp_init []) in
  st' = with_funcs (funcs st') (Interp_init [])
  /\ map snd (funcs st') = prog_functions (Program [] [pv_int; pv_str])
  /\ NoDup (map fst (funcs st'))
  /\ (forall key f, In (key, f) (funcs st') ->
        fst key = fn_name f
        /\ declared_param_types (fn_args f) (Interp_init []) = Ok (snd key, Interp_init [])
        /\ get_function (fst key) (snd key) st' = Ok (f, st')).
Proof.
  intros st'.
  apply (function_table_keys (Program [] [pv_int; pv_str]) (Interp_init []) st').
  reflexivity.
Defined.

(** X22: [main].  A program whose table is built has no [main] with
    parameters, and a [main] it contains is found under the empty
    parameter tuple; a program without a function named [main] ends in a
    Name error once both tables are built, before anything is run. *)
Theorem main_is_required (fuel : nat) (ast : program) (st st1 st2 : Interp) :
  create_interface_table ast st = Ok (tt, st1) ->
  create_function_table ast st1 = Ok (tt, st2) ->
  (forall f, In f (prog_functions ast) -> fn_name f = "main" ->
     fn_args f = [] /\ get_function "main" [] st2 = Ok (f, st2))
  /\ ((forall f, In f (prog_functions ast) -> fn_name f <> "main") ->
      run fuel ast st = Error NAME_ERROR).
Proof.
  intros Hi Hf.
  pose proof (create_function_table_effect _ _ _ Hf) as (Hst' & Hmap & Hnd & Hall).
  rewrite Forall_forall in Hall. split.
  - intros f Hin Hname. rewrite <- Hmap in Hin. apply in_map_iff in Hin as ([k g] & <- & Hin).
    simpl in *.
    destruct (Hall (k, g) (proj2 (list_elem_of_In _ _) Hin)) as (Hn & Hd & Hmain).
    simpl in *. specialize (Hmain Hname). split; [assumption|].
    rewrite Hmain in Hd. simpl in Hd. injection Hd as Hp.
    unfold get_function. unfold bind at 1. unfold gets at 1.
    destruct k as [n p]. simpl in *. subst n p. rewrite Hname in Hin.
    now rewrite (funcs_get_In _ _ _ Hnd Hin).
  - intros Hnomain. unfold run.
    rewrite (bind_Ok _ _ _ _ _ Hi), (bind_Ok _ _ _ _ _ Hf).
    apply bind_Error. unfold get_function. unfold bind at 1. unfold gets at 1.
    destruct (funcs_get ("main", []) (funcs st2)) eqn:Hget; [|reflexivity].
    exfalso. apply funcs_get_Some_In in Hget.
    destruct (Hall _ (proj2 (list_elem_of_In _ _) Hget)) as (Hn & _). simpl in Hn.
    apply (Hnomain f); [|congruence].
    rewrite <- Hmap. change f with (snd (("main", @nil Type_), f)). now apply in_map.
Qed.

Lemma main_is_required_witness :
  run 5 (Program [] [pv_int]) (Interp_init []) = Error NAME_ERROR.
Proof.
  apply (proj2 (main_is_required 5 (Program [] [pv_int]) (Interp_init [])
                  (Interp_init [])
                  (with_funcs [(("pv", [INT]), pv_int)] (Interp_init []))
                  eq_refl eq_refl)).
  intros f [<- | []]. discriminate.
Defined.

(* --------------------------------------------------------------------- *)
(** ** The interface table *)
(* --------------------------------------------------------------------- *)

Lemma Dict_mem_In {V} (k : string) (d : list (string * V)) :
  Dict.mem k d = true <-> In k (map fst d).
Proof.
  unfold Dict.mem. induction d as [|[k' x] rest IH]; simpl.
  - split; [discriminate | tauto].
  - destruct (String.eqb_spec k k') as [->|Hne].
    + split; [now left | reflexivity].
    + rewrite IH. split; [now right|]. intros [Heq | Hin]; [congruence | assumption].
Qed.

Lemma Dict_set_absent {V} (k : string) (x : V) (d : list (string * V)) :
  Dict.mem k d = false -> Dict.set k x d = d ++ [(k, x)].
Proof.
  unfold Dict.mem. induction d as [|[k' y] rest IH]; simpl; [reflexivity|].
  destruct (String.eqb k k'); [discriminate|]. intros H. now rewrite IH.
Qed.

Lemma interface_from_name_any_state (name : string) (st st' st1 : Interp)
  (i : option string) :
  interface_from_name name st = Ok (i, st') -> interface_from_name name st1 = Ok (i, st1).
Proof.
  unfold interface_from_name. destruct (Py.last_char name); [|discriminate].
  simpl. rewrite !bind_ret. now intros [= <- _].
Qed.

Lemma read_only_interface_params (params : list arg_node) :
  read_only (interface_params params).
Proof. induction params as [|arg rest IH]; simpl; read_only_tac. Qed.

(** Every interface named by a var field is in the table when the field
    is processed. *)
Lemma interface_fields_refs (fields : list field_node) :
  forall (info info' : list (string * field_spec)) (st st' : Interp),
    interface_fields fields info st = Ok (info', st') ->
    st' = st
    /\ (forall fname i, In (FieldVar fname) fields ->
          interface_from_name fname st = Ok (Some i, st) ->
          Dict.mem i (interfaces st) = true).
Proof.
  induction fields as [|field rest IH]; intros info info' st st' H; simpl in H.
  - injection H as _ <-. split; [reflexivity | intros ? ? []].
  - apply bind_inv_Ok in H as ([] & sta & Hdup & H).
    apply error_if_Ok_inv in Hdup as [_ ->].
    destruct field as [fname | fname params | fname]; simpl in H.
    + apply bind_inv_Ok in H as (ftype & sta & Hty & H).
      pose proof (read_only_type_from_name _ _ _ _ Hty) as ->.
      apply bind_inv_Ok in H as (finterface & sta & Hif & H).
      pose proof (read_only_interface_from_name _ _ _ _ Hif) as ->.
      unfold bind at 1 in H. unfold gets at 1 in H.
      apply bind_inv_Ok in H as ([] & sta & Hknown & H).
      apply error_if_Ok_inv in Hknown as [Hknown ->].
      apply IH in H as [-> Hrest]. split; [reflexivity|].
      intros fname' i [[= <-] | Hin] Hi; [|now apply (Hrest fname')].
      rewrite Hif in Hi. injection Hi as ->. now apply negb_false_iff in Hknown.
    + apply bind_inv_Ok in H as (params_info & sta & Hp & H).
      pose proof (read_only_interface_params _ _ _ _ Hp) as ->.
      apply IH in H as [-> Hrest]. split; [reflexivity|].
      intros fname' i [Hin | Hin] Hi; [discriminate | now apply (Hrest fname')].
    + discriminate.
Qed.

Lemma is_interface_name_single (name : string) :
  is_interface_name name = true ->
  exists c, name = String c EmptyString /\ Py.isupper c = true.
Proof.
  destruct name as [|c [|]]; try discriminate. intros H. now exists c.
Qed.

Lemma add_interfaces_effect (nodes : list interface_node) :
  forall (st st' : Interp),
    add_interfaces nodes st = Ok (tt, st') ->
    exists added,
      interfaces st' = interfaces st ++ added
      /\ map fst added = map in_name nodes
      /\ Forall (fun node => is_interface_name (in_name node) = true) nodes
      /\ (forall name, In name (map in_name nodes) -> ~ In name (map fst (interfaces st)))
      /\ NoDup (map in_name nodes)
      /\ (forall pre node post fname i,
            nodes = pre ++ node :: post ->
            In (FieldVar fname) (in_fields node) ->
            interface_from_name fname st = Ok (Some i, st) ->
            In i (map fst (interfaces st) ++ map in_name pre)).
Proof.
  induction nodes as [|node rest IH]; intros st st' H; simpl in H.
  - injection H as <-. exists []. rewrite app_nil_r.
    split; [reflexivity|]. split; [reflexivity|]. split; [constructor|].
    split; [intros ? []|]. split; [constructor|].
    intros pre node post fname i Hnil. destruct pre; discriminate Hnil.
  - apply bind_inv_Ok in H as ([] & sta & Hname & H).
    apply error_if_Ok_inv in Hname as [Hname ->]. apply negb_false_iff in Hname.
    unfold bind at 1 in H. unfold gets at 1 in H.
    apply bind_inv_Ok in H as ([] & sta & Hdup & H).
    apply error_if_Ok_inv in Hdup as [Hdup ->].
    apply bind_inv_Ok in H as (fields_info & sta & Hfields & H).
    apply interface_fields_refs in Hfields as [-> Hrefs].
    unfold bind at 1 in H. unfold modify at 1 in H.
    apply IH in H as (added & Hi & Hmap & Hall & Hfresh & Hnd & Hearlier).
    simpl in Hi, Hfresh, Hearlier. rewrite (Dict_set_absent _ _ _ Hdup) in *.
    rewrite <- app_assoc in Hi. simpl in Hi.
    assert (Hnotin : ~ In (in_name node) (map fst (interfaces st))).
    { intros Hin. apply Dict_mem_In in Hin. congruence. }
    exists ((in_name node, fields_info) :: added).
    split; [assumption|]. split; [simpl; now f_equal|].
    split; [now constructor|]. split; [|split].
    + intros name [<- | Hin]; [assumption|].
      intros Hin'. apply (Hfresh name Hin). rewrite map_app. apply in_or_app. now left.
    + simpl. apply NoDup_cons. split; [|assumption].
      intros Hin. apply list_elem_of_In in Hin. apply (Hfresh _ Hin).
      rewrite map_app. apply in_or_app. right. now left.
    + intros pre node' post fname i Hsplit Hin Hi'.
      destruct pre as [|p pre]; simpl in Hsplit; injection Hsplit as <- ->.
      * rewrite app_nil_r. apply Dict_mem_In. now apply (Hrefs fname).
      * specialize (Hearlier pre node' post fname i eq_refl Hin
                      (interface_from_name_any_state _ _ _ _ _ Hi')).
        rewrite map_app, <- app_assoc in Hearlier. exact Hearlier.
Qed.

(** X23: the interface table.  A program whose interface table is built
    has interfaces named by single upper-case letters, all different; and
    an interface named by a var field of an interface is one that the
    source defines strictly earlier: an interface cannot name itself or an
    interface defined after it. *)
Theorem interface_references_point_backwards (ast : program) (st st' : Interp) :
  create_interface_table ast st = Ok (tt, st') ->
  map fst (interfaces st') = map in_name (prog_interfaces ast)
  /\ Forall (fun node => is_interface_name (in_name node) = true) (prog_interfaces ast)
  /\ NoDup (map in_name (prog_interfaces ast))
  /\ (forall pre node post fname i,
        prog_interfaces ast = pre ++ node :: post ->
        In (FieldVar fname) (in_fields node) ->
        interface_from_name fname st = Ok (Some i, st) ->
        In i (map in_name pre) /\ i <> in_name node).
Proof.
  unfold create_interface_table. intros H.
  unfold bind at 1 in H. unfold modify at 1 in H.
  apply add_interfaces_effect in H as (added & Hi & Hmap & Hall & _ & Hnd & Hearlier).
  simpl in Hi, Hearlier. split; [congruence|]. split; [assumption|].
  split; [assumption|].
  intros pre node post fname i Hsplit Hin Hif.
  specialize (Hearlier pre node post fname i Hsplit Hin
                (interface_from_name_any_state _ _ _ _ _ Hif)).
  simpl in Hearlier. split; [assumption|]. intros ->.
  rewrite Hsplit, map_app in Hnd. simpl in Hnd.
  apply NoDup_app in Hnd as (_ & Hdisj & _).
  apply (Hdisj (in_name node)); [now apply list_elem_of_In | left].
Qed.

Lemma interface_references_point_backwards_witness :
  let ast := Program [InterfaceNode "A" [FieldVar "xi"];
                      InterfaceNode "B" [FieldVar "aA"]] [] in
  map fst (interfaces (with_interfaces
                         [("A", [("xi", VarField INT None)]);
                          ("B", [("aA", VarField OBJECT (Some "A"))])] (Interp_init [])))
  = map in_name (prog_interfaces ast)
  /\ Forall (fun node => is_interface_name (in_name node) = true) (prog_interfaces ast)
  /\ NoDup (map in_name (prog_interfaces ast))
  /\ (forall pre node post fname i,
        prog_interfaces ast = pre ++ node :: post ->
        In (FieldVar fname) (in_fields node) ->
        interface_from_name fname (Interp_init []) = Ok (Some i, Interp_init []) ->
        In i (map in_name pre) /\ i <> in_name node).
Proof.
  intros ast.
  apply (interface_references_point_backwards ast (Interp_init [])). reflexivity.
Defined.

(** A self-referring interface [A { nA }] is refused with a Name error. *)
Example self_referring_interface_rejected :
  create_interface_table (Program [InterfaceNode "A" [FieldVar "nA"]] []) (Interp_init [])
  = Error NAME_ERROR.
Proof. reflexivity. Qed.

(* --------------------------------------------------------------------- *)
(** ** Structural conformance to an interface *)
(* --------------------------------------------------------------------- *)

(** X24: conformance is structural.  For a declared interface with only
    primitive var fields, an allocated object conforms exactly when every
    field of the interface is a field of the object holding a value of the
    declared type; other fields of the object are not looked at, and the
    check changes nothing. *)
Theorem flat_interface_conformance (fuel : nat) (iname : string)
  (fields : list (string * field_spec)) (id : Z) (object_fields : list (string * nat))
  (st : Interp) :
  Dict.get iname (interfaces st) = Some fields ->
  flat_interface fields ->
  heap st !! id = Some object_fields ->
  (forall fname c, Dict.get fname object_fields = Some c -> (c < length (cells st))%nat) ->
  exists b,
    object_satisfies_interface (S fuel) (Some iname) (vobj id) st = Ok (b, st)
    /\ (b = true <->
        forall fname ty, In (fname, VarField ty None) fields ->
                         field_has_type st object_fields fname ty).
Proof.
  intros Hi Hflat Hobj Hcells. simpl.
  unfold bind at 1. unfold gets at 1. rewrite Hi.
  unfold heap_get. unfold bind at 1. unfold bind at 1. unfold gets at 1. unfold ret at 1.
  unfold vobj; cbn [val_v]. rewrite Hobj. clear Hi.
  induction Hflat as [|[fname spec] rest (ty & Hspec) Hrest IH]; simpl.
  - exists true. split; [reflexivity|]. split; [intros _ ? ? [] | reflexivity].
  - simpl in Hspec. subst spec.
    destruct (Dict.get fname object_fields) as [c|] eqn:Hf.
    + destruct (lookup_lt_is_Some_2 _ _ (Hcells _ _ Hf)) as (v & Hv).
      unfold bind at 1. unfold Cell_get at 1. rewrite Hv.
      destruct (decide (val_t v = ty)) as [Hty | Hty].
      * rewrite (bool_decide_eq_false_2 _ (fun H => H Hty)).
        destruct IH as (b & -> & Hb). exists b. split; [reflexivity|].
        rewrite Hb. split.
        -- intros Hall fname' ty' [[= <- <-] | Hin]; [|now apply Hall].
           now exists c, v.
        -- intros Hall fname' ty' Hin. apply Hall. now right.
      * rewrite (bool_decide_eq_true_2 _ Hty). exists false.
        split; [reflexivity|]. split; [discriminate|].
        intros Hall. exfalso.
        destruct (Hall fname ty (or_introl eq_refl)) as (c' & v' & Hc' & Hv' & Hty').
        rewrite Hf in Hc'. injection Hc' as <-. rewrite Hv in Hv'. congruence.
    + exists false. split; [reflexivity|]. split; [discriminate|].
      intros Hall. exfalso.
      destruct (Hall fname ty (or_introl eq_refl)) as (c' & v' & Hc' & _). congruence.
Qed.

Lemma flat_interface_conformance_witness :
  let st := with_interfaces [("P", [("xi", VarField INT None)])] object_state_xi in
  exists b,
    object_satisfies_interface 1 (Some "P") (vobj 1) st = Ok (b, st)
    /\ (b = true <->
        forall fname ty, In (fname, VarField ty None) [("xi", VarField INT None)] ->
                         field_has_type st [("xi", 1%nat)] fname ty).
Proof.
  intros st.
  apply (flat_interface_conformance 0 "P" [("xi", VarField INT None)] 1 [("xi", 1%nat)] st).
  - reflexivity.
  - constructor; [now exists INT | constructor].
  - reflexivity.
  - intros fname c. unfold Dict.get. simpl.
    destruct (String.eqb fname "xi"); [|discriminate]. intros [= <-]. simpl. lia.
Defined.

(* --------------------------------------------------------------------- *)
(** ** Allocation *)
(* --------------------------------------------------------------------- *)

(** X25: allocation.  Where every allocated object lies below the
    allocation counter, [new_object] returns an identity that no object
    had, gives it no fields, keeps every other object and every cell, and
    keeps the counter above the heap. *)
Theorem new_object_is_fresh (st : Interp) :
  heap_below_counter st ->
  exists id st',
    new_object st = Ok (vobj id, st')
    /\ heap st !! id = None
    /\ heap st' !! id = Some []
    /\ (forall id', id' <> id -> heap st' !! id' = heap st !! id')
    /\ cells st' = cells st
    /\ heap_below_counter st'.
Proof.
  intros Hinv. exists (next_obj_id st). eexists. split; [reflexivity|]. simpl.
  split; [|split; [|split; [|split]]].
  - destruct (heap st !! next_obj_id st) eqn:Hid; [|reflexivity].
    specialize (Hinv (next_obj_id st)). rewrite Hid in Hinv.
    specialize (Hinv (mk_is_Some _ _ eq_refl)). lia.
  - apply lookup_insert_eq.
  - intros id' Hne. now apply lookup_insert_ne.
  - reflexivity.
  - intros id'. unfold heap_below_counter in *. simpl.
    destruct (decide (id' = next_obj_id st)) as [->|Hne]; [lia|].
    rewrite lookup_insert_ne by congruence. intros Hsome.
    specialize (Hinv id' Hsome). lia.
Qed.

Lemma new_object_is_fresh_witness :
  exists id st',
    new_object (with_next_obj_id 2 object_state_xi) = Ok (vobj id, st')
    /\ heap (with_next_obj_id 2 object_state_xi) !! id = None
    /\ heap st' !! id = Some []
    /\ (forall id', id' <> id -> heap st' !! id' = heap (with_next_obj_id 2 object_state_xi) !! id')
    /\ cells st' = cells (with_next_obj_id 2 object_state_xi)
    /\ heap_below_counter st'.
Proof.
  apply (new_object_is_fresh (with_next_obj_id 2 object_state_xi)).
  intros id. unfold object_state_xi, object_state. simpl.
  destruct (decide (id = 1)) as [->|Hne]; [intros _; reflexivity|].
  rewrite !lookup_insert_ne by congruence. rewrite lookup_empty.
  intros [x Hx]. discriminate Hx.
Defined.

(* --------------------------------------------------------------------- *)
(** ** Conversions *)
(* --------------------------------------------------------------------- *)

(** X26: conversions.  A conversion that returns changes no state, has a
    target among [int], [str] and [bool] and a source among Int, String
    and Bool, gives a value of the target's tag, and gives back the very
    value when the source already has that tag. *)
Theorem conversion_result_tag (to_type : string) (val val' : Value) (st st' : Interp) :
  convert_value to_type val st = Ok (val', st') ->
  st' = st
  /\ conversion_target to_type = Some (val_t val')
  /\ In (val_t val) [INT; STRING; BOOL]
  /\ (val_t val = val_t val' -> val' = val).
Proof.
  unfold convert_value, conversion_target. destruct val as [ty p]. simpl.
  destruct (String.eqb to_type "int"); [|destruct (String.eqb to_type "str");
    [|destruct (String.eqb to_type "bool"); [|discriminate]]];
    destruct ty; try discriminate;
    try (intros [= <- <-]; simpl; repeat split; tauto);
    destruct p as [|z|s|b|fv]; try discriminate; simpl;
    try (destruct (Py.int_of_str s); [|discriminate]);
    intros [= <- <-]; simpl; (split; [reflexivity|]); (split; [reflexivity|]);
    (split; [tauto | discriminate]).
Qed.

Lemma conversion_result_tag_witness :
  Interp_init [] = Interp_init []
  /\ conversion_target "bool" = Some (val_t (vbool true))
  /\ In (val_t (vint 3)) [INT; STRING; BOOL]
  /\ (val_t (vint 3) = val_t (vbool true) -> vbool true = vint 3).
Proof.
  apply (conversion_result_tag "bool" (vint 3) (vbool true) (Interp_init []) (Interp_init [])).
  reflexivity.
Defined.

Lemma digit_of_pretty_N_char (d : N) :
  (d < 10)%N -> Py.digit_of (pretty_N_char d) = Some (Z.of_N d).
Proof.
  intros Hd.
  assert (d = 0 \/ d = 1 \/ d = 2 \/ d = 3 \/ d = 4 \/ d = 5 \/ d = 6 \/ d = 7
          \/ d = 8 \/ d = 9)%N as Hcases by lia.
  repeat (destruct Hcases as [-> | Hcases]; [reflexivity|]). now subst d.
Qed.

Lemma not_space_pretty_N_char (d : N) : not_space (pretty_N_char d) = true.
Proof. unfold pretty_N_char. repeat case_match; reflexivity. Qed.

(** Reading back the digits that [str] writes. *)
Lemma digits_pretty_N_go (x : N) :
  forall (s : string) (prev : bool),
    (0 < x)%N ->
    Py.digits 0 prev (pretty_N_go x s) = Py.digits (Z.of_N x) true s.
Proof.
  induction (N.lt_wf_0 x) as [x _ IH]. intros s prev Hx.
  rewrite pretty_N_go_step by assumption.
  assert (Hd := digit_of_pretty_N_char (x `mod` 10)%N ltac:(apply N.mod_lt; lia)).
  assert (Hx10 : Z.of_N x = 10 * Z.of_N (x `div` 10)%N + Z.of_N (x `mod` 10)%N).
  { pose proof (N.div_mod x 10 ltac:(lia)) as Hdm.
    rewrite Hdm at 1. rewrite N2Z.inj_add, N2Z.inj_mul. reflexivity. }
  destruct (decide (x `div` 10 = 0)%N) as [H0 | Hpos].
  - rewrite H0, pretty_N_go_0. simpl. rewrite Hd. f_equal. rewrite Hx10, H0. lia.
  - rewrite (IH (x `div` 10)%N); [| apply N.div_lt; lia | now apply N.neq_0_lt_0].
    simpl. rewrite Hd. now rewrite Hx10.
Qed.

Lemma plain_pretty_N_char (d : N) : plain_char (pretty_N_char d) = true.
Proof. unfold pretty_N_char. repeat case_match; reflexivity. Qed.

Lemma all_chars_pretty_N_go (p : ascii -> bool) (x : N) :
  (forall d, p (pretty_N_char d) = true) ->
  forall s, all_chars p s = true -> all_chars p (pretty_N_go x s) = true.
Proof.
  intros Hp. induction (N.lt_wf_0 x) as [x _ IH]. intros s Hs.
  destruct (decide (0 < x)%N) as [Hx | Hx].
  - rewrite pretty_N_go_step by assumption. apply IH; [apply N.div_lt; lia|].
    simpl. now rewrite Hp.
  - replace x with 0%N by lia. now rewrite pretty_N_go_0.
Qed.

Lemma lstrip_no_space (s : string) : all_chars not_space s = true -> Py.lstrip s = s.
Proof.
  destruct s as [|c rest]; [reflexivity|]. simpl. unfold not_space.
  destruct (Py.is_space c); [discriminate | reflexivity].
Qed.

Lemma all_chars_rev (s : string) :
  forall acc, all_chars not_space acc = true -> all_chars not_space s = true ->
              all_chars not_space (Py.rev_string_aux acc s) = true.
Proof.
  induction s as [|c rest IH]; intros acc Hacc Hs; simpl in *; [assumption|].
  apply andb_true_iff in Hs as [Hc Hrest]. apply IH; [|assumption].
  simpl. now rewrite Hc.
Qed.

Lemma rev_string_aux_twice (s : string) :
  forall a b, Py.rev_string_aux a (Py.rev_string_aux b s) = Py.rev_string_aux (s +:+ a) b.
Proof.
  induction s as [|c rest IH]; intros a b; simpl; [reflexivity|].
  rewrite IH. reflexivity.
Qed.

(** [strip] leaves a string without white space as it is. *)
Lemma strip_no_space (s : string) : all_chars not_space s = true -> Py.strip s = s.
Proof.
  intros Hs. unfold Py.strip. rewrite (lstrip_no_space s Hs).
  rewrite lstrip_no_space by now apply all_chars_rev.
  rewrite rev_string_aux_twice. simpl. apply append_empty_r.
Qed.

Lemma int_of_ascii_unsigned (body : string) (r : Z) :
  Py.strip body = body -> Py.digits 0 false body = Some r -> Py.int_of_ascii body = Some r.
Proof.
  intros Hstrip Hd. unfold Py.int_of_ascii. rewrite Hstrip.
  destruct body as [|c rest]; [assumption|].
  destruct c as [[] [] [] [] [] [] [] []]; try exact Hd; simpl in Hd; discriminate Hd.
Qed.

Lemma pretty_Z_cases (z : Z) :
  z = 0 /\ pretty z = "0"
  \/ (exists p, z = Z.pos p /\ pretty z = pretty_N_go (N.pos p) "")
  \/ (exists p, z = Z.neg p /\ pretty z = String "-" (pretty_N_go (N.pos p) "")).
Proof.
  destruct z as [|p|p]; [now left | right; left | right; right]; exists p;
    (split; [reflexivity|]); unfold pretty, pretty_Z, pretty, pretty_positive, pretty, pretty_N;
    now destruct (decide (N.pos p = 0%N)).
Qed.

Lemma int_of_ascii_str_int (z : Z) : Py.int_of_ascii (Py.str_int z) = Some z.
Proof.
  unfold Py.str_int.
  destruct (pretty_Z_cases z) as [[-> ->] | [(p & -> & ->) | (p & -> & ->)]];
    [reflexivity | |].
  - apply int_of_ascii_unsigned.
    + apply strip_no_space.
      apply all_chars_pretty_N_go; [apply not_space_pretty_N_char | reflexivity].
    + now rewrite digits_pretty_N_go by lia.
  - unfold Py.int_of_ascii. rewrite strip_no_space.
    + rewrite digits_pretty_N_go by lia. reflexivity.
    + simpl. apply all_chars_pretty_N_go; [apply not_space_pretty_N_char | reflexivity].
Qed.

(** A string of characters below U+007F is its own decoding, and [int]
    reads its numeral as it is. *)
Lemma code_points_plain (s : string) :
  all_chars plain_char s = true ->
  Py.code_points s = Some (map N_of_ascii (list_ascii_of_string s)).
Proof.
  induction s as [|c rest IH]; [reflexivity|]. simpl. unfold plain_char at 1.
  intros H. apply andb_true_iff in H as [Hc Hrest]. apply N.ltb_lt in Hc.
  rewrite (proj2 (N.ltb_lt _ 128)) by lia. now rewrite IH.
Qed.

Lemma numeral_chars_plain (s : string) :
  all_chars plain_char s = true ->
  Py.numeral_chars (map N_of_ascii (list_ascii_of_string s)) = Some s.
Proof.
  induction s as [|c rest IH]; [reflexivity|]. simpl. unfold plain_char at 1.
  intros H. apply andb_true_iff in H as [Hc Hrest].
  unfold Py.numeral_char. rewrite Hc, ascii_N_embedding. now rewrite IH.
Qed.

Lemma int_of_str_plain (s : string) :
  all_chars plain_char s = true -> Py.int_of_str s = Py.int_of_ascii s.
Proof.
  intros H. unfold Py.int_of_str.
  now rewrite (code_points_plain s H), (numeral_chars_plain s H).
Qed.

Lemma plain_str_int (z : Z) : all_chars plain_char (Py.str_int z) = true.
Proof.
  unfold Py.str_int.
  destruct (pretty_Z_cases z) as [[-> ->] | [(p & -> & ->) | (p & -> & ->)]];
    [reflexivity | |]; simpl;
    (apply all_chars_pretty_N_go; [apply plain_pretty_N_char | reflexivity]).
Qed.

(** [int(str(z)) == z] *)
Lemma int_of_str_str_int (z : Z) : Py.int_of_str (Py.str_int z) = Some z.
Proof. rewrite int_of_str_plain by apply plain_str_int. apply int_of_ascii_str_int. Qed.

(** X27: round trips of the conversions.  Converting an Int to a String
    and back gives the same Int, and a Bool to an Int and back the same
    Bool; but a Bool converted to a String and back is always true, the
    text [false] being a non-empty string.  ([str] and [int] are those of
    [Py]: the cap that the host puts on the number of digits of such a
    conversion is not part of the model.) *)
Theorem conversion_round_trips (st : Interp) :
  (forall z, exists s,
      convert_value "str" (vint z) st = Ok (vstr s, st)
      /\ convert_value "int" (vstr s) st = Ok (vint z, st))
  /\ (forall b, exists z,
        convert_value "int" (vbool b) st = Ok (vint z, st)
        /\ convert_value "bool" (vint z) st = Ok (vbool b, st))
  /\ (forall b, exists s,
        convert_value "str" (vbool b) st = Ok (vstr s, st)
        /\ convert_value "bool" (vstr s) st = Ok (vbool true, st)).
Proof.
  split; [|split].
  - intros z. exists (Py.str_int z). split; [reflexivity|].
    unfold convert_value. simpl. now rewrite int_of_str_str_int.
  - intros b. exists (if b then 1 else 0). split; [reflexivity|]. now destruct b.
  - intros b. exists (Py.str_bool_lower b). split; [reflexivity|]. now destruct b.
Qed.

(* --------------------------------------------------------------------- *)
(** ** [Environment.set] and [Environment.get] *)
(* --------------------------------------------------------------------- *)

(** X28: [Environment.set] and [Environment.get] look in different places.
    [set] writes the cell of the nearest binding in any frame of the stack
    and tells whether there was one; [get] reads the blocks of the top
    frame only.  So [get] after [set] gives the value written when the
    name is bound in the top frame, and nothing (although [set] has
    succeeded) when it is bound in a frame below only. *)
Theorem environment_set_then_get (varname : string) (value : Value)
  (below : env_stack) (fr : frame) (st : Interp) :
  envs st !! env st = Some (below ++ [fr]) ->
  (forall c, Environment.lookup (below ++ [fr]) varname = Some c ->
             (c < length (cells st))%nat) ->
  match Environment.lookup (below ++ [fr]) varname with
  | None => Environment.set varname value st = Ok (false, st)
  | Some c =>
      exists st',
        Environment.set varname value st = Ok (true, st')
        /\ cells st' = <[c := value]> (cells st)
        /\ envs st' = envs st
        /\ Environment.get varname st'
           = Ok (match Environment.scan_blocks varname (rev fr) with
                 | Some _ => Some value
                 | None => None
                 end, st')
  end.
Proof.
  intros He Hvalid.
  destruct (Environment.lookup (below ++ [fr]) varname) as [c|] eqn:Hl.
  - exists (with_cells (<[c := value]> (cells st)) st).
    split; [|split; [reflexivity | split; [reflexivity|]]].
    + unfold Environment.set. rewrite (bind_Ok _ _ _ _ _ (self_env_Ok _ _ He)).
      now rewrite Hl.
    + unfold Environment.get.
      rewrite (bind_Ok _ _ _ _ (below ++ [fr])) by now apply self_env_Ok.
      unfold Environment.lookup_top. rewrite last_snoc. simpl. rewrite bind_ret.
      destruct (Environment.scan_blocks varname (rev fr)) as [c'|] eqn:Hscan;
        [|reflexivity].
      apply (lookup_top_frame below) in Hscan. rewrite Hl in Hscan.
      injection Hscan as <-.
      unfold bind, Cell_get. simpl.
      now rewrite list_lookup_insert_eq by now apply Hvalid.
  - unfold Environment.set. rewrite (bind_Ok _ _ _ _ _ (self_env_Ok _ _ He)).
    now rewrite Hl.
Qed.

Lemma environment_set_then_get_witness :
  let st := with_envs [[[[("xi", 0%nat)]]; [[]]]] (with_cells [vint 1] (Interp_init [])) in
  exists st',
    Environment.set "xi" (vint 2) st = Ok (true, st')
    /\ cells st' = <[0%nat := vint 2]> (cells st)
    /\ envs st' = envs st
    /\ Environment.get "xi" st' = Ok (None, st').
Proof.
  intros st.
  apply (environment_set_then_get "xi" (vint 2) [[[("xi", 0%nat)]]] [[]] st eq_refl).
  intros c [= <-]. simpl. lia.
Defined.

(* --------------------------------------------------------------------- *)
(** ** Calls: the context that a call restores *)
(* --------------------------------------------------------------------- *)

Lemma read_only_argument_bind_value (fuel : nat) (declared_type : Type_)
  (expected_interface : option string) (argument_value : Value) :
  read_only (argument_bind_value fuel declared_type expected_interface argument_value).
Proof. unfold argument_bind_value. read_only_tac. Qed.

Lemma read_only_argument_binding (pname : string) (is_ref : bool)
  (expected_interface : option string) (argument_expression : expr) (bind_val : Value) :
  read_only (argument_binding pname is_ref expected_interface argument_expression bind_val).
Proof. unfold argument_binding. read_only_tac. Qed.

(** The first loop of [invoke_function] changes no state. *)
Lemma read_only_bind_arguments (fuel : nat) (formal_params : list arg_node) :
  forall args_expr_nodes actual_args_values,
    read_only (bind_arguments fuel formal_params args_expr_nodes actual_args_values).
Proof.
  induction formal_params as [|formal formals IH]; intros exprs vals; simpl.
  - apply read_only_ret.
  - destruct exprs as [|e exprs]; [apply read_only_ret|].
    destruct vals as [|v vals]; [apply read_only_ret|].
    apply read_only_bind; [apply read_only_param_declared|]. intros d.
    apply read_only_bind; [apply read_only_argument_bind_value|]. intros bind_val.
    apply read_only_bind; [apply read_only_argument_binding|]. intros b.
    apply read_only_bind; [apply IH|]. intros rest. apply read_only_ret.
Qed.

(** X29: a call that returns restores the context of its caller: the
    declared return type and interface against which [return] statements
    are checked are those of before the call, whatever the body did to
    them, and after the call of a closure the interpreter runs again on
    the environment stack of the caller. *)
Theorem call_restores_return_context (fuel : nat) (exec : list stmt -> M (Value * bool))
  (func_def : func_node) (args_expr_nodes : list expr) (actual_args_values : list Value)
  (closure_env : option nat) (self_object_value : option Value)
  (res : Value) (st st' : Interp) :
  invoke_function fuel exec func_def args_expr_nodes actual_args_values
    closure_env self_object_value st = Ok (res, st') ->
  current_return_type st' = current_return_type st
  /\ current_return_interface st' = current_return_interface st
  /\ (is_Some closure_env -> env st' = env st)
  /\ length (fn_args func_def) = length actual_args_values.
Proof.
  unfold invoke_function. intros H.
  apply bind_inv_Ok in H as ([] & sta & Harity & H).
  apply error_if_Ok_inv in Harity as [Harity ->].
  apply negb_false_iff, Nat.eqb_eq in Harity.
  apply bind_inv_Ok in H as (bindings & sta & Hb & H).
  pose proof (read_only_bind_arguments _ _ _ _ _ _ _ Hb) as ->.
  unfold bind at 1 in H. unfold gets at 1 in H.
  unfold bind at 1 in H. unfold gets at 1 in H.
  unfold bind at 1 in H. unfold gets at 1 in H.
  apply bind_inv_Ok in H as ([] & st1 & _ & H).
  apply bind_inv_Ok in H as (rd & st2 & _ & H).
  apply bind_inv_Ok in H as ([] & st3 & _ & H).
  apply bind_inv_Ok in H as ([] & st4 & _ & H).
  apply bind_inv_Ok in H as ([] & st5 & _ & H).
  apply bind_inv_Ok in H as ([] & st6 & _ & H).
  apply bind_inv_Ok in H as (r & st7 & _ & H).
  apply bind_inv_Ok in H as ([] & st8 & _ & H).
  apply bind_inv_Ok in H as ([] & st9 & Hrestore & H).
  unfold bind, modify, ret in H. injection H as _ <-. simpl.
  split; [reflexivity|]. split; [reflexivity|]. split; [|assumption].
  intros [ce ->]. unfold modify in Hrestore. now injection Hrestore as <-.
Qed.

Lemma call_restores_return_context_witness :
  let st := with_return INT None (with_envs [[[[]]]; [[[]]]] (with_env 1 (Interp_init []))) in
  exists res st',
    invoke_function 3 (run_statements 3) (top_func 0 "fv" [] []) [] [] (Some 0%nat) None st
    = Ok (res, st')
    /\ current_return_type st' = current_return_type st
    /\ current_return_interface st' = current_return_interface st
    /\ (is_Some (Some 0%nat) -> env st' = env st)
    /\ length (fn_args (top_func 0 "fv" [] [])) = length (@nil Value).
Proof.
  intros st. eexists _, _. split; [vm_compute; reflexivity|].
  eapply (call_restores_return_context 3 (run_statements 3) (top_func 0 "fv" [] []) [] []
            (Some 0%nat) None _ st).
  vm_compute. reflexivity.
Defined.

(* --------------------------------------------------------------------- *)
(** ** Input *)
(* --------------------------------------------------------------------- *)

(** X30: [inputi] and [inputs].  A call with more than one argument is a
    Name error before any argument is evaluated.  Without a prompt, the
    call takes one line of the input and prints nothing: [inputs] (any
    name but [inputi]) returns the line as a String; [inputi] returns the
    integer [z] on the line that [str] writes for [z], and a line that
    [int] refuses ends the run with the ValueError of the host, not with
    an error of the interpreter. *)
Theorem input_reads_one_line (eval : expr -> M Value) (fcall_name line : string)
  (rest : list string) (st : Interp) :
  input st = line :: rest ->
  (forall args, (1 < length args)%nat ->
                handle_input eval fcall_name args st = Error NAME_ERROR)
  /\ (fcall_name <> "inputi" ->
      handle_input eval fcall_name [] st = Ok (vstr line, with_input rest st))
  /\ (forall z, line = Py.str_int z ->
                handle_input eval "inputi" [] st = Ok (vint z, with_input rest st))
  /\ (Py.int_of_str line = None ->
      handle_input eval "inputi" [] st = Raise "ValueError").
Proof.
  intros Hin. split; [|split; [|split]].
  - intros args Hlen. unfold handle_input.
    apply Nat.ltb_lt in Hlen. now rewrite Hlen.
  - intros Hname. unfold handle_input, host_get_input. simpl.
    rewrite !bind_ret. unfold bind at 1. unfold bind at 1. unfold gets at 1.
    rewrite Hin. unfold bind, modify, ret.
    apply String.eqb_neq in Hname. now rewrite Hname.
  - intros z ->. unfold handle_input, host_get_input. simpl.
    rewrite !bind_ret. unfold bind at 1. unfold bind at 1. unfold gets at 1.
    rewrite Hin. unfold bind, modify, ret.
    now rewrite int_of_str_str_int.
  - intros Hbad. unfold handle_input, host_get_input. simpl.
    rewrite !bind_ret. unfold bind at 1. unfold bind at 1. unfold gets at 1.
    rewrite Hin. unfold bind, modify, ret.
    now rewrite Hbad.
Qed.

Lemma input_reads_one_line_witness :
  handle_input (eval_expr 2) "inputi" [] (Interp_init ["x1"; "7"]) = Raise "ValueError".
Proof.
  apply (proj2 (proj2 (proj2 (input_reads_one_line (eval_expr 2) "inputi" "x1" ["7"]
                                (Interp_init ["x1"; "7"]) eq_refl)))).
  reflexivity.
Defined.

(* --------------------------------------------------------------------- *)
(** ** Calls: the activation *)
(* --------------------------------------------------------------------- *)

(** Looking a name up on a stack whose top frame has one block: the block
    first, then the frames below. *)
Lemma lookup_snoc_single (below : env_stack) (blk : block) (name : string) :
  Environment.lookup (below ++ [[blk]]) name
  = match Dict.get name blk with
    | Some c => Some c
    | None => Environment.lookup below name
    end.
Proof.
  unfold Environment.lookup. rewrite rev_app_distr. simpl.
  now destruct (Dict.get name blk).
Qed.

Lemma Dict_mem_set_ne {V} (k k' : string) (x : V) (d : list (string * V)) :
  k <> k' -> Dict.mem k' (Dict.set k x d) = Dict.mem k' d.
Proof. intros Hne. unfold Dict.mem. now rewrite Dict_get_set_ne. Qed.

Lemma return_declared_any_state (f : func_node) (st st' st1 : Interp)
  (rd : Type_ * option string) :
  return_declared f st = Ok (rd, st') -> return_declared f st1 = Ok (rd, st1).
Proof.
  unfold return_declared. destruct (String.eqb (fn_name f) "main").
  - now intros [= <- _].
  - apply declared_of_suffix_name_any_state.
Qed.

(** The second loop of [invoke_function] goes through when the parameter
    names are pairwise different and none is in the frame yet; it touches
    the block of the new frame and the cell store only. *)
Lemma install_bindings_total (bindings : list binding) :
  forall (st1 : Interp) (below : env_stack) (blk : block),
    envs st1 !! env st1 = Some (below ++ [[blk]]) ->
    NoDup (map binding_name bindings) ->
    (forall p, In p (map binding_name bindings) -> Dict.mem p blk = false) ->
    exists st2 blk',
      install_bindings bindings st1 = Ok (tt, st2)
      /\ env st2 = env st1
      /\ heap st2 = heap st1
      /\ current_return_type st2 = current_return_type st1
      /\ current_return_interface st2 = current_return_interface st1
      /\ envs st2 !! env st2 = Some (below ++ [[blk']])
      /\ (forall x, ~ In x (map binding_name bindings) -> Dict.get x blk' = Dict.get x blk).
Proof.
  induction bindings as [|b rest IH]; intros st1 below blk He Hnd Hfree.
  - exists st1, blk. simpl. repeat split; auto.
  - apply NoDup_cons in Hnd as [Hhead Hnd]. rewrite list_elem_of_In in Hhead.
    assert (Hmem : Dict.mem (binding_name b) blk = false) by (apply Hfree; now left).
    assert (Hstep : exists c st1',
               (match b with
                | RefBinding pname cell =>
                    bind (Environment.fdef_function_cell pname cell)
                      (fun ok => error_if (negb ok) NAME_ERROR)
                | ValBinding pname val =>
                    bind (Environment.fdef_function pname val)
                      (fun ok => error_if (negb ok) NAME_ERROR)
                end) st1 = Ok (tt, st1')
               /\ env st1' = env st1 /\ heap st1' = heap st1
               /\ current_return_type st1' = current_return_type st1
               /\ current_return_interface st1' = current_return_interface st1
               /\ envs st1' !! env st1'
                  = Some (below ++ [[Dict.set (binding_name b) c blk]])).
    { destruct b as [pname cell | pname val]; simpl in Hmem |- *.
      - exists cell. eexists.
        rewrite (bind_Ok _ _ _ _ _ (eq_trans (fdef_function_cell_single _ _ _ _ _ He)
                                       ltac:(rewrite Hmem; reflexivity))).
        split; [reflexivity|]. simpl. repeat split.
        now apply envs_insert_lookup with (e := below ++ [[blk]]).
      - exists (length (cells st1)). eexists.
        rewrite (bind_Ok _ _ _ _ _ (eq_trans (fdef_function_single _ _ _ _ _ He)
                                       ltac:(rewrite Hmem; reflexivity))).
        split; [reflexivity|]. simpl. repeat split.
        now apply envs_insert_lookup with (e := below ++ [[blk]]). }
    destruct Hstep as (c & st1' & Hrun & Henv & Hheap & Hrt & Hri & He').
    destruct (IH st1' below (Dict.set (binding_name b) c blk) He' Hnd)
      as (st2 & blk' & Hinst & Henv2 & Hheap2 & Hrt2 & Hri2 & He2 & Hother).
    { intros p Hin. rewrite Dict_mem_set_ne; [apply Hfree; now right|].
      intros Heq. apply Hhead. now rewrite Heq. }
    exists st2, blk'. split.
    { destruct b as [pname cell | pname val]; simpl;
        apply bind_inv_Ok in Hrun as (ok & sta & Hdef & Hok);
        rewrite (bind_Ok _ _ _ _ _ Hdef);
        rewrite (bind_Ok _ _ _ _ _ Hok); exact Hinst. }
    split; [congruence|]. split; [congruence|]. split; [congruence|].
    split; [congruence|]. split; [assumption|].
    intros x Hx. rewrite Hother by (intros Hin; apply Hx; now right).
    apply Dict_get_set_ne. intros Heq. apply Hx. now left.
Qed.

(** [invoke_function] up to the body.  When the arguments have been
    bound and the parameter names can be defined, the call comes to run
    the body of the function in a state [st_in] whose environment stack is
    the stack that the call runs on (the caller's, or the closure's) with
    one new frame of one block [blk].  That block binds every ref formal
    to the cell of its entry and every value formal to a fresh cell that
    holds its value, and nothing else but the receiver; the cells that
    existed and the heap are as they were. *)
Lemma invoke_function_activation (fuel : nat) (exec : list stmt -> M (Value * bool))
  (f : func_node) (args : list expr) (vals : list Value) (ce : option nat)
  (owner : option Value) (st : Interp) (bindings : list binding)
  (rd : Type_ * option string) (e : env_stack) :
  length (fn_args f) = length vals ->
  bind_arguments fuel (fn_args f) args vals st = Ok (bindings, st) ->
  return_declared f st = Ok (rd, st) ->
  envs st !! default (env st) ce = Some e ->
  NoDup (map binding_name bindings) ->
  (is_Some owner -> ~ In "selfo" (map binding_name bindings)) ->
  exists st_in blk news,
    invoke_function fuel exec f args vals ce owner st
    = bind (exec (fn_statements f)) (call_epilogue ce st) st_in
    /\ env st_in = default (env st) ce
    /\ envs st_in !! env st_in = Some (e ++ [[blk]])
    /\ cells st_in = cells st ++ news
    /\ heap st_in = heap st
    /\ current_return_type st_in = fst rd
    /\ current_return_interface st_in = snd rd
    /\ (forall p c, In (RefBinding p c) bindings -> Dict.get p blk = Some c)
    /\ (forall p v, In (ValBinding p v) bindings ->
          exists c, Dict.get p blk = Some c /\ (length (cells st) <= c)%nat
                    /\ cells st_in !! c = Some v)
    /\ (forall x, ~ In x (map binding_name bindings) ->
          (is_Some owner -> x <> "selfo") -> Dict.get x blk = None).
Proof.
  intros Hlen Hb Hrd He Hnd Hself. unfold invoke_function.
  rewrite Hlen, Nat.eqb_refl. simpl negb. unfold error_if at 1. rewrite bind_ret.
  rewrite (bind_Ok _ _ _ _ _ Hb).
  unfold bind at 1. unfold gets at 1. unfold bind at 1. unfold gets at 1.
  unfold bind at 1. unfold gets at 1.
  set (sta := match ce with Some i => with_env i st | None => st end).
  assert (Hsta : (match ce with
                  | Some i => modify (with_env i)
                  | None => ret tt
                  end) st = Ok (tt, sta)) by (subst sta; now destruct ce).
  rewrite (bind_Ok _ _ _ _ _ Hsta).
  rewrite (bind_Ok _ _ _ _ _ (return_declared_any_state f st st sta rd Hrd)).
  unfold bind at 1. unfold modify at 1.
  set (stb := with_return (fst rd) (snd rd) sta).
  assert (Henvb : env stb = default (env st) ce) by (subst stb sta; now destruct ce).
  assert (Heb : envs stb !! env stb = Some e).
  { rewrite Henvb. subst stb sta. now destruct ce. }
  rewrite (bind_Ok _ _ _ _ _ (enter_func_Ok _ _ Heb)).
  set (stc := with_envs (<[env stb := e ++ [[[]]]]> (envs stb)) stb).
  assert (Hec : envs stc !! env stc = Some (e ++ [[[]]])).
  { subst stc. simpl. now apply envs_insert_lookup with (e := e). }
  assert (Howner : exists std blk0 news0,
             (match owner with
              | Some o =>
                  bind (Environment.fdef_function "selfo" o)
                    (fun ok => error_if (negb ok) NAME_ERROR)
              | None => ret tt
              end) stc = Ok (tt, std)
             /\ env std = env stb
             /\ envs std !! env std = Some (e ++ [[blk0]])
             /\ cells std = cells st ++ news0
             /\ heap std = heap st
             /\ current_return_type std = fst rd
             /\ current_return_interface std = snd rd
             /\ (forall x, (is_Some owner -> x <> "selfo") -> Dict.get x blk0 = None)).
  { destruct owner as [o|].
    - eexists _, (Dict.set "selfo" (length (cells stc)) []), [o].
      rewrite (bind_Ok _ _ _ _ _ (fdef_function_single _ _ _ _ _ Hec)).
      split; [reflexivity|]. simpl. split; [reflexivity|].
      split; [apply list_lookup_insert_eq; rewrite length_insert;
              now apply lookup_lt_Some in Heb|].
      split; [subst stc stb sta; now destruct ce|].
      split; [subst stc stb sta; now destruct ce|].
      split; [reflexivity|]. split; [reflexivity|].
      intros x Hx. specialize (Hx (mk_is_Some _ _ eq_refl)).
      destruct (String.eqb_spec x "selfo"); [contradiction | reflexivity].
    - exists stc, [], []. split; [reflexivity|]. split; [reflexivity|].
      split; [assumption|]. rewrite app_nil_r.
      split; [subst stc stb sta; now destruct ce|].
      split; [subst stc stb sta; now destruct ce|].
      split; [reflexivity|]. split; [reflexivity|]. reflexivity. }
  destruct Howner as (std & blk0 & news0 & Hown & Henvd & Hed & Hcd & Hhd & Hrtd & Hrid & Hblk0).
  rewrite (bind_Ok _ _ _ _ _ Hown).
  destruct (install_bindings_total bindings std e blk0 Hed Hnd)
    as (st_in & blk & Hinst & Henv & Hheap & Hrt & Hri & Hein & Hother).
  { intros p Hin. unfold Dict.mem. rewrite Hblk0; [reflexivity|].
    intros Ho Heq. subst p. now apply (Hself Ho). }
  rewrite (bind_Ok _ _ _ _ _ Hinst).
  destruct (install_bindings_binds _ _ _ _ _ Hed Hinst) as (blk1 & He1 & _ & Href).
  destruct (install_bindings_effect _ _ _ _ _ Hed Hinst)
    as (blk2 & news & He2 & Hcells & _ & Hval & _ & _).
  assert (blk1 = blk) as ->.
  { rewrite Hein in He1. injection He1 as He1. apply app_inj_tail in He1 as [_ He1].
    now injection He1. }
  assert (blk2 = blk) as ->.
  { rewrite Hein in He2. injection He2 as He2. apply app_inj_tail in He2 as [_ He2].
    now injection He2. }
  exists st_in, blk, (news0 ++ news).
  split; [reflexivity|]. split; [congruence|]. split; [assumption|].
  split; [rewrite Hcells, Hcd; now rewrite app_assoc|].
  split; [congruence|]. split; [congruence|]. split; [congruence|].
  split; [assumption|]. split.
  - intros p v Hin. destruct (Hval p v Hin) as (c & Hg & Hle & Hlk).
    exists c. split; [assumption|]. split.
    + rewrite Hcd, length_app in Hle. lia.
    + now rewrite Hcells.
  - intros x Hx Hsel. rewrite (Hother x Hx). now apply Hblk0.
Qed.

Lemma exit_func_Ok (st : Interp) (e : env_stack) (fr : frame) :
  envs st !! env st = Some (e ++ [fr]) ->
  Environment.exit_func st = Ok (tt, with_envs (<[env st := e]> (envs st)) st).
Proof.
  intros He. unfold Environment.exit_func.
  rewrite (bind_Ok _ _ _ _ _ (self_env_Ok _ _ He)), last_snoc. simpl.
  rewrite bind_ret. unfold Environment.set_self_env, modify.
  now rewrite removelast_last.
Qed.

(** What follows the body changes neither the cells nor the heap. *)
Lemma call_epilogue_effect (ce : option nat) (caller : Interp) (r : Value * bool)
  (st_out : Interp) (e_out : env_stack) (fr : frame) :
  envs st_out !! env st_out = Some (e_out ++ [fr]) ->
  exists st',
    call_epilogue ce caller r st_out = Ok (fst r, st')
    /\ cells st' = cells st_out
    /\ heap st' = heap st_out
    /\ current_return_type st' = current_return_type caller
    /\ current_return_interface st' = current_return_interface caller
    /\ (is_Some ce -> env st' = env caller).
Proof.
  intros He. unfold call_epilogue.
  rewrite (bind_Ok _ _ _ _ _ (exit_func_Ok _ _ _ He)).
  destruct ce as [i|]; eexists; (split; [reflexivity|]); simpl;
    (split; [reflexivity|]); (split; [reflexivity|]); (split; [reflexivity|]);
    (split; [reflexivity|]).
  - reflexivity.
  - intros [? [=]].
Qed.

(** The first loop of [invoke_function]: the entries it builds.  The loop
    changes no state; the entry of a ref formal is the cell that
    [get_qname_cell] resolves the argument name to, its argument being a
    qualified name; the entries carry the names of the formals, in
    order. *)
Lemma bind_arguments_entries (fuel : nat) (formals : list arg_node) :
  forall (args : list expr) (vals : list Value) (st st1 : Interp) (bindings : list binding),
    bind_arguments fuel formals args vals st = Ok (bindings, st1) ->
    st1 = st
    /\ (exists later, map arg_name formals = map binding_name bindings ++ later)
    /\ (forall i formal a,
          formals !! i = Some formal -> args !! i = Some a -> (i < length vals)%nat ->
          arg_ref formal = true ->
          exists n c, a = QualifiedName n
                      /\ get_qname_cell n st = Ok (c, st)
                      /\ bindings !! i = Some (RefBinding (arg_name formal) c)).
Proof.
  induction formals as [|formal formals IH]; intros args vals st st1 bindings H.
  - injection H as <- <-. split; [reflexivity|]. split; [now exists []|].
    intros i ? ? Hi. now rewrite lookup_nil in Hi.
  - simpl in H. destruct args as [|a args].
    { injection H as <- <-. split; [reflexivity|]. split; [now eexists|].
      intros i ? ? _ Hi. now rewrite lookup_nil in Hi. }
    destruct vals as [|v vals].
    { injection H as <- <-. split; [reflexivity|]. split; [now eexists|].
      intros i ? ? _ _ Hi. simpl in Hi. lia. }
    apply bind_inv_Ok in H as (d & sta & Hd & H).
    pose proof (read_only_param_declared _ _ _ _ Hd) as ->.
    apply bind_inv_Ok in H as (bind_val & sta & Hbv & H).
    pose proof (read_only_argument_bind_value _ _ _ _ _ _ _ Hbv) as ->.
    apply bind_inv_Ok in H as (b & sta & Hbind & H).
    pose proof (read_only_argument_binding _ _ _ _ _ _ _ _ Hbind) as ->.
    apply bind_inv_Ok in H as (rest & sta & Hrest & H).
    injection H as <- <-.
    destruct (IH _ _ _ _ _ Hrest) as (-> & (later & Hnames) & Hentries).
    assert (Hname : binding_name b = arg_name formal).
    { unfold argument_binding in Hbind. destruct (arg_ref formal).
      - destruct a; try discriminate.
        apply bind_inv_Ok in Hbind as ([] & stb & _ & Hbind).
        apply bind_inv_Ok in Hbind as (cell & stc & _ & Hbind).
        now injection Hbind as <- _.
      - now injection Hbind as <-. }
    split; [reflexivity|]. split.
    { exists later. simpl. now rewrite Hname, Hnames. }
    intros [|i] formal' a' Hf Ha Hi Href; simpl in *.
    + injection Hf as <-. injection Ha as <-.
      unfold argument_binding in Hbind. rewrite Href in Hbind.
      destruct a as [| | | | | | | n | | | |]; try discriminate.
      apply bind_inv_Ok in Hbind as ([] & stb & Hguard & Hbind).
      assert (stb = st) as ->.
      { destruct (snd d) as [iface|]; [|now injection Hguard].
        apply bind_inv_Ok in Hguard as (ai & stc & Hi' & Hg).
        pose proof (read_only_interface_for_qname _ _ _ _ Hi') as ->.
        now apply read_only_error_if in Hg. }
      apply bind_inv_Ok in Hbind as (cell & stc & Hcell & Hbind).
      pose proof (read_only_get_qname_cell _ _ _ _ Hcell) as ->.
      injection Hbind as <-. now exists n, cell.
    + apply (Hentries i formal' a' Hf Ha); [lia | assumption].
Qed.

(** A ref formal whose argument is not a name stops the first loop with a
    Type error, once the arguments before it have been bound and the
    checks on the value of this one have passed. *)
Lemma bind_arguments_refuses (fuel : nat) (pre_f : list arg_node) :
  forall (pre_a : list expr) (pre_v : list Value) (formal : arg_node)
         (post_f : list arg_node) (a : expr) (post_a : list expr) (v : Value)
         (post_v : list Value) (st st1 st2 st3 : Interp) (bs : list binding)
         (d : Type_ * option string) (bv : Value),
    length pre_a = length pre_f -> length pre_v = length pre_f ->
    bind_arguments fuel pre_f pre_a pre_v st = Ok (bs, st1) ->
    param_declared formal st = Ok (d, st2) ->
    argument_bind_value fuel (fst d) (snd d) v st = Ok (bv, st3) ->
    arg_ref formal = true ->
    (forall n, a <> QualifiedName n) ->
    bind_arguments fuel (pre_f ++ formal :: post_f) (pre_a ++ a :: post_a)
      (pre_v ++ v :: post_v) st = Error TYPE_ERROR.
Proof.
  induction pre_f as [|f0 pre_f IH];
    intros pre_a pre_v formal post_f a post_a v post_v st st1 st2 st3 bs d bv
           Hla Hlv Hpre Hd Hbv Href Hname.
  - destruct pre_a; [|discriminate]. destruct pre_v; [|discriminate]. simpl.
    pose proof (read_only_param_declared _ _ _ _ Hd) as ->.
    pose proof (read_only_argument_bind_value _ _ _ _ _ _ _ Hbv) as ->.
    rewrite (bind_Ok _ _ _ _ _ Hd), (bind_Ok _ _ _ _ _ Hbv).
    apply bind_Error. unfold argument_binding. rewrite Href.
    destruct a; try reflexivity. now contradiction (Hname name).
  - destruct pre_a as [|a0 pre_a]; [discriminate|].
    destruct pre_v as [|v0 pre_v]; [discriminate|].
    simpl in Hla, Hlv, Hpre |- *.
    apply bind_inv_Ok in Hpre as (d0 & sta & Hd0 & Hpre).
    pose proof (read_only_param_declared _ _ _ _ Hd0) as ->.
    apply bind_inv_Ok in Hpre as (bv0 & sta & Hbv0 & Hpre).
    pose proof (read_only_argument_bind_value _ _ _ _ _ _ _ Hbv0) as ->.
    apply bind_inv_Ok in Hpre as (b0 & sta & Hb0 & Hpre).
    pose proof (read_only_argument_binding _ _ _ _ _ _ _ _ Hb0) as ->.
    apply bind_inv_Ok in Hpre as (rest & sta & Hrest & _).
    rewrite (bind_Ok _ _ _ _ _ Hd0), (bind_Ok _ _ _ _ _ Hbv0), (bind_Ok _ _ _ _ _ Hb0).
    apply bind_Error.
    apply (IH pre_a pre_v formal post_f a post_a v post_v st sta st2 st3 rest d bv);
      try assumption; lia.
Qed.

(** A value that is not nil and carries the tag of the target passes the
    tag check of an assignment as it is. *)
Lemma check_assign_type_same (value : Value) (st : Interp) :
  is_nil_value value = false ->
  check_assign_type (val_t value) value st = Ok (value, st).
Proof.
  intros Hnil. unfold check_assign_type. rewrite is_nil_like_is_nil_value, Hnil.
  destruct (bool_decide (val_t value = OBJECT)) eqn:Ho;
    [|destruct (bool_decide (val_t value = FUNCTION)) eqn:Hf].
  - apply bool_decide_eq_true in Ho.
    now rewrite (bool_decide_eq_false_2 (val_t value <> OBJECT)) by tauto.
  - apply bool_decide_eq_true in Hf.
    now rewrite (bool_decide_eq_false_2 (val_t value <> FUNCTION)) by tauto.
  - now rewrite (bool_decide_eq_false_2 (val_t value <> val_t value)) by tauto.
Qed.

Lemma return_declared_not_nil (f : func_node) (st st' : Interp)
  (rd : Type_ * option string) :
  return_declared f st = Ok (rd, st') -> fst rd <> NIL.
Proof.
  unfold return_declared, declared_of_suffix_name, type_from_suffix.
  destruct (String.eqb (fn_name f) "main"); [now intros [= <- _]|].
  destruct (Py.last_char (fn_name f)) as [c|]; [|discriminate].
  simpl. rewrite !bind_ret.
  repeat match goal with
         | |- context [if ?b then _ else _] => destruct b
         end; try discriminate; intros H; injection H as <- _; discriminate.
Qed.

Lemma default_value_total (ty : Type_) (st : Interp) :
  ty <> NIL -> exists dv, default_value_for_type ty st = Ok (dv, st).
Proof. destruct ty; intros H; try (eexists; reflexivity). contradiction. Qed.

(** Reading a field of the object that a plain name holds. *)
Lemma get_qname_value_field (base field : string) (st : Interp) (e : env_stack)
  (bc : nat) (id : Z) (obj_fields : list (string * nat)) (fc : nat) (fv : Value) :
  Py.has_dot base = false ->
  Py.has_dot field = false ->
  envs st !! env st = Some e ->
  Environment.lookup e base = Some bc ->
  cells st !! bc = Some (vobj id) ->
  type_from_name base st = Ok (OBJECT, st) ->
  heap st !! id = Some obj_fields ->
  Dict.get field obj_fields = Some fc ->
  cells st !! fc = Some fv ->
  get_qname_value (base +:+ "." +:+ field) st = Ok (fv, st).
Proof.
  intros Hdb Hdf He Hl Hbc Hty Hh Hd Hc.
  assert (Hbase : Cell_get bc st = Ok (vobj id, st)) by (unfold Cell_get; now rewrite Hbc).
  assert (Hcell : get_qname_cell (base +:+ "." +:+ field) st = Ok (fc, st)).
  { unfold get_qname_cell.
    rewrite (split_dot_dotted _ field Hdb), (split_dot_no_dot _ Hdf).
    rewrite (bind_Ok _ _ _ _ _ (exists_lookup _ _ base He)), Hl.
    unfold error_if at 1. simpl negb. cbv iota. rewrite !bind_ret.
    rewrite (bind_Ok _ _ _ _ _ Hty).
    rewrite (bool_decide_eq_false_2 (OBJECT <> OBJECT)) by congruence.
    unfold error_if at 1. rewrite !bind_ret.
    rewrite (bind_Ok _ _ _ _ _ (get_current_cell_lookup _ _ base He)), Hl.
    rewrite (bind_Ok _ _ _ _ _ Hbase). simpl. rewrite !bind_ret.
    unfold get_qname_cell_final, vobj. cbn [val_t val_v is_none].
    rewrite (bool_decide_eq_false_2 (OBJECT <> OBJECT)) by congruence.
    unfold error_if at 1 2. rewrite !bind_ret.
    rewrite (bind_Ok _ _ _ _ _ (heap_get_object id st)), Hh, Hd. reflexivity. }
  unfold get_qname_value. rewrite (bind_Ok _ _ _ _ _ Hcell).
  unfold Cell_get. now rewrite Hc.
Qed.

(** A bound plain name evaluates to the value of its cell. *)
Lemma eval_plain_name (fuel : nat) (eval : expr -> M Value)
  (exec : list stmt -> M (Value * bool)) (name : string) (st : Interp)
  (e : env_stack) (c : nat) (val : Value) :
  Py.has_dot name = false ->
  envs st !! env st = Some e ->
  Environment.lookup e name = Some c ->
  cells st !! c = Some val ->
  eval_expr_body fuel eval exec (QualifiedName name) st = Ok (val, st).
Proof.
  intros Hdot He Hl Hc. unfold eval_expr_body. rewrite Hdot.
  rewrite (bind_Ok _ _ _ _ _ (exists_lookup _ _ name He)), Hl.
  now apply (get_qname_value_plain name st e c val).
Qed.

(** An assignment to a bound plain name of a value that is not nil and
    has the type of the name (a name without interface). *)
Lemma set_qname_value_stores (fuel : nat) (name : string) (value : Value)
  (st : Interp) (e : env_stack) (c : nat) :
  Py.has_dot name = false ->
  envs st !! env st = Some e ->
  Environment.lookup e name = Some c ->
  type_from_name name st = Ok (val_t value, st) ->
  interface_from_name name st = Ok (None, st) ->
  is_nil_value value = false ->
  set_qname_value fuel name value st
  = Ok (tt, with_cells (<[c := value]> (cells st)) st).
Proof.
  intros Hdot He Hcell Hty Hif Hnil.
  rewrite (set_qname_value_plain_steps fuel name value st e c (val_t value) None
             Hdot He Hcell Hty Hif).
  rewrite (bind_Ok _ _ _ _ _ (check_assign_type_same value st Hnil)).
  unfold check_interface. rewrite bind_ret.
  rewrite (bind_Ok _ _ _ _ _ (get_current_cell_lookup _ _ name He)).
  now rewrite Hcell.
Qed.

(** The body [name = rhs;]. *)
Lemma body_assign_runs (fuel : nat) (eval : expr -> M Value)
  (exec : list stmt -> M (Value * bool))
  (loop : expr -> list stmt -> Value -> M (Value * bool))
  (name : string) (rhs : expr) (value : Value) (st : Interp) (e : env_stack) (c : nat) :
  current_return_type st <> NIL ->
  eval rhs st = Ok (value, st) ->
  Py.has_dot name = false ->
  envs st !! env st = Some e ->
  Environment.lookup e name = Some c ->
  type_from_name name st = Ok (val_t value, st) ->
  interface_from_name name st = Ok (None, st) ->
  is_nil_value value = false ->
  exists dv,
    run_statements_body fuel eval exec loop [Assign name rhs] st
    = Ok ((dv, false), with_cells (<[c := value]> (cells st)) st).
Proof.
  intros Hrt Hrhs Hdot He Hl Hty Hif Hnil.
  destruct (default_value_total _ st Hrt) as (dv & Hdv).
  exists dv. unfold run_statements_body.
  unfold bind at 1. unfold gets at 1. rewrite (bind_Ok _ _ _ _ _ Hdv).
  simpl. unfold run_assign. unfold bind at 1. unfold bind at 1. rewrite Hrhs.
  now rewrite (set_qname_value_stores fuel name value st e c Hdot He Hl Hty Hif Hnil).
Qed.

(** The body [return ex;] in a function whose declared return type is
    the tag of the value of [ex]. *)
Lemma body_return_runs (fuel : nat) (eval : expr -> M Value)
  (exec : list stmt -> M (Value * bool))
  (loop : expr -> list stmt -> Value -> M (Value * bool))
  (ex : expr) (val : Value) (st : Interp) :
  eval ex st = Ok (val, st) ->
  current_return_type st = val_t val ->
  current_return_type st <> NIL ->
  current_return_type st <> VOID ->
  current_return_interface st = None ->
  is_nil_value val = false ->
  run_statements_body fuel eval exec loop [Return (Some ex)] st = Ok ((val, true), st).
Proof.
  intros Hex Hrt Hnn Hnv Hri Hnil.
  destruct (default_value_total _ st Hnn) as (dv & Hdv).
  unfold run_statements_body.
  unfold bind at 1. unfold gets at 1. rewrite (bind_Ok _ _ _ _ _ Hdv).
  simpl. unfold run_return.
  unfold bind at 1. unfold gets at 1. unfold bind at 1. unfold gets at 1.
  rewrite (bind_Ok _ _ _ _ _ Hex).
  rewrite (bool_decide_eq_false_2 (current_return_type st = VOID)) by assumption.
  unfold error_if at 1. rewrite bind_ret.
  rewrite is_nil_like_is_nil_value, Hnil.
  rewrite (bool_decide_eq_false_2 (val_t val <> current_return_type st)) by (rewrite Hrt; tauto).
  rewrite Hri. reflexivity.
Qed.

Lemma formal_names_of_bindings (formals : list arg_node) (bindings : list binding)
  (later : list string) (owner : option Value) :
  map arg_name formals = map binding_name bindings ++ later ->
  NoDup (map arg_name formals) ->
  (is_Some owner -> ~ In "selfo" (map arg_name formals)) ->
  NoDup (map binding_name bindings)
  /\ (is_Some owner -> ~ In "selfo" (map binding_name bindings)).
Proof.
  intros Hnames Hnd Hself. rewrite Hnames in Hnd, Hself.
  apply NoDup_app in Hnd as (Hnd & _ & _). split; [assumption|].
  intros Ho Hin. apply (Hself Ho). apply in_or_app. now left.
Qed.

(* --------------------------------------------------------------------- *)
(** ** Calls: ref parameters *)
(* --------------------------------------------------------------------- *)

(** C3: a call that binds a ref formal.

    (1) When the argument of a ref formal is not a qualified name,
    [invoke_function] ends in a Type error, the arguments before it having
    been bound and the checks on the value of this one having passed.

    (2) When the arguments are bound, the parameter names are pairwise
    different (and none is the name of the receiver, if there is one),
    [invoke_function] runs the body of the function in a state in which
    every ref formal is bound to the very cell that [get_qname_cell]
    resolves its argument name to in the caller, the argument being a
    qualified name; the cells of the caller are as they were.  When the
    body returns, the call returns with the cell store as the body left
    it: what the callee wrote into the cell is what the caller reads from
    it.

    (3) An assignment to a plain name stores the value in the cell that
    the name is bound to: it goes through for a value that is not nil and
    has the type of the name (a name without interface), and after any
    assignment that goes through the cell holds the value assigned.

    (4) Put together, for a callee whose body assigns to its ref formal:
    the call returns, and after it the cell of the caller's variable
    holds the value that the callee assigned; the other cells of the
    caller are as they were. *)
Theorem ref_parameter_shares_cell :
  (forall fuel exec f args vals ce owner st
          pre_f formal post_f pre_a a post_a pre_v v post_v bs st1 d st2 bv st3,
     fn_args f = pre_f ++ formal :: post_f ->
     args = pre_a ++ a :: post_a ->
     vals = pre_v ++ v :: post_v ->
     length pre_a = length pre_f -> length pre_v = length pre_f ->
     length post_v = length post_f ->
     bind_arguments fuel pre_f pre_a pre_v st = Ok (bs, st1) ->
     param_declared formal st = Ok (d, st2) ->
     argument_bind_value fuel (fst d) (snd d) v st = Ok (bv, st3) ->
     arg_ref formal = true ->
     (forall n, a <> QualifiedName n) ->
     invoke_function fuel exec f args vals ce owner st = Error TYPE_ERROR)
  /\ (forall fuel exec f args vals ce owner st bindings st1 rd st2 e,
        length (fn_args f) = length vals ->
        bind_arguments fuel (fn_args f) args vals st = Ok (bindings, st1) ->
        return_declared f st = Ok (rd, st2) ->
        envs st !! default (env st) ce = Some e ->
        NoDup (map arg_name (fn_args f)) ->
        (is_Some owner -> ~ In "selfo" (map arg_name (fn_args f))) ->
        exists st_in e_in,
          invoke_function fuel exec f args vals ce owner st
          = bind (exec (fn_statements f)) (call_epilogue ce st) st_in
          /\ envs st_in !! env st_in = Some e_in
          /\ (forall i formal a,
                fn_args f !! i = Some formal -> args !! i = Some a ->
                arg_ref formal = true ->
                exists n c, a = QualifiedName n
                            /\ get_qname_cell n st = Ok (c, st)
                            /\ Environment.lookup e_in (arg_name formal) = Some c)
          /\ (forall c, (c < length (cells st))%nat -> cells st_in !! c = cells st !! c)
          /\ (forall r st_out e_out fr,
                exec (fn_statements f) st_in = Ok (r, st_out) ->
                envs st_out !! env st_out = Some (e_out ++ [fr]) ->
                exists st',
                  invoke_function fuel exec f args vals ce owner st = Ok (fst r, st')
                  /\ cells st' = cells st_out))
  /\ (forall fuel pname value st e cell,
        Py.has_dot pname = false ->
        envs st !! env st = Some e ->
        Environment.lookup e pname = Some cell ->
        (cell < length (cells st))%nat ->
        (type_from_name pname st = Ok (val_t value, st) ->
         interface_from_name pname st = Ok (None, st) ->
         is_nil_value value = false ->
         set_qname_value fuel pname value st
         = Ok (tt, with_cells (<[cell := value]> (cells st)) st))
        /\ (forall st', set_qname_value fuel pname value st = Ok (tt, st') ->
              exists value',
                Cell_get cell st' = Ok (value', st')
                /\ val_v value' = val_v value
                /\ (is_nil_value value = false -> value' = value)))
  /\ (forall fuel fuel1 eval exec1 loop f args vals ce owner st bindings st1 rd st2 e
             i formal n c rhs value,
        length (fn_args f) = length vals ->
        bind_arguments fuel (fn_args f) args vals st = Ok (bindings, st1) ->
        return_declared f st = Ok (rd, st2) ->
        envs st !! default (env st) ce = Some e ->
        NoDup (map arg_name (fn_args f)) ->
        (is_Some owner -> ~ In "selfo" (map arg_name (fn_args f))) ->
        fn_args f !! i = Some formal ->
        arg_ref formal = true ->
        args !! i = Some (QualifiedName n) ->
        get_qname_cell n st = Ok (c, st) ->
        (c < length (cells st))%nat ->
        fn_statements f = [Assign (arg_name formal) rhs] ->
        Py.has_dot (arg_name formal) = false ->
        (forall s, eval rhs s = Ok (value, s)) ->
        type_from_name (arg_name formal) st = Ok (val_t value, st) ->
        interface_from_name (arg_name formal) st = Ok (None, st) ->
        is_nil_value value = false ->
        exists res st',
          invoke_function fuel (run_statements_body fuel1 eval exec1 loop) f args vals
            ce owner st = Ok (res, st')
          /\ cells st' !! c = Some value
          /\ (forall c0, (c0 < length (cells st))%nat -> c0 <> c ->
                         cells st' !! c0 = cells st !! c0)).
Proof.
  split; [|split; [|split]].
  - intros fuel exec f args vals ce owner st pre_f formal post_f pre_a a post_a
           pre_v v post_v bs st1 d st2 bv st3 Hf -> -> Hla Hlv Hlp Hpre Hd Hbv Href Hname.
    unfold invoke_function. rewrite Hf.
    replace (length (pre_f ++ formal :: post_f) =? length (pre_v ++ v :: post_v))%nat
      with true
      by (symmetry; apply Nat.eqb_eq; rewrite !length_app; simpl; lia).
    simpl negb. unfold error_if at 1. rewrite bind_ret.
    apply bind_Error.
    now apply (bind_arguments_refuses fuel pre_f pre_a pre_v formal post_f a post_a v post_v
                 st st1 st2 st3 bs d bv).
  - intros fuel exec f args vals ce owner st bindings st1 rd st2 e
           Hlen Hb Hrd He Hnd Hself.
    destruct (bind_arguments_entries _ _ _ _ _ _ _ Hb) as (-> & (later & Hnames) & Hentries).
    pose proof (return_declared_any_state f st st2 st rd Hrd) as Hrd'.
    destruct (formal_names_of_bindings _ _ _ owner Hnames Hnd Hself) as [Hnd' Hself'].
    destruct (invoke_function_activation fuel exec f args vals ce owner st bindings rd e
                Hlen Hb Hrd' He Hnd' Hself')
      as (st_in & blk & news & Hrun & _ & Hein & Hcells & _ & _ & _ & Href & _ & _).
    exists st_in, (e ++ [[blk]]). split; [exact Hrun|]. split; [exact Hein|].
    split; [|split].
    + intros i formal a Hf Ha Hr.
      destruct (Hentries i formal a Hf Ha) as (n & c & -> & Hcell & Hbi);
        [rewrite <- Hlen; now apply lookup_lt_Some in Hf | assumption |].
      exists n, c. split; [reflexivity|]. split; [assumption|].
      rewrite lookup_snoc_single.
      now rewrite (Href _ _ (proj1 (list_elem_of_In _ _) (list_elem_of_lookup_2 _ _ _ Hbi))).
    + intros c Hc. rewrite Hcells. now apply lookup_app_l.
    + intros r st_out e_out fr Hbody Hout.
      destruct (call_epilogue_effect ce st r st_out e_out fr Hout)
        as (st' & Hep & Hc' & _).
      exists st'. split; [|assumption].
      rewrite Hrun. now rewrite (bind_Ok _ _ _ _ _ Hbody).
  - intros fuel pname value st e cell Hdot He Hcell Hlt. split.
    + intros Hty Hif Hnil. now apply (set_qname_value_stores fuel pname value st e cell).
    + intros st' Hset.
      destruct (set_qname_value_plain _ _ _ _ _ _ _ Hdot He Hcell Hset)
        as (left_type & value' & Hchk & ->).
      exists value'. split.
      * unfold Cell_get. simpl. now rewrite list_lookup_insert_eq.
      * eapply check_assign_type_payload, Hchk.
  - intros fuel fuel1 eval exec1 loop f args vals ce owner st bindings st1 rd st2 e
           i formal n c rhs value Hlen Hb Hrd He Hnd Hself Hf Href Ha Hcell Hlt
           Hbody Hdot Hrhs Hty Hif Hnil.
    destruct (bind_arguments_entries _ _ _ _ _ _ _ Hb) as (-> & (later & Hnames) & Hentries).
    pose proof (return_declared_any_state f st st2 st rd Hrd) as Hrd'.
    destruct (formal_names_of_bindings _ _ _ owner Hnames Hnd Hself) as [Hnd' Hself'].
    destruct (invoke_function_activation fuel (run_statements_body fuel1 eval exec1 loop)
                f args vals ce owner st bindings rd e Hlen Hb Hrd' He Hnd' Hself')
      as (st_in & blk & news & Hrun & _ & Hein & Hcells & _ & Hrt & _ & Hrefs & _ & _).
    destruct (Hentries i formal (QualifiedName n) Hf Ha) as (n' & c' & Hn & Hcell' & Hbi);
      [rewrite <- Hlen; now apply lookup_lt_Some in Hf | assumption |].
    injection Hn as <-. rewrite Hcell in Hcell'. injection Hcell' as <-.
    assert (Hl : Environment.lookup (e ++ [[blk]]) (arg_name formal) = Some c).
    { rewrite lookup_snoc_single.
      now rewrite (Hrefs _ _ (proj1 (list_elem_of_In _ _) (list_elem_of_lookup_2 _ _ _ Hbi))). }
    destruct (body_assign_runs fuel1 eval exec1 loop (arg_name formal) rhs value st_in
                (e ++ [[blk]]) c) as (dv & Hexec); try assumption.
    { rewrite Hrt. now apply (return_declared_not_nil f st st2). }
    { apply Hrhs. }
    { now apply (type_from_name_any_state _ st). }
    { now apply (interface_from_name_any_state _ st st). }
    destruct (call_epilogue_effect ce st (dv, false)
                (with_cells (<[c := value]> (cells st_in)) st_in) e [blk] Hein)
      as (st' & Hep & Hc' & _).
    exists dv, st'. split; [|split].
    + rewrite Hrun, Hbody. now rewrite (bind_Ok _ _ _ _ _ Hexec).
    + rewrite Hc'. simpl. apply list_lookup_insert_eq. rewrite Hcells, length_app. lia.
    + intros c0 Hc0 Hne. rewrite Hc'. simpl.
      rewrite list_lookup_insert_ne by congruence. rewrite Hcells. now apply lookup_app_l.
Qed.

(** The call [inci(41)] of [func inci(ref xi) { xi = xi + 1; }] is a Type
    error; the call [inci(ai)], where [ai] is bound to cell [0] holding 41,
    runs the body with [xi] bound to cell [0]; [xi = 42] in the callee
    writes cell [0]; and after the call [seti(ai)] of
    [func seti(ref xi) { xi = 42; }] the cell [0] of [ai] holds 42. *)
Lemma ref_parameter_shares_cell_witness :
  let inci := top_func 0 "inci" [ArgNode "xi" true]
                [Assign "xi" (BinOp OpAdd (QualifiedName "xi") (IntNode 1))] in
  let st := with_cells [vint 41] (with_envs [[[[("ai", 0%nat)]]]] (Interp_init [])) in
  invoke_function 5 (run_statements 5) inci [IntNode 41] [vint 41] None None st
  = Error TYPE_ERROR
  /\ (exists st_in e_in,
        invoke_function 5 (run_statements 5) inci [QualifiedName "ai"] [vint 41] None None st
        = bind (run_statements 5 (fn_statements inci)) (call_epilogue None st) st_in
        /\ envs st_in !! env st_in = Some e_in
        /\ Environment.lookup e_in "xi" = Some 0%nat
        /\ cells st_in !! 0%nat = Some (vint 41))
  /\ set_qname_value 5 "xi" (vint 42) ref_callee_state
     = Ok (tt, with_cells (<[0%nat := vint 42]> (cells ref_callee_state)) ref_callee_state)
  /\ (exists res st',
        invoke_function 5 (run_statements 5)
          (top_func 0 "seti" [ArgNode "xi" true] [Assign "xi" (IntNode 42)])
          [QualifiedName "ai"] [vint 41] None None st = Ok (res, st')
        /\ cells st' !! 0%nat = Some (vint 42)).
Proof.
  intros inci st.
  destruct ref_parameter_shares_cell as (Hrefuse & Hbind & Hassign & Hcall).
  split; [|split; [|split]].
  - apply (Hrefuse 5%nat (run_statements 5) inci [IntNode 41] [vint 41] None None st
             [] (ArgNode "xi" true) [] [] (IntNode 41) [] [] (vint 41) []
             [] st (INT, None) st (vint 41) st); try reflexivity.
    intros n. discriminate.
  - destruct (Hbind 5%nat (run_statements 5) inci [QualifiedName "ai"] [vint 41] None None st
                [RefBinding "xi" 0%nat] st (INT, None) st [[[("ai", 0%nat)]]])
      as (st_in & e_in & Hrun & He & Hentries & Hcells & _);
      [reflexivity | reflexivity | reflexivity | reflexivity
      | apply NoDup_singleton | intros [? [=]] |].
    exists st_in, e_in. split; [exact Hrun|]. split; [exact He|].
    destruct (Hentries 0%nat (ArgNode "xi" true) (QualifiedName "ai") eq_refl eq_refl eq_refl)
      as (n & c & Hn & Hc & Hl).
    injection Hn as <-. vm_compute in Hc. injection Hc as <-.
    split; [exact Hl|]. apply (Hcells 0%nat). simpl. lia.
  - apply (proj1 (Hassign 5%nat "xi" (vint 42) ref_callee_state
                    [[[("ai", 0%nat)]]; [[("xi", 0%nat)]]] 0%nat
                    eq_refl eq_refl eq_refl ltac:(simpl; lia)));
      reflexivity.
  - destruct (Hcall 5%nat 4%nat (eval_expr 4) (run_statements 4) (run_while_loop 4)
                (top_func 0 "seti" [ArgNode "xi" true] [Assign "xi" (IntNode 42)])
                [QualifiedName "ai"] [vint 41] None None st
                [RefBinding "xi" 0%nat] st (INT, None) st [[[("ai", 0%nat)]]]
                0%nat (ArgNode "xi" true) "ai" 0%nat (IntNode 42) (vint 42))
      as (res & st' & Hrun & Hc & _);
      try reflexivity.
    + apply NoDup_singleton.
    + intros [? [=]].
    + simpl. lia.
    + exists res, st'. split; [exact Hrun | exact Hc].
Defined.

(* --------------------------------------------------------------------- *)
(** ** Closures: capture and invocation *)
(* --------------------------------------------------------------------- *)

Lemma has_dot_dotted (base field : string) : Py.has_dot (base +:+ "." +:+ field) = true.
Proof.
  induction base as [|x base IH]; [reflexivity|].
  change (Py.has_dot (String x (base +:+ "." +:+ field)) = true). simpl.
  now destruct (Ascii.eqb x ".").
Qed.

(** The state in which the body of a function invoked with the snapshot
    as its closure starts: what the captured names read there. *)
Lemma closure_entry_state (fuel : nat) (exec : list stmt -> M (Value * bool))
  (f : func_node) (args : list expr) (vals : list Value) (owner : option Value)
  (old : list Value) (news : list Value) (e e' : env_stack) (ce : nat)
  (later st1 st2 : Interp) (bindings : list binding) (rd : Type_ * option string) :
  stack_copy old (old ++ news) e e' ->
  envs later !! ce = Some e' ->
  (forall c', (length old <= c' < length (old ++ news))%nat ->
              cells later !! c' = (old ++ news) !! c') ->
  length (fn_args f) = length vals ->
  bind_arguments fuel (fn_args f) args vals later = Ok (bindings, st1) ->
  return_declared f later = Ok (rd, st2) ->
  NoDup (map arg_name (fn_args f)) ->
  (is_Some owner -> ~ In "selfo" (map arg_name (fn_args f))) ->
  exists st_in e_in,
    invoke_function fuel exec f args vals (Some ce) owner later
    = bind (exec (fn_statements f)) (call_epilogue (Some ce) later) st_in
    /\ envs st_in !! env st_in = Some e_in
    /\ heap st_in = heap later
    /\ current_return_type st_in = fst rd
    /\ current_return_interface st_in = snd rd
    /\ (exists fr, e_in = e' ++ [fr])
    /\ (forall name c val,
          Environment.lookup e name = Some c ->
          old !! c = Some val ->
          ~ In name (map arg_name (fn_args f)) ->
          (is_Some owner -> name <> "selfo") ->
          exists c',
            Environment.lookup e_in name = Some c'
            /\ (length old <= c')%nat
            /\ cells st_in !! c' = Some val
            /\ (Py.has_dot name = false ->
                get_qname_value name st_in = Ok (val, st_in))
            /\ (forall id field obj_fields fc fv,
                  val = vobj id ->
                  Py.has_dot name = false ->
                  Py.has_dot field = false ->
                  type_from_name name later = Ok (OBJECT, later) ->
                  heap later !! id = Some obj_fields ->
                  Dict.get field obj_fields = Some fc ->
                  cells later !! fc = Some fv ->
                  get_qname_value (name +:+ "." +:+ field) st_in = Ok (fv, st_in))).
Proof.
  intros Hcopy Hsnap Hcells Hlen Hb Hrd Hnd Hself.
  destruct (bind_arguments_entries _ _ _ _ _ _ _ Hb) as (-> & (rest & Hnames) & _).
  pose proof (return_declared_any_state f later st2 later rd Hrd) as Hrd'.
  destruct (formal_names_of_bindings _ _ _ owner Hnames Hnd Hself) as [Hnd' Hself'].
  destruct (invoke_function_activation fuel exec f args vals (Some ce)
              owner later bindings rd e' Hlen Hb Hrd' Hsnap Hnd' Hself')
    as (st_in & blk & news' & Hinv & _ & Hein & Hcin & Hheap & Hrt & Hri & _ & _ & Hfree).
  exists st_in, (e' ++ [[blk]]). split; [exact Hinv|]. split; [exact Hein|].
  split; [exact Hheap|]. split; [exact Hrt|]. split; [exact Hri|].
  split; [now exists [blk]|].
  intros name c val Hl Hval Hnot Hsel.
  pose proof (lookup_copy old (old ++ news) name e e' Hcopy) as Hlc.
  rewrite Hl in Hlc. inversion Hlc as [c0 c' (Hfresh & Hc & Hsame) Heq1 Heq2|]; subst.
  assert (Hget : Dict.get name blk = None).
  { apply Hfree; [|assumption]. intros Hin. apply Hnot.
    rewrite Hnames. apply in_or_app. now left. }
  assert (Hlook : Environment.lookup (e' ++ [[blk]]) name = Some c')
    by (rewrite lookup_snoc_single, Hget; congruence).
  assert (Hread : cells st_in !! c' = Some val).
  { rewrite Hcin. apply lookup_app_l_Some.
    rewrite Hval in Hsame. rewrite Hcells; [assumption|].
    split; [assumption|]. now apply lookup_lt_Some in Hsame. }
  exists c'. split; [assumption|]. split; [assumption|]. split; [assumption|]. split.
  - intros Hdot. now apply (get_qname_value_plain name st_in (e' ++ [[blk]]) c' val).
  - intros id field obj_fields fc fv -> Hdot Hdf Hty Hh Hd Hfv.
    apply (get_qname_value_field name field st_in (e' ++ [[blk]]) c' id obj_fields fc fv);
      try assumption.
    + now apply (type_from_name_any_state _ later).
    + now rewrite Hheap.
    + rewrite Hcin. now apply lookup_app_l_Some.
Qed.

(** C2: the capture made for a function literal builds a new environment
    stack of the same shape in which every binding has a fresh cell (its
    address is beyond the store as it was) that holds the value of the
    original cell: a copy for Int, String and Bool, the same tagged handle
    for Object and Function.  The original cells and the heap are left as
    they are, so a later write to an original cell does not change what
    the snapshot reads.  The function value made for the literal refers to
    this new stack.

    When a function is invoked later with this stack as its closure, in
    any state [later] in which the snapshot is intact (whatever has become
    of the original cells and of the heap), its body starts in a state in
    which every captured name that no parameter hides reads the value that
    the original binding had when the literal was evaluated, not its
    present value, and the heap is the present one: a field of an object
    reached through a captured handle reads as it is now.

    Put together, for a body that returns a captured name, or a field of
    the object that a captured name holds: the call returns the value of
    the binding at the capture, and the present value of the field. *)
Theorem capture_snapshots_environment (st : Interp) (e : env_stack) :
  envs st !! env st = Some e ->
  Forall (Forall (Forall (fun x => (snd x < length (cells st))%nat))) e ->
  exists e' news st',
    capture_env_for_lambda st = Ok (length (envs st), st')
    /\ st' = with_envs (envs st ++ [e']) (with_cells (cells st ++ news) st)
    /\ heap st' = heap st
    /\ (forall name,
          match Environment.lookup e name, Environment.lookup e' name with
          | Some c, Some c' =>
              (length (cells st) <= c')%nat
              /\ (exists val, cells st !! c = Some val /\ cells st' !! c' = Some val)
              /\ (forall c0 w, (c0 < length (cells st))%nat ->
                    <[c0 := w]> (cells st') !! c' = cells st !! c)
          | None, None => True
          | _, _ => False
          end)
    /\ (forall fuel eval exec f d ptypes,
          declared_of_suffix_name (fn_name f) true st = Ok (d, st) ->
          declared_param_types (fn_args f) st = Ok (ptypes, st) ->
          eval_expr_body fuel eval exec (FuncExpr f) st
          = Ok (mkValue FUNCTION
                  (PFun (mkFunctionValue (next_fv_id st) f ptypes (Some (length (envs st))))),
                with_next_fv_id (S (next_fv_id st)) st'))
    /\ (forall fuel exec f args vals owner later bindings st1 rd st2,
          envs later !! length (envs st) = Some e' ->
          (forall c', (length (cells st) <= c' < length (cells st'))%nat ->
                      cells later !! c' = cells st' !! c') ->
          length (fn_args f) = length vals ->
          bind_arguments fuel (fn_args f) args vals later = Ok (bindings, st1) ->
          return_declared f later = Ok (rd, st2) ->
          NoDup (map arg_name (fn_args f)) ->
          (is_Some owner -> ~ In "selfo" (map arg_name (fn_args f))) ->
          exists st_in e_in,
            invoke_function fuel exec f args vals (Some (length (envs st))) owner later
            = bind (exec (fn_statements f))
                (call_epilogue (Some (length (envs st))) later) st_in
            /\ envs st_in !! env st_in = Some e_in
            /\ heap st_in = heap later
            /\ (forall name c val,
                  Environment.lookup e name = Some c ->
                  cells st !! c = Some val ->
                  ~ In name (map arg_name (fn_args f)) ->
                  (is_Some owner -> name <> "selfo") ->
                  exists c',
                    Environment.lookup e_in name = Some c'
                    /\ (length (cells st) <= c')%nat
                    /\ cells st_in !! c' = Some val
                    /\ (Py.has_dot name = false ->
                        get_qname_value name st_in = Ok (val, st_in))
                    /\ (forall id field obj_fields fc fv,
                          val = vobj id ->
                          Py.has_dot name = false ->
                          Py.has_dot field = false ->
                          type_from_name name later = Ok (OBJECT, later) ->
                          heap later !! id = Some obj_fields ->
                          Dict.get field obj_fields = Some fc ->
                          cells later !! fc = Some fv ->
                          get_qname_value (name +:+ "." +:+ field) st_in
                          = Ok (fv, st_in))))
    /\ (forall fuel fuel1 fuel2 eval0 exec0 exec1 loop f args vals owner later
               bindings st1 rd st2 name c val,
          envs later !! length (envs st) = Some e' ->
          (forall c', (length (cells st) <= c' < length (cells st'))%nat ->
                      cells later !! c' = cells st' !! c') ->
          length (fn_args f) = length vals ->
          bind_arguments fuel (fn_args f) args vals later = Ok (bindings, st1) ->
          return_declared f later = Ok (rd, st2) ->
          NoDup (map arg_name (fn_args f)) ->
          (is_Some owner -> ~ In "selfo" (map arg_name (fn_args f))) ->
          Environment.lookup e name = Some c ->
          cells st !! c = Some val ->
          ~ In name (map arg_name (fn_args f)) ->
          (is_Some owner -> name <> "selfo") ->
          Py.has_dot name = false ->
          fst rd <> VOID ->
          snd rd = None ->
          (fn_statements f = [Return (Some (QualifiedName name))] ->
           val_t val = fst rd ->
           is_nil_value val = false ->
           exists st_out,
             invoke_function fuel
               (run_statements_body fuel1 (eval_expr_body fuel2 eval0 exec0) exec1 loop)
               f args vals (Some (length (envs st))) owner later
             = Ok (val, st_out))
          /\ (forall id field obj_fields fc fv,
                fn_statements f
                = [Return (Some (QualifiedName (name +:+ "." +:+ field)))] ->
                val = vobj id ->
                Py.has_dot field = false ->
                type_from_name name later = Ok (OBJECT, later) ->
                heap later !! id = Some obj_fields ->
                Dict.get field obj_fields = Some fc ->
                cells later !! fc = Some fv ->
                val_t fv = fst rd ->
                is_nil_value fv = false ->
                exists st_out,
                  invoke_function fuel
                    (run_statements_body fuel1 (eval_expr_body fuel2 eval0 exec0) exec1 loop)
                    f args vals (Some (length (envs st))) owner later
                  = Ok (fv, st_out))).
Proof.
  intros He Hvalid.
  destruct (capture_stack_copy (cells st) e st [] (eq_sym (app_nil_r _)) Hvalid)
    as (e' & news & Hrun & Hcopy).
  exists e', news, (with_envs (envs st ++ [e']) (with_cells (cells st ++ news) st)).
  assert (Hcap : capture_env_for_lambda st
                 = Ok (length (envs st),
                       with_envs (envs st ++ [e']) (with_cells (cells st ++ news) st))).
  { unfold capture_env_for_lambda.
    rewrite (bind_Ok _ _ _ _ _ (self_env_Ok _ _ He)).
    rewrite (bind_Ok _ _ _ _ _ Hrun). reflexivity. }
  split; [exact Hcap|]. split; [reflexivity|]. split; [reflexivity|].
  split; [|split; [|split]].
  - intros name. simpl.
    destruct (lookup_copy (cells st) (cells st ++ news) name e e' Hcopy)
      as [c c' (Hfresh & Hc & Hsame)|]; [|exact I].
    destruct (lookup_lt_is_Some_2 _ _ Hc) as [val Hval].
    split; [assumption|]. split.
    + exists val. split; [assumption | congruence].
    + intros c0 w Hc0. rewrite list_lookup_insert_ne by lia. assumption.
  - intros fuel eval exec f d ptypes Hd Hp. unfold eval_expr_body.
    rewrite (bind_Ok _ _ _ _ _ Hd), (bind_Ok _ _ _ _ _ Hp), (bind_Ok _ _ _ _ _ Hcap).
    reflexivity.
  - intros fuel exec f args vals owner later bindings st1 rd st2
           Hsnap Hcells Hlen Hb Hrd Hnd Hself.
    destruct (closure_entry_state fuel exec f args vals owner (cells st) news e e'
                (length (envs st)) later st1 st2 bindings rd
                Hcopy Hsnap Hcells Hlen Hb Hrd Hnd Hself)
      as (st_in & e_in & Hinv & Hein & Hheap & _ & _ & _ & Hnames).
    exists st_in, e_in. split; [exact Hinv|]. split; [exact Hein|].
    split; [exact Hheap | exact Hnames].
  - intros fuel fuel1 fuel2 eval0 exec0 exec1 loop f args vals owner later
           bindings st1 rd st2 name c val
           Hsnap Hcells Hlen Hb Hrd Hnd Hself Hl Hval Hnot Hsel Hdot Hnv Hri.
    destruct (closure_entry_state fuel
                (run_statements_body fuel1 (eval_expr_body fuel2 eval0 exec0) exec1 loop)
                f args vals owner (cells st) news e e'
                (length (envs st)) later st1 st2 bindings rd
                Hcopy Hsnap Hcells Hlen Hb Hrd Hnd Hself)
      as (st_in & e_in & Hinv & Hein & Hheap & Hrt & Hrif & (fr & ->) & Hnames).
    destruct (Hnames name c val Hl Hval Hnot Hsel) as (c' & Hlook & _ & Hread & Hq & Hfield).
    pose proof (return_declared_not_nil f later st2 rd Hrd) as Hnn.
    split.
    + intros Hbody Hty Hnil.
      destruct (call_epilogue_effect (Some (length (envs st))) later (val, true)
                  st_in e' fr Hein) as (st_out & Hep & _).
      exists st_out. rewrite Hinv, Hbody.
      rewrite (bind_Ok _ _ _ st_in (val, true)); [exact Hep|].
      apply body_return_runs; try congruence.
      now apply (eval_plain_name fuel2 eval0 exec0 name st_in (e' ++ [fr]) c' val).
    + intros id field obj_fields fc fv Hbody -> Hdf Htyn Hh Hd Hfv Hty Hnil.
      destruct (call_epilogue_effect (Some (length (envs st))) later (fv, true)
                  st_in e' fr Hein) as (st_out & Hep & _).
      exists st_out. rewrite Hinv, Hbody.
      rewrite (bind_Ok _ _ _ st_in (fv, true)); [exact Hep|].
      apply body_return_runs; try congruence.
      unfold eval_expr_body. rewrite has_dot_dotted.
      now apply (Hfield id field obj_fields fc fv).
Qed.

(** The literal [func() { return xi; }] evaluated where [xi = 10] is the
    only binding: the function value refers to the new stack [1], and
    when it is invoked after the original cell [0] has been overwritten
    with 99, its body starts in a state where [xi] reads 10, and the call
    returns 10. *)
Lemma capture_snapshots_environment_witness :
  let st := with_cells [vint 10] (with_envs [[[[("xi", 0%nat)]]]] (Interp_init [])) in
  let body := [Return (Some (QualifiedName "xi"))] in
  let f := FuncNode true 1 "lambdai" [] body in
  exists (news : list Value) (st' : Interp),
    capture_env_for_lambda st = Ok (1%nat, st')
    /\ cells st' = [vint 10] ++ news
    /\ eval_expr_body 5 (eval_expr 5) (run_statements 5) (FuncExpr f) st
       = Ok (mkValue FUNCTION (PFun (mkFunctionValue 0%nat f [] (Some 1%nat))),
             with_next_fv_id 1%nat st')
    /\ (let later := with_cells (<[0%nat := vint 99]> (cells st')) st' in
        (exists st_in,
           invoke_function 5 (run_statements 5) f [] [] (Some 1%nat) None later
           = bind (run_statements 5 body) (call_epilogue (Some 1%nat) later) st_in
           /\ get_qname_value "xi" st_in = Ok (vint 10, st_in))
        /\ (exists st_out,
              invoke_function 5 (run_statements 5) f [] [] (Some 1%nat) None later
              = Ok (vint 10, st_out))).
Proof.
  intros st body f.
  destruct (capture_snapshots_environment st [[[("xi", 0%nat)]]] eq_refl
              ltac:(repeat constructor))
    as (e' & news & st' & Hcap & Hst & _ & _ & Hlit & Hinv & Hret).
  exists news, st'. split; [exact Hcap|].
  split; [now rewrite Hst|].
  split; [now apply (Hlit 5%nat (eval_expr 5) (run_statements 5) f (INT, None) [])|].
  intros later.
  assert (Hsnap : envs later !! length (envs st) = Some e')
    by (subst later; rewrite Hst; reflexivity).
  assert (Hcells : forall c', (length (cells st) <= c' < length (cells st'))%nat ->
                              cells later !! c' = cells st' !! c').
  { intros c' Hc'. subst later. simpl in *. apply list_lookup_insert_ne. lia. }
  split.
  - destruct (Hinv 5%nat (run_statements 5) f [] [] None later [] later (INT, None) later
                Hsnap Hcells eq_refl eq_refl eq_refl (NoDup_nil_2) ltac:(intros [? [=]]))
      as (st_in & e_in & Hrun & _ & _ & Hread).
    exists st_in. split; [exact Hrun|].
    destruct (Hread "xi" 0%nat (vint 10) eq_refl eq_refl (fun H => H) ltac:(intros [? [=]]))
      as (c' & _ & _ & _ & Hq & _).
    now apply Hq.
  - apply (proj1 (Hret 5%nat 4%nat 3%nat (eval_expr 3) (run_statements 3) (run_statements 4)
                    (run_while_loop 4) f [] [] None later [] later (INT, None) later
                    "xi" 0%nat (vint 10)
                    Hsnap Hcells eq_refl eq_refl eq_refl (NoDup_nil_2)
                    ltac:(intros [? [=]]) eq_refl eq_refl (fun H => H)
                    ltac:(intros [? [=]]) eq_refl ltac:(discriminate) eq_refl));
      reflexivity.
Defined.
